(** * A shallow embedding of the hybrid code-search core

    The development follows the TypeScript sources:

    - [SparseEmbedding] (BM25 sparse encoder): tokenizer, [buildVocabulary],
      [embed], [embedBatch], [exportState], [importState], [clear];
    - [QdrantVectorDatabase]: [stringToUuid], [parseFilterExpression],
      [applyReranking], [insert], [insertHybrid], [hybridSearch] and the
      calls that create, drop and list collections;
    - [FireworksReranker]: [rerank].

    Modelling conventions.

    - A JavaScript string is a Rocq [string]; a character is a UTF-16 code
      unit below 256 (the Latin-1 range), which is where every character
      class of the regular expressions in the source lives.
    - A JavaScript [number] that carries a score, a weight or a ratio is a
      real number ([R]): IEEE rounding, infinities and NaN are idealised
      away, so a division by zero, which JavaScript answers with an
      infinity or NaN, has no counterpart here.  Counts and lengths are
      [nat]; 32-bit integer arithmetic is [Z] with its wrap-around written
      out.
    - Console output of the encoder is left out; console output and
      backend calls of the adapter are recorded as a list of [Event]s.
    - The backend client is a record of functions of the request; a call
      that throws is [None] or [false].
    - A JavaScript [Map] is an association list with unique keys kept in
      insertion order (module [JsMap]).
    - Regular expressions are values of the type [regex], run by a
      backtracking matcher with greedy quantifiers (module [Rx]). *)

From Stdlib Require Import Bool Arith ZArith List Ascii String Lia.
From Stdlib Require Import Reals Lra.
From Stdlib Require Import Sorted Permutation DecimalString.
Import ListNotations.

Local Open Scope string_scope.
Local Open Scope list_scope.

(* ================================================================== *)
(** * Characters and character classes *)
(* ================================================================== *)

Module Chr.

Definition code (c : ascii) : nat := nat_of_ascii c.

Definition between (lo hi : nat) (c : ascii) : bool :=
  Nat.leb lo (code c) && Nat.leb (code c) hi.

Definition is_code (n : nat) (c : ascii) : bool := Nat.eqb (code c) n.

Definition one_of (l : list nat) (c : ascii) : bool :=
  existsb (fun n => Nat.eqb (code c) n) l.

(** [[a-z]], [[A-Z]], [[0-9]] *)
Definition lower : ascii -> bool := between 97 122.
Definition upper : ascii -> bool := between 65 90.
Definition digit : ascii -> bool := between 48 57.

(** [\w] is [[A-Za-z0-9_]] *)
Definition word (c : ascii) : bool :=
  lower c || upper c || digit c || is_code 95 c.

(** [\s]: TAB, LF, VT, FF, CR, SPACE and NO-BREAK SPACE. *)
Definition space : ascii -> bool := one_of [9; 10; 11; 12; 13; 32; 160].

(** [\p{P}] restricted to code units below 256: the ASCII punctuation
    marks (exclamation mark, both quotes, number sign, percent, ampersand,
    parentheses, asterisk, comma, hyphen, full stop, slash, colon,
    semicolon, question mark, at sign, square brackets, backslash,
    underscore, braces) and the seven Latin-1 ones. *)
Definition punct : ascii -> bool :=
  one_of [33; 34; 35; 37; 38; 39; 40; 41; 42; 44; 45; 46; 47; 58; 59; 63;
          64; 91; 92; 93; 95; 123; 125; 161; 167; 171; 182; 183; 187; 191].

Definition dquote : ascii := ascii_of_nat 34.
Definition squote : ascii := ascii_of_nat 39.

(** The class of the two quote characters. *)
Definition quote : ascii -> bool := one_of [34; 39].

(** [String.prototype.toLowerCase] on one code unit. *)
Definition to_lower (c : ascii) : ascii :=
  if upper c || between 192 214 c || between 216 222 c
  then ascii_of_nat (code c + 32)
  else c.

End Chr.

(** [String.prototype.toLowerCase] *)
Fixpoint toLowerCase (s : string) : string :=
  match s with
  | EmptyString => EmptyString
  | String c s' => String (Chr.to_lower c) (toLowerCase s')
  end.

(** The first [n] code units of [s]. *)
Fixpoint take (n : nat) (s : string) : string :=
  match n, s with
  | S n', String c s' => String c (take n' s')
  | _, _ => EmptyString
  end.

(** [s] without its first [n] code units. *)
Fixpoint drop (n : nat) (s : string) : string :=
  match n, s with
  | S n', String _ s' => drop n' s'
  | _, _ => s
  end.

(** [s.slice(0, n)] for [n >= 0]. *)
Definition slice0 (n : nat) (s : string) : string := take n s.

(** [s.slice(-n)] for [n > 0]: the last [n] code units, or all of [s]. *)
Definition slice_last (n : nat) (s : string) : string :=
  drop (String.length s - n) s.

(** [s.slice(n)] for [n >= 0]. *)
Definition slice_from (n : nat) (s : string) : string := drop n s.

Fixpoint repeat_char (c : ascii) (n : nat) : string :=
  match n with
  | O => EmptyString
  | S n' => String c (repeat_char c n')
  end.

(** [s.padStart(n, "0")] *)
Definition padStart0 (n : nat) (s : string) : string :=
  (repeat_char "0"%char (n - String.length s) ++ s)%string.

Fixpoint all_chars (p : ascii -> bool) (s : string) : bool :=
  match s with
  | EmptyString => true
  | String c s' => p c && all_chars p s'
  end.

(* ================================================================== *)
(** * Regular expressions *)
(* ================================================================== *)

Module Rx.

(** The fragment of the regular expression language the sources use:
    character classes, greedy [*], [+] and [?] over a class,
    concatenation and capturing groups. *)
Inductive regex : Type :=
| Cls   (p : ascii -> bool)
| Many  (p : ascii -> bool)
| Many1 (p : ascii -> bool)
| Maybe (p : ascii -> bool)
| Cat   (r1 r2 : regex)
| Group (r : regex).

(** Greedy iteration with backtracking: the longest run of [p] first,
    then shorter ones, until the continuation accepts. *)
Fixpoint many {A : Type} (p : ascii -> bool) (s : string)
         (k : string -> option A) : option A :=
  match s with
  | String c s' =>
      if p c
      then match many p s' k with
           | Some a => Some a
           | None => k s
           end
      else k s
  | EmptyString => k s
  end.

(** [run r s caps k]: match [r] at the start of [s]; on success call [k]
    with the rest of the input and the captures closed so far. *)
Fixpoint run {A : Type} (r : regex) (s : string) (caps : list string)
         (k : string -> list string -> option A) : option A :=
  match r with
  | Cls p =>
      match s with
      | String c s' => if p c then k s' caps else None
      | EmptyString => None
      end
  | Many p => many p s (fun s' => k s' caps)
  | Many1 p =>
      match s with
      | String c s' => if p c then many p s' (fun s'' => k s'' caps) else None
      | EmptyString => None
      end
  | Maybe p =>
      match s with
      | String c s' =>
          if p c
          then match k s' caps with
               | Some a => Some a
               | None => k s caps
               end
          else k s caps
      | EmptyString => k s caps
      end
  | Cat r1 r2 => run r1 s caps (fun s' caps' => run r2 s' caps' k)
  | Group r1 =>
      run r1 s caps
          (fun s' caps' =>
             k s' (caps' ++ [take (String.length s - String.length s') s]))
  end.

(** A match anchored at the start of [s]: the captures and the rest. *)
Definition match_at (r : regex) (s : string) : option (list string * string) :=
  run r s [] (fun rest caps => Some (caps, rest)).

(** [s.match(r)] without the [g] flag: the leftmost match. *)
Fixpoint search (r : regex) (s : string) : option (list string * string) :=
  match match_at r s with
  | Some m => Some m
  | None =>
      match s with
      | String _ s' => search r s'
      | EmptyString => None
      end
  end.

(** [s.replace(r, tpl)] with the [g] flag, for an [r] that matches no
    empty string; [tpl] builds the replacement from the captures. *)
Fixpoint replace_fuel (fuel : nat) (r : regex) (tpl : list string -> string)
         (s : string) : string :=
  match fuel with
  | O => s
  | S fuel' =>
      match match_at r s with
      | Some (caps, rest) =>
          (tpl caps ++ replace_fuel fuel' r tpl rest)%string
      | None =>
          match s with
          | String c s' => String c (replace_fuel fuel' r tpl s')
          | EmptyString => EmptyString
          end
      end
  end.

Definition replace_all (r : regex) (tpl : list string -> string)
           (s : string) : string :=
  replace_fuel (S (String.length s)) r tpl s.

(** [s.split(r)] for an [r] without groups that matches no empty string. *)
Fixpoint split_fuel (fuel : nat) (r : regex) (s cur : string) : list string :=
  match fuel with
  | O => [(cur ++ s)%string]
  | S fuel' =>
      match s with
      | EmptyString => [cur]
      | String c s' =>
          match match_at r s with
          | Some (_, rest) => cur :: split_fuel fuel' r rest EmptyString
          | None => split_fuel fuel' r s' (cur ++ String c EmptyString)%string
          end
      end
  end.

Definition split (r : regex) (s : string) : list string :=
  split_fuel (S (String.length s)) r s EmptyString.

(** The n-th capture ([$1] is [cap 1]). *)
Definition cap (n : nat) (caps : list string) : string :=
  nth (n - 1) caps EmptyString.

End Rx.

Import Rx.

(* ================================================================== *)
(** * The tokenizer of [SparseEmbedding] *)
(* ================================================================== *)

Inductive TokenMode : Type := simple | code.

(** [/[\s\p{P}]+/u] *)
Definition re_simple_delims : regex :=
  Many1 (fun c => Chr.space c || Chr.punct c).

(** [tokenizeSimple] *)
Definition tokenizeSimple (text : string) : list string :=
  filter (fun token => Nat.ltb 1 (String.length token))
         (split re_simple_delims (toLowerCase text)).

(** The delimiter class of [tokenizeCode]: whitespace and the 29 ASCII
    characters listed in the source, given here by their codes in the order
    of the source (comma, semicolon, colon, braces, parentheses, square
    brackets, angle brackets, both quotes, equals, plus, hyphen, asterisk,
    slash, backslash, bar, ampersand, caret, percent, dollar, number sign,
    at sign, exclamation mark, tilde, backquote). *)
Definition code_delim (c : ascii) : bool :=
  Chr.space c ||
  Chr.one_of [44; 59; 58; 123; 125; 40; 41; 91; 93; 60; 62; 39; 34; 61; 43;
              45; 42; 47; 92; 124; 38; 94; 37; 36; 35; 64; 33; 126; 96] c.

Definition re_code_delims : regex := Many1 code_delim.

(** [/([a-z])([A-Z])/g] *)
Definition re_camel : regex := Cat (Group (Cls Chr.lower)) (Group (Cls Chr.upper)).

(** [/[_-]+/g] *)
Definition re_underscore : regex := Many1 (Chr.one_of [95; 45]).

(** [/([A-Z]+)([A-Z][a-z])/g] *)
Definition re_acronym : regex :=
  Cat (Group (Many1 Chr.upper)) (Group (Cat (Cls Chr.upper) (Cls Chr.lower))).

(** [/\s+/] *)
Definition re_spaces : regex := Many1 Chr.space.

(** The replacement string ["$1 $2"]. *)
Definition tpl_1_sp_2 (caps : list string) : string :=
  (cap 1 caps ++ " " ++ cap 2 caps)%string.

Definition stopTokens : list string :=
  [ "the"; "is"; "at"; "of"; "on"; "and"; "or"; "to"; "in"; "it"; "for";
    "as"; "be"; "by"; "an"; "if"; "do"; "no"; "so";
    "var"; "let"; "const"; "this"; "that"; "new"; "null"; "true"; "false" ].

(** [isStopToken] *)
Definition isStopToken (token : string) : bool :=
  existsb (String.eqb token) stopTokens.

(** The body of the outer loop of [tokenizeCode] for one segment. *)
Definition tokenizeSegment (segment : string) : list string :=
  if String.eqb segment EmptyString then []
  else
    let camelSplit := replace_all re_camel tpl_1_sp_2 segment in
    let underscoreSplit := replace_all re_underscore (fun _ => " ") camelSplit in
    let acronymSplit := replace_all re_acronym tpl_1_sp_2 underscoreSplit in
    let parts := split re_spaces acronymSplit in
    filter (fun lower => Nat.ltb 1 (String.length lower) && negb (isStopToken lower))
           (map toLowerCase parts).

(** [tokenizeCode] *)
Definition tokenizeCode (text : string) : list string :=
  flat_map tokenizeSegment (split re_code_delims text).

(** [tokenize], with the token mode of the configuration. *)
Definition tokenize (mode : TokenMode) (text : string) : list string :=
  match mode with
  | code => tokenizeCode text
  | simple => tokenizeSimple text
  end.

(* ================================================================== *)
(** * JavaScript containers *)
(* ================================================================== *)

(** A [Map] with string keys: an association list in insertion order. *)
Module JsMap.
Section Defs.
Context {V : Type}.

Definition t : Type := list (string * V).

Definition empty : t := [].

Fixpoint get (m : t) (k : string) : option V :=
  match m with
  | [] => None
  | (k', v) :: m' => if String.eqb k' k then Some v else get m' k
  end.

Definition has (m : t) (k : string) : bool :=
  match get m k with
  | Some _ => true
  | None => false
  end.

(** [m.set(k, v)]: overwrite in place, or append a new entry. *)
Fixpoint set (m : t) (k : string) (v : V) : t :=
  match m with
  | [] => [(k, v)]
  | (k', v') :: m' =>
      if String.eqb k' k then (k', v) :: m' else (k', v') :: set m' k v
  end.

Definition size (m : t) : nat := List.length m.

Definition keys (m : t) : list string := map fst m.

(** [Array.from(m.entries())] *)
Definition entries (m : t) : list (string * V) := m.

(** [new Map(pairs)] *)
Definition of_entries (l : list (string * V)) : t :=
  fold_left (fun m kv => set m (fst kv) (snd kv)) l empty.
End Defs.
Arguments t : clear implicits.
End JsMap.

(** A [Set] in insertion order. *)
Module JsSet.
Section Defs.
Context {A : Type} (eqb : A -> A -> bool).

Definition add (x : A) (l : list A) : list A :=
  if existsb (eqb x) l then l else l ++ [x].

(** [new Set(xs)] *)
Definition of_list (xs : list A) : list A :=
  fold_left (fun acc x => add x acc) xs [].
End Defs.
End JsSet.

(* ================================================================== *)
(** * Numbers *)
(* ================================================================== *)

Local Open Scope R_scope.

Definition Rltb (x y : R) : bool := if Rlt_dec x y then true else false.
Definition Rleb (x y : R) : bool := if Rle_dec x y then true else false.

(** [x || d] on numbers: [d] when [x] is zero. *)
Definition or_default (x d : R) : R := if Req_dec_T x 0 then d else x.

(** [Math.floor] *)
Definition floor (x : R) : R := IZR (Int_part x).

(* ================================================================== *)
(** * The BM25 sparse encoder, [SparseEmbedding] *)
(* ================================================================== *)

Record SparseVector : Type := mkSparse {
  indices : list Z;
  values  : list R
}.

Record SparseEmbeddingConfig : Type := mkConfig {
  k1          : R;
  b           : R;
  minDf       : R;
  maxDfRatio  : R;
  sublinearTf : bool;
  tokenMode   : TokenMode
}.

(** The defaults of the constructor. *)
Definition defaultConfig : SparseEmbeddingConfig :=
  {| k1 := 12 / 10; b := 75 / 100; minDf := 1; maxDfRatio := 85 / 100;
     sublinearTf := false; tokenMode := code |}.

(** The fields of a [SparseEmbedding] object. *)
Record SparseEmbedding : Type := mkEncoder {
  config            : SparseEmbeddingConfig;
  vocabulary        : JsMap.t Z;
  documentFrequency : JsMap.t R;
  totalDocuments    : R;
  avgDocumentLength : R;
  idfCache          : JsMap.t R;
  isInitialized     : bool
}.

(** [new SparseEmbedding(config)] *)
Definition newSparseEmbedding (cfg : SparseEmbeddingConfig) : SparseEmbedding :=
  {| config := cfg; vocabulary := JsMap.empty; documentFrequency := JsMap.empty;
     totalDocuments := 0; avgDocumentLength := 0; idfCache := JsMap.empty;
     isInitialized := false |}.

(** The callback of [documents.forEach] in [buildVocabulary]: the running
    [totalLength] and the map [termDocs] from a term to the set of the
    indices of the documents that contain it. *)
Definition countDocument (mode : TokenMode)
           (acc : nat * JsMap.t (list nat)) (entry : nat * string)
  : nat * JsMap.t (list nat) :=
  let '(totalLength, termDocs) := acc in
  let '(docIndex, doc) := entry in
  let tokens := tokenize mode doc in
  let uniqueTerms := JsSet.of_list String.eqb tokens in
  (totalLength + List.length tokens,
   fold_left
     (fun td term =>
        let docs := match JsMap.get td term with
                    | Some ds => ds
                    | None => []
                    end in
        JsMap.set td term (JsSet.add Nat.eqb docIndex docs))
     uniqueTerms termDocs)%nat.

Definition countDocuments (mode : TokenMode) (documents : list string)
  : nat * JsMap.t (list nat) :=
  fold_left (countDocument mode)
            (combine (seq 0 (List.length documents)) documents)
            (0%nat, JsMap.empty).

(** The three tables filled by the second loop of [buildVocabulary],
    with the counter [vocabIndex]. *)
Record Tables : Type := mkTables {
  t_vocabulary : JsMap.t Z;
  t_df         : JsMap.t R;
  t_idf        : JsMap.t R;
  t_next       : Z
}.

(** [Math.log((N - df + 0.5) / (df + 0.5) + 1)] *)
Definition idfOf (N df : R) : R := ln ((N - df + 5 / 10) / (df + 5 / 10) + 1).

(** The body of the loop over [termDocs]. *)
Definition selectTerm (cfg : SparseEmbeddingConfig) (N maxDf : R)
           (tb : Tables) (entry : string * list nat) : Tables :=
  let '(term, docs) := entry in
  let df := INR (List.length docs) in
  if Rleb (minDf cfg) df && Rleb df maxDf
  then {| t_vocabulary := JsMap.set (t_vocabulary tb) term (t_next tb);
          t_df := JsMap.set (t_df tb) term df;
          t_idf := JsMap.set (t_idf tb) term (idfOf N df);
          t_next := (t_next tb + 1)%Z |}
  else tb.

Definition emptyTables : Tables :=
  {| t_vocabulary := JsMap.empty; t_df := JsMap.empty; t_idf := JsMap.empty;
     t_next := 0%Z |}.

(** [buildVocabulary(documents)] *)
Definition buildVocabulary (documents : list string) (s : SparseEmbedding)
  : SparseEmbedding :=
  match documents with
  | [] =>
      {| config := config s; vocabulary := JsMap.empty;
         documentFrequency := JsMap.empty; totalDocuments := 0;
         avgDocumentLength := avgDocumentLength s; idfCache := JsMap.empty;
         isInitialized := true |}
  | _ :: _ =>
      let n := INR (List.length documents) in
      let counted := countDocuments (tokenMode (config s)) documents in
      let maxDf := floor (maxDfRatio (config s) * n) in
      let tb := fold_left (selectTerm (config s) n maxDf) (snd counted)
                          emptyTables in
      {| config := config s; vocabulary := t_vocabulary tb;
         documentFrequency := t_df tb; totalDocuments := n;
         avgDocumentLength := INR (fst counted) / n; idfCache := t_idf tb;
         isInitialized := true |}
  end.

(** [getVocabularySize()] *)
Definition getVocabularySize (s : SparseEmbedding) : nat :=
  JsMap.size (vocabulary s).

(** The term frequencies of [embed], restricted to the vocabulary. *)
Definition countTerm (vocab : JsMap.t Z) (termFreq : JsMap.t nat)
           (token : string) : JsMap.t nat :=
  if JsMap.has vocab token
  then JsMap.set termFreq token
                 (match JsMap.get termFreq token with
                  | Some n => n
                  | None => 0
                  end + 1)%nat
  else termFreq.

Definition termFrequencies (vocab : JsMap.t Z) (tokens : list string)
  : JsMap.t nat :=
  fold_left (countTerm vocab) tokens JsMap.empty.

(** [adjustedTf] *)
Definition adjustedTfOf (cfg : SparseEmbeddingConfig) (tf : nat) : R :=
  if sublinearTf cfg then 1 + ln (INR tf) else INR tf.

(** The BM25 score of one term, as the loop of [embed] computes it. *)
Definition bm25 (s : SparseEmbedding) (docLength : nat) (term : string)
           (tf : nat) : R :=
  let idf := match JsMap.get (idfCache s) term with
             | Some v => v
             | None => 0
             end in
  let adjustedTf := adjustedTfOf (config s) tf in
  let numerator := adjustedTf * (k1 (config s) + 1) in
  let denominator :=
    adjustedTf +
    k1 (config s) *
      (1 - b (config s) +
       b (config s) * (INR docLength / or_default (avgDocumentLength s) 1)) in
  idf * (numerator / denominator).

(** The index of a term ([this.vocabulary.get(term)!]; every key of
    [termFreq] is a key of the vocabulary, the default is never taken). *)
Definition indexOf (s : SparseEmbedding) (term : string) : Z :=
  match JsMap.get (vocabulary s) term with
  | Some i => i
  | None => 0%Z
  end.

(** The pairs [(index, score)] pushed by the loop of [embed]. *)
Definition scoredTerms (s : SparseEmbedding) (docLength : nat)
           (termFreq : JsMap.t nat) : list (Z * R) :=
  filter (fun e => Rltb 0 (snd e))
         (map (fun e => (indexOf s (fst e), bm25 s docLength (fst e) (snd e)))
              termFreq).

(** The encoder after the automatic initialisation at the head of [embed]. *)
Definition autoInit (text : string) (s : SparseEmbedding) : SparseEmbedding :=
  if isInitialized s then s else buildVocabulary [text] s.

(** [embed(text)]: the sparse vector and the encoder afterwards. *)
Definition embed (text : string) (s : SparseEmbedding)
  : SparseVector * SparseEmbedding :=
  let s1 := autoInit text s in
  let tokens := tokenize (tokenMode (config s1)) text in
  let docLength := List.length tokens in
  match docLength with
  | O => ({| indices := []; values := [] |}, s1)
  | S _ =>
      let termFreq := termFrequencies (vocabulary s1) tokens in
      let scored := scoredTerms s1 docLength termFreq in
      ({| indices := map fst scored; values := map snd scored |}, s1)
  end.

(** [embedQuery(text)] *)
Definition embedQuery (text : string) (s : SparseEmbedding)
  : SparseVector * SparseEmbedding := embed text s.

(** The container of [exportState] and [importState]. *)
Record ExportedState : Type := mkExported {
  x_vocabulary        : list (string * Z);
  x_documentFrequency : list (string * R);
  x_idfCache          : list (string * R);
  x_totalDocuments    : R;
  x_avgDocumentLength : R;
  x_config            : option SparseEmbeddingConfig
}.

(** [exportState()] *)
Definition exportState (s : SparseEmbedding) : ExportedState :=
  {| x_vocabulary := JsMap.entries (vocabulary s);
     x_documentFrequency := JsMap.entries (documentFrequency s);
     x_idfCache := JsMap.entries (idfCache s);
     x_totalDocuments := totalDocuments s;
     x_avgDocumentLength := avgDocumentLength s;
     x_config := Some (config s) |}.

(** [importState(state)] *)
Definition importState (state : ExportedState) (s : SparseEmbedding)
  : SparseEmbedding :=
  {| config := match x_config state with
               | Some cfg => cfg
               | None => config s
               end;
     vocabulary := JsMap.of_entries (x_vocabulary state);
     documentFrequency := JsMap.of_entries (x_documentFrequency state);
     totalDocuments := x_totalDocuments state;
     avgDocumentLength := x_avgDocumentLength state;
     idfCache := JsMap.of_entries (x_idfCache state);
     isInitialized := true |}.

(** [clear()] *)
Definition clear (s : SparseEmbedding) : SparseEmbedding :=
  {| config := config s; vocabulary := JsMap.empty;
     documentFrequency := JsMap.empty; totalDocuments := 0;
     avgDocumentLength := 0; idfCache := JsMap.empty;
     isInitialized := false |}.

(** The argument of [updateConfig]: every option may be left out. *)
Record PartialConfig : Type := mkPartial {
  p_k1          : option R;
  p_b           : option R;
  p_minDf       : option R;
  p_maxDfRatio  : option R;
  p_sublinearTf : option bool;
  p_tokenMode   : option TokenMode
}.

Definition orElse {A : Type} (o : option A) (d : A) : A :=
  match o with
  | Some a => a
  | None => d
  end.

(** [updateConfig(config)] *)
Definition updateConfig (p : PartialConfig) (s : SparseEmbedding)
  : SparseEmbedding :=
  let c := config s in
  {| config := {| k1 := orElse (p_k1 p) (k1 c); b := orElse (p_b p) (b c);
                  minDf := orElse (p_minDf p) (minDf c);
                  maxDfRatio := orElse (p_maxDfRatio p) (maxDfRatio c);
                  sublinearTf := orElse (p_sublinearTf p) (sublinearTf c);
                  tokenMode := orElse (p_tokenMode p) (tokenMode c) |};
     vocabulary := vocabulary s; documentFrequency := documentFrequency s;
     totalDocuments := totalDocuments s;
     avgDocumentLength := avgDocumentLength s; idfCache := idfCache s;
     isInitialized := isInitialized s |}.

(* ================================================================== *)
(** * The vector store adapter, [QdrantVectorDatabase] *)
(* ================================================================== *)

(** ** 32-bit integers and hexadecimal rendering *)

Local Open Scope Z_scope.

(** [ToInt32]: wrap into the range of a signed 32-bit integer. *)
Definition toInt32 (z : Z) : Z := (z + 2 ^ 31) mod 2 ^ 32 - 2 ^ 31.

(** [x << n] on a 32-bit integer. *)
Definition shl32 (x n : Z) : Z := toInt32 (Z.shiftl (toInt32 x) n).

(** [x >> n] on a 32-bit integer. *)
Definition sar32 (x n : Z) : Z := Z.shiftr (toInt32 x) n.

(** [str.charCodeAt(i)] for each [i] in turn. *)
Fixpoint charCodes (s : string) : list Z :=
  match s with
  | EmptyString => []
  | String c s' => Z.of_nat (nat_of_ascii c) :: charCodes s'
  end.

Definition hexDigit (d : Z) : ascii :=
  if d <? 10
  then ascii_of_nat (48 + Z.to_nat d)
  else ascii_of_nat (87 + Z.to_nat d).

Fixpoint hexDigits (fuel : nat) (z : Z) (acc : string) : string :=
  match fuel with
  | O => String (hexDigit (z mod 16)) acc
  | S fuel' =>
      if z <? 16
      then String (hexDigit z) acc
      else hexDigits fuel' (z / 16) (String (hexDigit (z mod 16)) acc)
  end.

(** [z.toString(16)] for an integer [z]. *)
Definition toString16 (z : Z) : string :=
  if z <? 0
  then String "-"%char (hexDigits (Z.to_nat (Z.log2 (- z))) (- z) EmptyString)
  else hexDigits (Z.to_nat (Z.log2 z)) z EmptyString.

(** The first loop of [stringToUuid]:
    [hash = (hash << 5) - hash + char; hash = hash & hash]. *)
Definition hashStep (hash char : Z) : Z :=
  toInt32 (shl32 hash 5 - hash + char).

(** The second loop: [fullHash = ((fullHash << 5) - fullHash + c) | 0]. *)
Definition fullHashStep (fullHash char : Z) : Z :=
  toInt32 (shl32 fullHash 5 - fullHash + char).

(** [stringToUuid(str)]; [now] is the value that [Date.now()] returns
    during the call. *)
Definition stringToUuid (now : Z) (str : string) : string :=
  let hash := fold_left hashStep (charCodes str) 0 in
  let positiveHash := Z.abs hash in
  let hex := padStart0 8 (toString16 positiveHash) in
  let hex2 := padStart0 4 (toString16 (Z.of_nat (String.length str))) in
  let hex3 := slice_last 4 (toString16 now) in
  let fullHash := fold_left fullHashStep (charCodes str) 0 in
  let hex4 := slice0 4 (padStart0 4 (toString16 (Z.abs fullHash))) in
  let hex5 := slice0 12 (padStart0 12 (toString16 (Z.abs (sar32 fullHash 16)))) in
  (slice0 8 hex ++ "-" ++ hex2 ++ "-4" ++ slice_from 1 hex3 ++ "-" ++ hex4
   ++ "-" ++ hex5)%string.

Local Close Scope Z_scope.

(** ** The filter expression parser *)

Record Condition : Type := mkCondition {
  key   : string;
  value : string
}.

(** The filter objects the parser builds: [{should: ...}], [{must: ...}]
    and [{must_not: ...}]. *)
Inductive QdrantFilter : Type :=
| Should  (conds : list Condition)
| Must    (conds : list Condition)
| MustNot (conds : list Condition).

Fixpoint trimStart (s : string) : string :=
  match s with
  | String c s' => if Chr.space c then trimStart s' else s
  | EmptyString => EmptyString
  end.

Fixpoint trimEnd (s : string) : string :=
  match s with
  | String c s' =>
      match trimEnd s' with
      | EmptyString => if Chr.space c then EmptyString else String c EmptyString
      | r => String c r
      end
  | EmptyString => EmptyString
  end.

(** [s.trim()] *)
Definition trim (s : string) : string := trimEnd (trimStart s).

(** [s.split(sep)] for a separator of one character. *)
Fixpoint splitChar (sep : ascii) (s : string) (cur : string) : list string :=
  match s with
  | EmptyString => [cur]
  | String c s' =>
      if Ascii.eqb c sep
      then cur :: splitChar sep s' EmptyString
      else splitChar sep s' (cur ++ String c EmptyString)%string
  end.

(** [s.replace(/[quotes]/g, empty)] *)
Fixpoint removeQuotes (s : string) : string :=
  match s with
  | EmptyString => EmptyString
  | String c s' =>
      if Chr.quote c then removeQuotes s' else String c (removeQuotes s')
  end.

(** A concatenation of regular expressions. *)
Fixpoint cats (r : regex) (rs : list regex) : regex :=
  match rs with
  | [] => r
  | r' :: rs' => Cat r (cats r' rs')
  end.

(** A letter under the [i] flag. *)
Definition letter_ci (c : ascii) : ascii -> bool :=
  fun x => Ascii.eqb (Chr.to_lower x) (Chr.to_lower c).

Definition chr (c : ascii) : regex := Cls (Ascii.eqb c).

(** [/(\w+)\s+in\s+\[([^\]]+)\]/i] *)
Definition re_in : regex :=
  cats (Group (Many1 Chr.word))
       [ Many1 Chr.space; Cls (letter_ci "i"); Cls (letter_ci "n");
         Many1 Chr.space; chr "[";
         Group (Many1 (fun c => negb (Ascii.eqb c "]")));
         chr "]" ].

(** The tail the patterns for [==] and [!=] share: optional quote, a run
    of characters other than quotes, optional quote. *)
Definition re_value : list regex :=
  [ Many Chr.space; Maybe Chr.quote;
    Group (Many1 (fun c => negb (Chr.quote c))); Maybe Chr.quote ].

(** The pattern for [field == value]. *)
Definition re_eq : regex :=
  cats (Group (Many1 Chr.word))
       ([ Many Chr.space; chr "="; chr "=" ] ++ re_value).

(** The pattern for [field != value]. *)
Definition re_neq : regex :=
  cats (Group (Many1 Chr.word))
       ([ Many Chr.space; chr "!"; chr "=" ] ++ re_value).

(** ** Documents, points and backend calls *)

Record VectorDocument : Type := mkDocument {
  id            : string;
  vector        : list R;
  sparseVector  : option SparseVector;
  content       : string;
  relativePath  : string;
  startLine     : nat;
  endLine       : nat;
  fileExtension : string;
  metadata      : list (string * string)
}.

(** A payload as the backend stores and returns it; a field may be
    missing from what a search returns. *)
Record Payload : Type := mkPayload {
  pl_id            : option string;
  pl_content       : option string;
  pl_relativePath  : option string;
  pl_startLine     : option nat;
  pl_endLine       : option nat;
  pl_fileExtension : option string;
  pl_metadata      : option (list (string * string))
}.

(** The [vector] of an upserted point: a bare vector ([insert]) or named
    vectors ([insertHybrid]); the key [sparse] may be absent. *)
Inductive PointVector : Type :=
| Bare  (v : list R)
| Named (dense : list R) (sparse : option SparseVector).

Record Point : Type := mkPoint {
  pt_id      : string;
  pt_vector  : PointVector;
  pt_payload : Payload
}.

(** The [vector] argument of [client.search]. *)
Inductive QueryVector : Type :=
| NamedSparseQuery (v : SparseVector)
| NamedDenseQuery  (v : list R)
| UnnamedQuery     (v : list R).

Record SearchQuery : Type := mkQuery {
  q_vector : QueryVector;
  q_limit  : nat;
  q_filter : option QdrantFilter
}.

(** One scored point of a search result; [h_id] is [String(result.id)]. *)
Record Hit : Type := mkHit {
  h_id      : string;
  h_score   : R;
  h_payload : Payload
}.

(** What the adapter does to the outside: console output and calls of the
    backend client, in the order they happen. *)
Inductive Event : Type :=
| WarnFilterIgnored (expr : string)
| WarnTextSkipped
| LogSkipEmptySparse
| LogSparseSearch (terms : nat)
| ErrorHybridSearch
| ErrorInsertHybrid
| LogInsertedHybrid (total withSparse : nat)
| CallGetCollection (collectionName : string)
| CallSearch (collectionName : string) (q : SearchQuery)
| CallUpsert (collectionName : string) (batch : list Point)
| CallDelete (collectionName : string) (pointIds : list string).

(** The backend client.  [None] and [false] stand for a call that throws;
    [client_getCollection] answers whether the vectors configuration of the
    collection is an object with the key [dense]. *)
Record Backend : Type := mkBackend {
  client_getCollection : string -> option bool;
  client_search        : string -> SearchQuery -> option (list Hit);
  client_upsert        : string -> list Point -> bool
}.

(** [parseFilterExpression(expr)]: the filter, if any, and the warnings. *)
Definition parseFilterExpression (expr : string)
  : option QdrantFilter * list Event :=
  if String.eqb expr EmptyString || String.eqb (trim expr) EmptyString
  then (None, [])
  else
    match search re_in expr with
    | Some (caps, _) =>
        let field := cap 1 caps in
        let valuesStr := cap 2 caps in
        let vals := map (fun v => removeQuotes (trim v))
                        (splitChar "," valuesStr EmptyString) in
        (Some (Should (map (fun v => {| key := field; value := v |}) vals)), [])
    | None =>
        match search re_eq expr with
        | Some (caps, _) =>
            (Some (Must [ {| key := cap 1 caps; value := cap 2 caps |} ]), [])
        | None =>
            match search re_neq expr with
            | Some (caps, _) =>
                (Some (MustNot [ {| key := cap 1 caps; value := cap 2 caps |} ]),
                 [])
            | None => (None, [WarnFilterIgnored expr])
            end
        end
    end.

(** ** Rank fusion, [applyReranking] *)

Record HybridSearchResult : Type := mkResult {
  document : VectorDocument;
  score    : R
}.

(** The entries of [allResults]: a document and the scores pushed for it. *)
Record Accumulated : Type := mkAccumulated {
  a_document : VectorDocument;
  a_scores   : list R
}.

Record RerankParams : Type := mkParams {
  rp_k       : option R;
  rp_weights : option (list R)
}.

Record RerankStrategy : Type := mkRerank {
  strategy : string;
  params   : option RerankParams
}.

(** [rerank?.strategy || "rrf"] *)
Definition strategyOf (rerank : option RerankStrategy) : string :=
  match rerank with
  | Some r => if String.eqb (strategy r) EmptyString then "rrf" else strategy r
  | None => "rrf"
  end.

(** [rerank?.params?.k || 60] *)
Definition rrfK (rerank : option RerankStrategy) : R :=
  match rerank with
  | Some {| params := Some {| rp_k := Some k |} |} => or_default k 60
  | _ => 60
  end.

(** [rerank?.params?.weights || [0.5, 0.5]] *)
Definition weightsOf (rerank : option RerankStrategy) : list R :=
  match rerank with
  | Some {| params := Some {| rp_weights := Some ws |} |} => ws
  | _ => [5 / 10; 5 / 10]
  end.

(** [scores.reduce((sum, _, idx) => sum + 1 / (k + idx + 1), 0)] *)
Definition rrfScore (k : R) (scores : list R) : R :=
  fold_left (fun sum idx => sum + 1 / (k + INR idx + 1))
            (seq 0 (List.length scores)) 0.

(** [weights[i] || 1 / scores.length] *)
Definition weightAt (weights : list R) (i len : nat) : R :=
  match nth_error weights i with
  | Some w => or_default w (1 / INR len)
  | None => 1 / INR len
  end.

(** The loop that accumulates [weightedScore]. *)
Definition weightedScore (weights scores : list R) : R :=
  fold_left
    (fun acc e => acc + snd e * weightAt weights (fst e) (List.length scores))
    (combine (seq 0 (List.length scores)) scores) 0.

(** [scores.reduce((a, b) => a + b, 0) / scores.length] *)
Definition avgScore (scores : list R) : R :=
  fold_left Rplus scores 0 / INR (List.length scores).

(** [Array.prototype.sort] with the comparator [b.score - a.score]: a stable
    sort by descending score, here by insertion. *)
Fixpoint insertDesc (x : HybridSearchResult) (l : list HybridSearchResult)
  : list HybridSearchResult :=
  match l with
  | [] => [x]
  | y :: l' => if Rleb (score x) (score y) then y :: insertDesc x l' else x :: l
  end.

Definition sortDesc (l : list HybridSearchResult) : list HybridSearchResult :=
  fold_left (fun acc x => insertDesc x acc) l [].

(** [applyReranking(results, rerank)] *)
Definition applyReranking (results : JsMap.t Accumulated)
           (rerank : option RerankStrategy) : list HybridSearchResult :=
  let fuse (f : list R -> R) :=
    sortDesc (map (fun e => {| document := a_document (snd e);
                               score := f (a_scores (snd e)) |}) results) in
  if String.eqb (strategyOf rerank) "rrf" then fuse (rrfScore (rrfK rerank))
  else if String.eqb (strategyOf rerank) "weighted"
       then fuse (weightedScore (weightsOf rerank))
       else fuse avgScore.

(** ** [insertHybrid] and [delete] *)

(** The payload every insert writes. *)
Definition payloadOf (doc : VectorDocument) : Payload :=
  {| pl_id := Some (id doc); pl_content := Some (content doc);
     pl_relativePath := Some (relativePath doc);
     pl_startLine := Some (startLine doc); pl_endLine := Some (endLine doc);
     pl_fileExtension := Some (fileExtension doc);
     pl_metadata := Some (metadata doc) |}.

(** [doc.sparseVector && doc.sparseVector.indices.length > 0] *)
Definition hasSparse (doc : VectorDocument) : bool :=
  match sparseVector doc with
  | Some sv => Nat.ltb 0 (List.length (indices sv))
  | None => false
  end.

(** The callback of [documents.map] in [insertHybrid]; [now] is the value
    of [Date.now()] when the point id is computed. *)
Definition hybridPoint (now : Z) (doc : VectorDocument) : Point :=
  let sparse :=
    match sparseVector doc with
    | Some sv =>
        if Nat.ltb 0 (List.length (indices sv))
        then Some {| indices := indices sv; values := values sv |}
        else None
    | None => None
    end in
  {| pt_id := stringToUuid now (id doc);
     pt_vector := Named (vector doc) sparse;
     pt_payload := payloadOf doc |}.

(** [Date.now()] as the i-th call within an operation reads it. *)
Definition Clock : Type := nat -> Z.

Definition hybridPoints (clock : Clock) (documents : list VectorDocument)
  : list Point :=
  map (fun e => hybridPoint (clock (fst e)) (snd e))
      (combine (seq 0 (List.length documents)) documents).

(** The batches [points.slice(i, i + batchSize)] for [i = 0, batchSize, ...]. *)
Fixpoint batches (fuel batchSize : nat) (points : list Point)
  : list (list Point) :=
  match fuel, points with
  | S fuel', _ :: _ =>
      firstn batchSize points :: batches fuel' batchSize (skipn batchSize points)
  | _, _ => []
  end.

(** The upserts of the batch loop, until one throws. *)
Fixpoint upsertAll (be : Backend) (collectionName : string)
         (bs : list (list Point)) : bool * list Event :=
  match bs with
  | [] => (true, [])
  | batch :: bs' =>
      if client_upsert be collectionName batch
      then let '(ok, evs) := upsertAll be collectionName bs' in
           (ok, CallUpsert collectionName batch :: evs)
      else (false, [CallUpsert collectionName batch])
  end.

(** [insertHybrid(collectionName, documents)]: whether it returned
    normally, and what it did. *)
Definition insertHybrid (be : Backend) (clock : Clock)
           (collectionName : string) (documents : list VectorDocument)
  : bool * list Event :=
  let points := hybridPoints clock documents in
  let '(ok, evs) :=
    upsertAll be collectionName (batches (List.length points) 100 points) in
  if ok
  then (true, evs ++ [LogInsertedHybrid (List.length documents)
                        (List.length (filter hasSparse documents))])
  else (false, evs ++ [ErrorInsertHybrid]).

(** The point ids [delete(collectionName, ids)] asks the backend to remove. *)
Definition deletePointIds (clock : Clock) (ids : list string) : list string :=
  map (fun e => stringToUuid (clock (fst e)) (snd e))
      (combine (seq 0 (List.length ids)) ids).

(** ** [hybridSearch] *)

Inductive RequestData : Type :=
| TextData   (text : string)
| DenseData  (v : list R)
| SparseData (v : SparseVector).

Record HybridSearchRequest : Type := mkRequest {
  data       : RequestData;
  anns_field : option string;
  limit      : option nat
}.

Record HybridSearchOptions : Type := mkOptions {
  o_limit      : option nat;
  o_filterExpr : option string;
  o_rerank     : option RerankStrategy
}.

(** [n || d] on an optional count. *)
Definition countOr (n : option nat) (d : nat) : nat :=
  match n with
  | Some (S m) => S m
  | _ => d
  end.

(** [s || d] on an optional string. *)
Definition stringOr (s : option string) (d : string) : string :=
  match s with
  | Some EmptyString | None => d
  | Some s' => s'
  end.

Fixpoint startsWith (s sub : string) : bool :=
  match sub, s with
  | EmptyString, _ => true
  | String c sub', String d s' => Ascii.eqb c d && startsWith s' sub'
  | String _ _, EmptyString => false
  end.

(** [s.includes(sub)] *)
Fixpoint includes (s sub : string) : bool :=
  startsWith s sub ||
  match s with
  | String _ s' => includes s' sub
  | EmptyString => false
  end.

(** The state of the adapter: the cache [hybridCollections]. *)
Definition Cache : Type := list string.

(** [isHybridCollection(collectionName)] *)
Definition isHybridCollection (be : Backend) (cache : Cache)
           (collectionName : string) : bool * Cache * list Event :=
  if existsb (String.eqb collectionName) cache then (true, cache, [])
  else
    match client_getCollection be collectionName with
    | Some true =>
        (true, JsSet.add String.eqb collectionName cache,
         [CallGetCollection collectionName])
    | _ => (false, cache, [CallGetCollection collectionName])
    end.

(** [isSparseVector(request.data)] *)
Definition isSparseVector (d : RequestData) : bool :=
  match d with
  | SparseData _ => true
  | _ => false
  end.

(** [isSparseField] *)
Definition isSparseField (r : HybridSearchRequest) : bool :=
  match anns_field r with
  | Some f =>
      String.eqb f "sparse_vector" || String.eqb f "sparse"
      || includes f "sparse"
  | None => false
  end.

(** The document recorded for a hit that is seen for the first time. *)
Definition documentOfHit (d : RequestData) (docId : string) (h : Hit)
  : VectorDocument :=
  let p := h_payload h in
  {| id := docId;
     vector := match d with DenseData v => v | _ => [] end;
     sparseVector := None;
     content := stringOr (pl_content p) EmptyString;
     relativePath := stringOr (pl_relativePath p) EmptyString;
     startLine := countOr (pl_startLine p) 0;
     endLine := countOr (pl_endLine p) 0;
     fileExtension := stringOr (pl_fileExtension p) EmptyString;
     metadata := orElse (pl_metadata p) [] |}.

(** The body of the loop over [searchResult]. *)
Definition recordHit (d : RequestData) (allResults : JsMap.t Accumulated)
           (h : Hit) : JsMap.t Accumulated :=
  let docId := stringOr (pl_id (h_payload h)) (h_id h) in
  let entry := match JsMap.get allResults docId with
               | Some e => e
               | None => {| a_document := documentOfHit d docId h;
                            a_scores := [] |}
               end in
  JsMap.set allResults docId
            {| a_document := a_document entry;
               a_scores := a_scores entry ++ [h_score h] |}.

(** What one turn of the loop over [searchRequests] leaves behind. *)
Record LoopState : Type := mkLoop {
  l_cache   : Cache;
  l_results : JsMap.t Accumulated;
  l_events  : list Event
}.

(** The filter of a request and the warnings of parsing it. *)
Definition filterOf (options : option HybridSearchOptions)
  : option QdrantFilter * list Event :=
  match options with
  | Some {| o_filterExpr := Some (String c e) |} =>
      parseFilterExpression (String c e)
  | _ => (None, [])
  end.

(** [options?.limit || 10] *)
Definition limitOf (options : option HybridSearchOptions) : nat :=
  match options with
  | Some o => countOr (o_limit o) 10
  | None => 10
  end.

(** The search a request asks for, if it is not skipped:
    the query and the console output before it. *)
Definition queryOf (isHybrid : bool) (flt : option QdrantFilter)
           (defaultLimit : nat) (r : HybridSearchRequest)
  : option SearchQuery * list Event :=
  let lim := countOr (limit r) defaultLimit in
  if isSparseVector (data r) || isSparseField r
  then
    match data r with
    | SparseData sv =>
        match indices sv with
        | [] => (None, [LogSkipEmptySparse])
        | _ :: _ =>
            (Some {| q_vector := NamedSparseQuery sv; q_limit := lim;
                     q_filter := flt |},
             [LogSparseSearch (List.length (indices sv))])
        end
    | _ => (None, [LogSkipEmptySparse])
    end
  else
    match data r with
    | DenseData v =>
        (Some {| q_vector := if isHybrid then NamedDenseQuery v
                             else UnnamedQuery v;
                 q_limit := lim; q_filter := flt |}, [])
    | _ => (None, [])
    end.

(** One turn of the loop over [searchRequests]; the flag is [false] when
    the backend search throws. *)
Definition searchStep (be : Backend) (collectionName : string)
           (options : option HybridSearchOptions)
           (st : LoopState) (r : HybridSearchRequest) : LoopState * bool :=
  match data r with
  | TextData _ =>
      ({| l_cache := l_cache st; l_results := l_results st;
          l_events := l_events st ++ [WarnTextSkipped] |}, true)
  | _ =>
      let '(isHybrid, cache', evs1) :=
        isHybridCollection be (l_cache st) collectionName in
      let '(flt, evs2) := filterOf options in
      let '(query, evs3) := queryOf isHybrid flt (limitOf options) r in
      let evs := l_events st ++ evs1 ++ evs2 ++ evs3 in
      match query with
      | None =>
          ({| l_cache := cache'; l_results := l_results st;
              l_events := evs |}, true)
      | Some q =>
          match client_search be collectionName q with
          | Some searchResult =>
              ({| l_cache := cache';
                  l_results := fold_left (recordHit (data r)) searchResult
                                         (l_results st);
                  l_events := evs ++ [CallSearch collectionName q] |}, true)
          | None =>
              ({| l_cache := cache'; l_results := l_results st;
                  l_events := evs ++ [CallSearch collectionName q] |}, false)
          end
      end
  end.

(** The loop over [searchRequests], left at the first throw. *)
Fixpoint searchLoop (be : Backend) (collectionName : string)
         (options : option HybridSearchOptions)
         (st : LoopState) (rs : list HybridSearchRequest)
  : LoopState * bool :=
  match rs with
  | [] => (st, true)
  | r :: rs' =>
      match searchStep be collectionName options st r with
      | (st', true) => searchLoop be collectionName options st' rs'
      | (st', false) => (st', false)
      end
  end.

(** [hybridSearch(collectionName, searchRequests, options)]: the fused
    results ([None] when the call throws), the cache and the events. *)
Definition hybridSearch (be : Backend) (cache : Cache)
           (collectionName : string)
           (searchRequests : list HybridSearchRequest)
           (options : option HybridSearchOptions)
  : option (list HybridSearchResult) * Cache * list Event :=
  let '(st, ok) :=
    searchLoop be collectionName options
               {| l_cache := cache; l_results := JsMap.empty; l_events := [] |}
               searchRequests in
  if ok
  then (Some (firstn (limitOf options)
                     (applyReranking (l_results st)
                                     (match options with
                                      | Some o => o_rerank o
                                      | None => None
                                      end))),
        l_cache st, l_events st)
  else (None, l_cache st, l_events st ++ [ErrorHybridSearch]).

(** A document with another sparse vector, everything else unchanged. *)
Definition withSparse (sv : option SparseVector) (doc : VectorDocument)
  : VectorDocument :=
  {| id := id doc; vector := vector doc; sparseVector := sv;
     content := content doc; relativePath := relativePath doc;
     startLine := startLine doc; endLine := endLine doc;
     fileExtension := fileExtension doc; metadata := metadata doc |}.

(** A document with another id, everything else unchanged. *)
Definition withId (i : string) (doc : VectorDocument) : VectorDocument :=
  {| id := i; vector := vector doc; sparseVector := sparseVector doc;
     content := content doc; relativePath := relativePath doc;
     startLine := startLine doc; endLine := endLine doc;
     fileExtension := fileExtension doc; metadata := metadata doc |}.

(* ================================================================== *)
(** * Sample values *)
(* ================================================================== *)

(** A document whose sparse vector has no entries. *)
Definition example_dense_only : VectorDocument :=
  mkDocument "d1" [1] (Some (mkSparse [] [])) "x" "a.ts" 1 2 ".ts" [].


(** A backend that knows no collection, finds nothing and accepts every
    upsert. *)
Definition accepting_backend : Backend :=
  mkBackend (fun _ => None) (fun _ _ => Some []) (fun _ _ => true).

(** A hit that carries its id in the payload. *)
Definition hitOf (i : string) (sc : R) : Hit :=
  mkHit i sc (mkPayload (Some i) None None None None None None).

(** A hybrid collection whose dense channel returns document A alone and
    whose sparse channel returns X, Y and A, in this order. *)
Definition two_channel_backend : Backend :=
  mkBackend
    (fun _ => Some true)
    (fun _ q =>
       match q_vector q with
       | NamedDenseQuery _ => Some [hitOf "A" (9 / 10)]
       | NamedSparseQuery _ => Some [hitOf "X" 3; hitOf "Y" 2; hitOf "A" 1]
       | UnnamedQuery _ => Some []
       end)
    (fun _ _ => true).

(** A dense request followed by a sparse one. *)
Definition two_channel_requests : list HybridSearchRequest :=
  [ mkRequest (DenseData [1]) (Some "dense") None;
    mkRequest (SparseData (mkSparse [0%Z] [1])) (Some "sparse") None ].

(** ** Predicates used to state properties of [hybridSearch] *)

(** A request whose data is a sparse vector without indices. *)
Definition isEmptySparse (r : HybridSearchRequest) : bool :=
  match data r with
  | SparseData sv => match indices sv with [] => true | _ :: _ => false end
  | _ => false
  end.

(** An event that is a backend search. *)
Definition isSearchCall (e : Event) : bool :=
  match e with
  | CallSearch _ _ => true
  | _ => false
  end.

(** The backend searches among the events, in order. *)
Definition searchCalls (evs : list Event) : list Event :=
  filter isSearchCall evs.

(** The answer of [isHybridCollection]. *)
Definition hybridAnswer (be : Backend) (cache : Cache)
           (collectionName : string) : bool :=
  fst (fst (isHybridCollection be cache collectionName)).

(** ** Encoders that the operations can produce *)

(** The encoders reachable from a fresh one through the public
    operations, where [importState] is given containers that satisfy
    [accepted]. *)
Inductive reachable (accepted : ExportedState -> Prop)
  : SparseEmbedding -> Prop :=
| reach_new cfg :
    reachable accepted (newSparseEmbedding cfg)
| reach_build documents s :
    reachable accepted s -> reachable accepted (buildVocabulary documents s)
| reach_embed text s :
    reachable accepted s -> reachable accepted (snd (embed text s))
| reach_import state s :
    accepted state -> reachable accepted s ->
    reachable accepted (importState state s)
| reach_clear s :
    reachable accepted s -> reachable accepted (clear s)
| reach_update p s :
    reachable accepted s -> reachable accepted (updateConfig p s).

(** Any container at all. *)
Definition anyContainer (_ : ExportedState) : Prop := True.

(** The indices of a vocabulary are [0, 1, ..., size - 1] in insertion order. *)
Definition denseIndices (m : JsMap.t Z) : Prop :=
  map snd m = map Z.of_nat (seq 0 (JsMap.size m)).

(** A container whose vocabulary has dense, contiguous indices. *)
Definition denseContainer (state : ExportedState) : Prop :=
  denseIndices (JsMap.of_entries (x_vocabulary state)).

(** The three tables of an encoder have unique keys, as every [Map] has. *)
Definition uniqueKeys (s : SparseEmbedding) : Prop :=
  NoDup (JsMap.keys (vocabulary s))
  /\ NoDup (JsMap.keys (documentFrequency s))
  /\ NoDup (JsMap.keys (idfCache s)).

(** The corpus of scenario S2, built with the default parameters. *)
Definition example_encoder : SparseEmbedding :=
  buildVocabulary ["red blue red"; "blue green"]
                  (newSparseEmbedding defaultConfig).

(** The default parameters with sublinear term frequency switched on. *)
Definition sublinearConfig : SparseEmbeddingConfig :=
  {| k1 := 12 / 10; b := 75 / 100; minDf := 1; maxDfRatio := 85 / 100;
     sublinearTf := true; tokenMode := code |}.

(** An empty container that carries no parameters. *)
Definition example_container_without_config : ExportedState :=
  mkExported [] [] [] 0 0 None.

(** ** The BM25 formula, as the specification words it and as the code
    computes it *)

(** The score of the specification: the average document length enters
    as [max(avg, 1)]. *)
Definition bm25_spec_formula (idf adjusted_tf k1 b doc_len avg : R) : R :=
  idf * adjusted_tf * (k1 + 1)
  / (adjusted_tf + k1 * (1 - b + b * doc_len / Rmax avg 1)).

(** The score of the code in the same shape: the average document length
    enters as it is, unless it is zero. *)
Definition bm25_formula (idf adjusted_tf k1 b doc_len avg : R) : R :=
  idf * adjusted_tf * (k1 + 1)
  / (adjusted_tf
     + k1 * (1 - b + b * doc_len / (if Req_dec_T avg 0 then 1 else avg))).

(** The cached IDF of a term ([this.idfCache.get(term) || 0]). *)
Definition idfOfTerm (s : SparseEmbedding) (term : string) : R :=
  match JsMap.get (idfCache s) term with
  | Some v => v
  | None => 0
  end.

(** Parameters with [k1 = 1] and [b = 1]. *)
Definition unitConfig : SparseEmbeddingConfig :=
  {| k1 := 1; b := 1; minDf := 1; maxDfRatio := 1;
     sublinearTf := false; tokenMode := code |}.

(** An encoder with one term and an average document length of one half. *)
Definition half_length_encoder : SparseEmbedding :=
  importState (mkExported [("ab", 0%Z)] [("ab", 1)] [("ab", 1)] 1 (1 / 2)
                          (Some unitConfig))
              (newSparseEmbedding defaultConfig).



(** The vocabulary of an encoder has unique terms and dense indices. *)
Definition denseVocabulary (s : SparseEmbedding) : Prop :=
  NoDup (JsMap.keys (vocabulary s)) /\ denseIndices (vocabulary s).

(** ** What a regular expression matches *)

(** [lang r u]: the whole of [u] matches [r]. *)
Fixpoint lang (r : regex) (u : string) : Prop :=
  match r with
  | Cls p => exists c, u = String c EmptyString /\ p c = true
  | Many p => all_chars p u = true
  | Many1 p => u <> EmptyString /\ all_chars p u = true
  | Maybe p =>
      u = EmptyString \/ exists c, u = String c EmptyString /\ p c = true
  | Cat r1 r2 =>
      exists u1 u2, u = (u1 ++ u2)%string /\ lang r1 u1 /\ lang r2 u2
  | Group r1 => lang r1 u
  end.

(** [captures r caps]: [caps] are captures a match of [r] can close, each
    one a string that its group matches. *)
Fixpoint captures (r : regex) (caps : list string) : Prop :=
  match r with
  | Cls _ | Many _ | Many1 _ | Maybe _ => caps = []
  | Cat r1 r2 =>
      exists c1 c2, caps = c1 ++ c2 /\ captures r1 c1 /\ captures r2 c2
  | Group r1 =>
      exists c u, caps = c ++ [u] /\ captures r1 c /\ lang r1 u
  end.

(** [s] is [pre ++ u ++ post] for some [pre] and [post]. *)
Definition substringOf (u s : string) : Prop :=
  exists pre post, s = (pre ++ u ++ post)%string.

(** The continuation of a greedy class stops here: the input is at its
    end or the next character is outside the class. *)
Definition stops (p : ascii -> bool) (rest : string) : Prop :=
  match rest with
  | EmptyString => True
  | String c _ => p c = false
  end.

(** [first r u rest caps]: on the input [u ++ rest] the first alternative
    the backtracking matcher tries for [r] consumes [u] and closes the
    captures [caps]. *)
Inductive first : regex -> string -> string -> list string -> Prop :=
| first_cls p c rest :
    p c = true -> first (Cls p) (String c EmptyString) rest []
| first_many p u rest :
    all_chars p u = true -> stops p rest -> first (Many p) u rest []
| first_many1 p u rest :
    u <> EmptyString -> all_chars p u = true -> stops p rest ->
    first (Many1 p) u rest []
| first_maybe_some p c rest :
    p c = true -> first (Maybe p) (String c EmptyString) rest []
| first_maybe_none p rest :
    stops p rest -> first (Maybe p) EmptyString rest []
| first_cat r1 r2 u1 u2 rest c1 c2 :
    first r1 u1 (u2 ++ rest)%string c1 -> first r2 u2 rest c2 ->
    first (Cat r1 r2) (u1 ++ u2)%string rest (c1 ++ c2)
| first_group r u rest c :
    first r u rest c -> first (Group r) u rest (c ++ [u]).

(** ** Predicates used to state properties of the filter parser *)

(** The conditions of a filter. *)
Definition conditions (f : QdrantFilter) : list Condition :=
  match f with
  | Should cs | Must cs | MustNot cs => cs
  end.

(** A string without quote characters. *)
Definition noQuotes (s : string) : Prop :=
  all_chars (fun c => negb (Chr.quote c)) s = true.

(** A non-empty string of word characters. *)
Definition isField (f : string) : Prop :=
  f <> EmptyString /\ all_chars Chr.word f = true.

(** Word characters, hyphen, full stop and slash. *)
Definition plainChar (c : ascii) : bool :=
  Chr.word c || Chr.one_of [45; 46; 47]%nat c.

(** A non-empty string of plain characters. *)
Definition isPlain (v : string) : Prop :=
  v <> EmptyString /\ all_chars plainChar v = true.

(** The double quote and the single quote as strings. *)
Definition dq : string := String Chr.dquote EmptyString.
Definition sq : string := String Chr.squote EmptyString.

(** No quote, a double quote or a single quote. *)
Definition quoteMark (q : string) : Prop :=
  q = EmptyString \/ q = dq \/ q = sq.

(** The number of occurrences of a character in a string. *)
Fixpoint countChar (c : ascii) (s : string) : nat :=
  match s with
  | EmptyString => 0%nat
  | String d s' => ((if Ascii.eqb d c then 1 else 0) + countChar c s')%nat
  end.

(** The text between the brackets of an [in] expression: the values, each
    between quote marks [q], separated by a comma and a space. *)
Fixpoint joinValues (q : string) (vs : list string) : string :=
  match vs with
  | [] => EmptyString
  | [v] => (q ++ v ++ q)%string
  | v :: vs' => (q ++ v ++ q ++ ", " ++ joinValues q vs')%string
  end.

(** Two loop states that the rest of the loop over the requests cannot
    tell apart: same accumulated results, same backend searches so far,
    same answer about the collection mode. *)
Definition alike (be : Backend) (collectionName : string)
           (st1 st2 : LoopState) : Prop :=
  l_results st1 = l_results st2
  /\ searchCalls (l_events st1) = searchCalls (l_events st2)
  /\ hybridAnswer be (l_cache st1) collectionName
     = hybridAnswer be (l_cache st2) collectionName.

(** A regular expression that matches no empty string. *)
Definition neverEmpty (r : regex) : Prop :=
  forall u, lang r u -> u <> EmptyString.

(** Three documents with one token in all, built with [k1 = b = 1]: the
    average document length is one third. *)
Definition short_corpus_encoder : SparseEmbedding :=
  buildVocabulary ["ab"; ""; ""] (newSparseEmbedding unitConfig).

(* ================================================================== *)
(** * Further operations of the sources *)
(* ================================================================== *)

(** ** Rank fusion *)

(** The fused score [applyReranking] gives to the scores of one document
    under each strategy. *)
Definition fusedScore (rerank : option RerankStrategy) (scores : list R) : R :=
  if String.eqb (strategyOf rerank) "rrf" then rrfScore (rrfK rerank) scores
  else if String.eqb (strategyOf rerank) "weighted"
       then weightedScore (weightsOf rerank) scores
       else avgScore scores.

(** The results before they are sorted, in the order of the map. *)
Definition fusedResults (results : JsMap.t Accumulated)
           (rerank : option RerankStrategy) : list HybridSearchResult :=
  map (fun e => {| document := a_document (snd e);
                   score := fusedScore rerank (a_scores (snd e)) |}) results.

(** A list of results in descending order of score. *)
Definition descending (l : list HybridSearchResult) : Prop :=
  StronglySorted (fun x y => score y <= score x) l.

(** Two accumulated documents: the first was returned by two channels,
    the second by one. *)
Definition example_accumulated : JsMap.t Accumulated :=
  [ ("A", {| a_document := withId "A" example_dense_only; a_scores := [1; 2] |});
    ("B", {| a_document := withId "B" example_dense_only; a_scores := [3] |}) ].

(** ** Predicates used to state further properties of [hybridSearch] *)

(** Every entry of the accumulated results is stored under the id of its
    document, and no id is stored twice. *)
Definition keyedById (results : JsMap.t Accumulated) : Prop :=
  NoDup (JsMap.keys results)
  /\ Forall (fun e => id (a_document (snd e)) = fst e) results.

(** An event of a call that went well so far: a search the backend
    answered, or anything but a search or the error message. *)
Definition answered (be : Backend) (e : Event) : Prop :=
  match e with
  | CallSearch collectionName q => client_search be collectionName q <> None
  | ErrorHybridSearch => False
  | _ => True
  end.

(** A request whose data is text. *)
Definition isTextRequest (r : HybridSearchRequest) : bool :=
  match data r with
  | TextData _ => true
  | _ => false
  end.

(** An event other than the warning about a text request. *)
Definition notTextWarning (e : Event) : bool :=
  match e with
  | WarnTextSkipped => false
  | _ => true
  end.

(** What every search of one call of [hybridSearch] has in common: the
    collection, the filter parsed from the options, a positive limit, and
    a vector addressed by name unless it is dense and the collection is
    not hybrid. *)
Definition wellFormedSearch (be : Backend) (cache : Cache)
           (collectionName : string) (options : option HybridSearchOptions)
           (e : Event) : Prop :=
  match e with
  | CallSearch c q =>
      c = collectionName
      /\ q_filter q = fst (filterOf options)
      /\ (1 <= q_limit q)%nat
      /\ match q_vector q with
         | NamedSparseQuery sv => indices sv <> []
         | NamedDenseQuery _ => hybridAnswer be cache collectionName = true
         | UnnamedQuery _ => hybridAnswer be cache collectionName = false
         end
  | _ => True
  end.

(** Two loop states that differ at most in warnings about text requests. *)
Definition sameButTextWarnings (st1 st2 : LoopState) : Prop :=
  l_cache st1 = l_cache st2 /\ l_results st1 = l_results st2
  /\ filter notTextWarning (l_events st1) = filter notTextWarning (l_events st2).

(** ** [insert] *)

(** The callback of [documents.map] in [insert]. *)
Definition plainPoint (now : Z) (doc : VectorDocument) : Point :=
  {| pt_id := stringToUuid now (id doc);
     pt_vector := Bare (vector doc);
     pt_payload := payloadOf doc |}.

Definition plainPoints (clock : Clock) (documents : list VectorDocument)
  : list Point :=
  map (fun e => plainPoint (clock (fst e)) (snd e))
      (combine (seq 0 (List.length documents)) documents).

(** [insert(collectionName, documents)]: whether it returned normally and
    the upserts it made.  The one console message at its end, the count
    of inserted documents or the error, goes with the flag and is left
    out. *)
Definition insert (be : Backend) (clock : Clock) (collectionName : string)
           (documents : list VectorDocument) : bool * list Event :=
  let points := plainPoints clock documents in
  upsertAll be collectionName (batches (List.length points) 100 points).

(** The upserts among the events, as the batches they carry. *)
Fixpoint upsertedBatches (evs : list Event) : list (list Point) :=
  match evs with
  | [] => []
  | CallUpsert _ batch :: evs' => batch :: upsertedBatches evs'
  | _ :: evs' => upsertedBatches evs'
  end.

(** ** Point ids *)

(** A lowercase hexadecimal digit. *)
Definition isHexChar (c : ascii) : bool :=
  Chr.digit c || Chr.between 97 102 c.

(** A string of [n] lowercase hexadecimal digits. *)
Definition hexGroup (n : nat) (g : string) : Prop :=
  String.length g = n /\ all_chars isHexChar g = true.

(** ** Predicates used to state further properties of the filter parser *)

(** How a value may begin: with a quote character of either kind, or
    without one, and then not with a space. *)
Definition opensValue (q v : string) : Prop :=
  (q = EmptyString
   /\ match v with
      | String c _ => Chr.space c = false
      | EmptyString => False
      end)
  \/ exists c, q = String c EmptyString /\ Chr.quote c = true.

(** What may follow a value: nothing, or a quote character of either kind
    and then anything. *)
Definition closesValue (tail : string) : Prop :=
  tail = EmptyString
  \/ exists c t, tail = String c t /\ Chr.quote c = true.

(* ================================================================== *)
(** * The encoder: document frequencies, stated on the corpus *)
(* ================================================================== *)

(** A document mentions a term when the term is one of its tokens. *)
Definition mentions (mode : TokenMode) (term doc : string) : bool :=
  existsb (String.eqb term) (tokenize mode doc).

(** The number of documents of a corpus that mention a term. *)
Definition docFrequency (mode : TokenMode) (documents : list string)
           (term : string) : nat :=
  List.length (filter (mentions mode term) documents).

(** The number of tokens of a corpus. *)
Definition totalTokens (mode : TokenMode) (documents : list string) : nat :=
  list_sum (map (fun doc => List.length (tokenize mode doc)) documents).

(** The test of [buildVocabulary] on a term mentioned by [df] of [n]
    documents. *)
Definition keepsTerm (cfg : SparseEmbeddingConfig) (n df : nat) : bool :=
  Nat.ltb 0 df
  && Rleb (minDf cfg) (INR df)
  && Rleb (INR df) (floor (maxDfRatio cfg * INR n)).

(** What the first loop of [buildVocabulary] has recorded after the
    documents [pre]: for every term the set of the documents mentioning
    it, whose size is the document frequency. *)
Definition counted (mode : TokenMode) (pre : list string)
           (termDocs : JsMap.t (list nat)) : Prop :=
  forall term,
    match JsMap.get termDocs term with
    | Some ds =>
        List.length ds = docFrequency mode pre term
        /\ (0 < List.length ds)%nat
        /\ Forall (fun j => (j < List.length pre)%nat) ds
    | None => docFrequency mode pre term = 0%nat
    end.

(** The distinct tokens of a text that are in the vocabulary, in the
    order of their first occurrence. *)
Definition knownTerms (s : SparseEmbedding) (tokens : list string)
  : list string :=
  JsSet.of_list String.eqb (filter (JsMap.has (vocabulary s)) tokens).

Definition emptyVector : SparseVector := {| indices := []; values := [] |}.

(** [embedBatch(texts)]: [texts.map((text) => this.embed(text))], the
    encoder threaded through the calls. *)
Fixpoint embedBatch (texts : list string) (s : SparseEmbedding)
  : list SparseVector * SparseEmbedding :=
  match texts with
  | [] => ([], s)
  | text :: rest =>
      let '(v, s1) := embed text s in
      let '(vs, s2) := embedBatch rest s1 in
      (v :: vs, s2)
  end.

(* ================================================================== *)
(** * The tokenizer: what a token can look like *)
(* ================================================================== *)

(** The characters a token of the simple mode consists of: neither white
    space nor punctuation. *)
Definition simpleTokenChar (c : ascii) : bool :=
  negb (Chr.space c || Chr.punct c).

(** The characters a token of the code mode consists of: neither white
    space, nor one of the delimiters, nor an underscore. *)
Definition codeTokenChar (c : ascii) : bool :=
  negb (code_delim c) && negb (Chr.is_code 95 c).

(** The characters of a segment after the replacements: those of the
    segment, and the blanks put in. *)
Definition segmentChar (c : ascii) : bool :=
  negb (code_delim c) || Chr.space c.

Definition letter (c : ascii) : bool := Chr.lower c || Chr.upper c.

(* ================================================================== *)
(** * The adapter: collections *)
(* ================================================================== *)

(** The vectors configuration a collection is created with: one unnamed
    vector, or the named vector [dense] beside the sparse vector
    [sparse]. *)
Inductive VectorsLayout : Type :=
| SingleVector   (dimension : nat)
| DenseAndSparse (dimension : nat).

(** The collection calls of the backend client; [None] and [false] stand
    for a call that throws. *)
Record CollectionsClient : Type := mkCollections {
  client_getCollections   : option (list string);
  client_createCollection : string -> VectorsLayout -> bool;
  client_deleteCollection : string -> bool
}.

Inductive CollectionEvent : Type :=
| CallGetCollections
| CallCreateCollection (collectionName : string) (layout : VectorsLayout)
| CallDeleteCollection (collectionName : string)
| LogExists (collectionName : string)
| LogHybridExists (collectionName : string)
| LogCreated (collectionName : string) (dimension : nat)
| LogCreatedHybrid (collectionName : string) (dimension : nat)
| LogDropped (collectionName : string)
| ErrorCheck (collectionName : string)
| ErrorList
| ErrorCreate (collectionName : string)
| ErrorCreateHybrid (collectionName : string)
| ErrorDrop (collectionName : string).

(** [hasCollection(collectionName)]: a failure of the listing is logged
    and answered with [false]. *)
Definition hasCollection (cl : CollectionsClient) (collectionName : string)
  : bool * list CollectionEvent :=
  match client_getCollections cl with
  | Some names =>
      (existsb (fun c => String.eqb c collectionName) names,
       [CallGetCollections])
  | None => (false, [CallGetCollections; ErrorCheck collectionName])
  end.

(** [listCollections()]: [None] when the listing throws. *)
Definition listCollections (cl : CollectionsClient)
  : option (list string) * list CollectionEvent :=
  match client_getCollections cl with
  | Some names => (Some names, [CallGetCollections])
  | None => (None, [CallGetCollections; ErrorList])
  end.

(** [createCollection(collectionName, dimension)]: whether the call
    returns ([true]) or throws, and what it did. *)
Definition createCollection (cl : CollectionsClient) (collectionName : string)
           (dimension : nat) : bool * list CollectionEvent :=
  let '(exists_, evs) := hasCollection cl collectionName in
  if exists_ then (true, evs ++ [LogExists collectionName])
  else
    let layout := SingleVector dimension in
    if client_createCollection cl collectionName layout
    then (true, evs ++ [CallCreateCollection collectionName layout;
                        LogCreated collectionName dimension])
    else (false, evs ++ [CallCreateCollection collectionName layout;
                         ErrorCreate collectionName]).

(** [createHybridCollection(collectionName, dimension)], with the cache
    [hybridCollections] before and after. *)
Definition createHybridCollection (cl : CollectionsClient) (cache : Cache)
           (collectionName : string) (dimension : nat)
  : bool * Cache * list CollectionEvent :=
  let '(exists_, evs) := hasCollection cl collectionName in
  if exists_ then (true, cache, evs ++ [LogHybridExists collectionName])
  else
    let layout := DenseAndSparse dimension in
    if client_createCollection cl collectionName layout
    then (true, JsSet.add String.eqb collectionName cache,
          evs ++ [CallCreateCollection collectionName layout;
                  LogCreatedHybrid collectionName dimension])
    else (false, cache,
          evs ++ [CallCreateCollection collectionName layout;
                  ErrorCreateHybrid collectionName]).

(** [dropCollection(collectionName)] *)
Definition dropCollection (cl : CollectionsClient) (collectionName : string)
  : bool * list CollectionEvent :=
  if client_deleteCollection cl collectionName
  then (true, [CallDeleteCollection collectionName; LogDropped collectionName])
  else (false, [CallDeleteCollection collectionName; ErrorDrop collectionName]).

(** A call of the adapter that can read or write the cache
    [hybridCollections], or that creates or drops a collection. *)
Inductive Call : Type :=
| CreateCollection (collectionName : string) (dimension : nat)
| CreateHybridCollection (collectionName : string) (dimension : nat)
| DropCollection (collectionName : string)
| HasCollection (collectionName : string)
| ListCollections
| IsHybridCollection (collectionName : string).

(** One call, with the backend as it answers at that moment. *)
Record Step : Type := mkStep {
  st_collections : CollectionsClient;
  st_backend     : Backend;
  st_call        : Call
}.

(** What the calls do to the outside, in the order it happens. *)
Definition Trace : Type := list (CollectionEvent + Event).

(** One call: the cache and the trace afterwards. *)
Definition perform (cache : Cache) (st : Step) : Cache * Trace :=
  let cl := st_collections st in
  match st_call st with
  | CreateCollection collectionName dimension =>
      (cache, map inl (snd (createCollection cl collectionName dimension)))
  | CreateHybridCollection collectionName dimension =>
      let '(_, cache', evs) :=
        createHybridCollection cl cache collectionName dimension in
      (cache', map inl evs)
  | DropCollection collectionName =>
      (cache, map inl (snd (dropCollection cl collectionName)))
  | HasCollection collectionName =>
      (cache, map inl (snd (hasCollection cl collectionName)))
  | ListCollections => (cache, map inl (snd (listCollections cl)))
  | IsHybridCollection collectionName =>
      let '(_, cache', evs) :=
        isHybridCollection (st_backend st) cache collectionName in
      (cache', map inr evs)
  end.

Fixpoint performAll (steps : list Step) (cache : Cache) : Cache * Trace :=
  match steps with
  | [] => (cache, [])
  | st :: rest =>
      let '(cache1, trace1) := perform cache st in
      let '(cache2, trace2) := performAll rest cache1 in
      (cache2, trace1 ++ trace2)
  end.

(** A call that records a collection as hybrid: a creation of a hybrid
    collection that reaches the backend and succeeds, or a look at a
    collection that the backend reports with the named vector [dense]. *)
Definition marks (collectionName : string) (st : Step) : bool :=
  match st_call st with
  | CreateHybridCollection name dimension =>
      String.eqb name collectionName
      && negb (fst (hasCollection (st_collections st) name))
      && client_createCollection (st_collections st) name
                                 (DenseAndSparse dimension)
  | IsHybridCollection name =>
      String.eqb name collectionName
      && match client_getCollection (st_backend st) name with
         | Some true => true
         | _ => false
         end
  | _ => false
  end.

(** A backend that knows no collection, and collection calls that all
    succeed on an empty listing. *)
Definition forgetful_backend : Backend :=
  {| client_getCollection := fun _ => Some false;
     client_search := fun _ _ => Some [];
     client_upsert := fun _ _ => true |}.

Definition willing_collections : CollectionsClient :=
  {| client_getCollections := Some [];
     client_createCollection := fun _ _ => true;
     client_deleteCollection := fun _ => true |}.

(* ================================================================== *)
(** * The reranker, [FireworksReranker] *)
(* ================================================================== *)

Record RerankDocument : Type := mkRerankDocument {
  rd_id       : string;
  rd_content  : string;
  rd_metadata : option (list (string * string))
}.

(** A reranked result; [rr_document] is [documents[result.index]], which
    is undefined for an index outside the array. *)
Record RerankResult : Type := mkRerankResult {
  rr_document       : option RerankDocument;
  rr_relevanceScore : R;
  rr_index          : nat
}.

Record RerankOptions : Type := mkRerankOptions {
  ro_topN            : option nat;
  ro_returnDocuments : option bool;
  ro_threshold       : option R
}.

Record FireworksReranker : Type := mkReranker {
  fr_apiKey  : string;
  fr_model   : string;
  fr_baseURL : string
}.

Definition DEFAULT_MODEL : string := "fireworks/qwen3-reranker-8b".
Definition DEFAULT_BASE_URL : string := "https://api.fireworks.ai/inference/v1".

(** [new FireworksReranker(config)] *)
Definition newFireworksReranker (apiKey : string) (model baseURL : option string)
  : FireworksReranker :=
  {| fr_apiKey := apiKey;
     fr_model := stringOr model DEFAULT_MODEL;
     fr_baseURL := stringOr baseURL DEFAULT_BASE_URL |}.

(** The request sent with [fetch]: the address, the authorization header
    and the fields of the body. *)
Record RerankRequest : Type := mkRerankRequest {
  rq_url              : string;
  rq_authorization    : string;
  rq_model            : string;
  rq_query            : string;
  rq_documents        : list string;
  rq_top_n            : nat;
  rq_return_documents : bool
}.

(** What comes back: an exception with its message (from [fetch] or from
    reading the response), a response that is not ok with its status and
    text, or the pairs of index and relevance score. *)
Inductive RerankResponse : Type :=
| Thrown (message : string)
| NotOk  (status : nat) (errorText : string)
| Answer (data : list (nat * R)).

(** A status in a template string. *)
Definition showNat (n : nat) : string :=
  NilEmpty.string_of_uint (Nat.to_uint n).

Definition thresholdOf (options : option RerankOptions) : option R :=
  match options with
  | Some o => ro_threshold o
  | None => None
  end.

(** [rerank(query, documents, options)]: the results, or the message of
    the error thrown, and the requests sent; console output is left
    out. *)
Definition rerank (fetch : RerankRequest -> RerankResponse)
           (r : FireworksReranker) (query : string)
           (documents : list RerankDocument) (options : option RerankOptions)
  : (string + list RerankResult) * list RerankRequest :=
  match documents with
  | [] => (inr [], [])
  | _ :: _ =>
      let topN := countOr match options with
                          | Some o => ro_topN o
                          | None => None
                          end (List.length documents) in
      let threshold := thresholdOf options in
      let request :=
        {| rq_url := (fr_baseURL r ++ "/rerank")%string;
           rq_authorization := ("Bearer " ++ fr_apiKey r)%string;
           rq_model := fr_model r;
           rq_query := query;
           rq_documents := map rd_content documents;
           rq_top_n := topN;
           rq_return_documents := false |} in
      let failed (errorMessage : string) : string + list RerankResult :=
        inl ("Failed to rerank documents: " ++ errorMessage)%string in
      match fetch request with
      | Thrown message => (failed message, [request])
      | NotOk status errorText =>
          (failed ("Rerank API error: " ++ showNat status ++ " - "
                   ++ errorText)%string,
           [request])
      | Answer data =>
          let results :=
            map (fun result =>
                   {| rr_document := nth_error documents (fst result);
                      rr_relevanceScore := snd result;
                      rr_index := fst result |}) data in
          let filteredResults :=
            match threshold with
            | Some t =>
                if Req_dec_T t 0 then results
                else filter (fun res => Rleb t (rr_relevanceScore res)) results
            | None => results
            end in
          (inr filteredResults, [request])
      end
  end.

(** A service that answers two scores, one of them negative, and two
    documents to rerank. *)
Definition example_service (_ : RerankRequest) : RerankResponse :=
  Answer [(1%nat, - (1 / 2)); (0%nat, 3 / 4)].

Definition example_rerank_documents : list RerankDocument :=
  [ mkRerankDocument "a" "alpha" None; mkRerankDocument "b" "beta" None ].
(* ================================================================== *)
(** * Real comparisons on concrete values *)
(* ================================================================== *)

Lemma Rleb_true (x y : R) : x <= y -> Rleb x y = true.
Proof. intros H. unfold Rleb. destruct (Rle_dec x y); [reflexivity | contradiction]. Qed.

Lemma Rleb_false (x y : R) : y < x -> Rleb x y = false.
Proof. intros H. unfold Rleb. destruct (Rle_dec x y); [lra | reflexivity]. Qed.

Lemma Rltb_true (x y : R) : x < y -> Rltb x y = true.
Proof. intros H. unfold Rltb. destruct (Rlt_dec x y); [reflexivity | contradiction]. Qed.

Lemma Rltb_false (x y : R) : y <= x -> Rltb x y = false.
Proof. intros H. unfold Rltb. destruct (Rlt_dec x y); [lra | reflexivity]. Qed.

Lemma or_default_nonzero (x d : R) : x <> 0 -> or_default x d = x.
Proof. intros H. unfold or_default. destruct (Req_dec_T x 0); [contradiction | reflexivity]. Qed.

Lemma or_default_zero (d : R) : or_default 0 d = d.
Proof. unfold or_default. destruct (Req_dec_T 0 0); [reflexivity | contradiction]. Qed.

(** Evaluate everything but the arithmetic of the reals. *)
Ltac eval_structure :=
  cbv -[Rplus Rminus Rmult Rdiv Rinv Ropp IZR INR Rleb Rltb or_default ln
        floor Rle_dec Rlt_dec Req_dec_T].

(** Settle one comparison between concrete reals. *)
Ltac settle_comparison :=
  match goal with
  | |- context [Rleb ?x ?y] =>
      first [ rewrite (Rleb_true x y) by (simpl; lra)
            | rewrite (Rleb_false x y) by (simpl; lra) ]
  | |- context [Rltb ?x ?y] =>
      first [ rewrite (Rltb_true x y) by (simpl; lra)
            | rewrite (Rltb_false x y) by (simpl; lra) ]
  | |- context [or_default ?x ?d] =>
      first [ rewrite (or_default_nonzero x d) by (simpl; lra)
            | rewrite (or_default_zero d) ]
  end.

Ltac eval_reals := eval_structure; repeat (settle_comparison; eval_structure).


(* ================================================================== *)
(** * Maps in insertion order *)
(* ================================================================== *)

Module JsMapFacts.
Section Facts.
Context {V : Type}.
Implicit Types (m : JsMap.t V) (k : string) (v : V).

Lemma get_set_same m k v : JsMap.get (JsMap.set m k v) k = Some v.
Proof.
  induction m as [|[k' v'] m IH]; simpl.
  - now rewrite String.eqb_refl.
  - destruct (String.eqb k' k) eqn:E; simpl; rewrite E; auto.
Qed.

Lemma get_set_other m k k' v :
  k <> k' -> JsMap.get (JsMap.set m k v) k' = JsMap.get m k'.
Proof.
  intros Hne. induction m as [|[k0 v0] m IH]; simpl.
  - apply String.eqb_neq in Hne. now rewrite Hne.
  - destruct (String.eqb k0 k) eqn:E; simpl.
    + apply String.eqb_eq in E. subst k0.
      apply String.eqb_neq in Hne. now rewrite Hne.
    + now rewrite IH.
Qed.

Lemma get_In m k v : JsMap.get m k = Some v -> In (k, v) m.
Proof.
  induction m as [|[k' v'] m IH]; simpl; [discriminate|].
  destruct (String.eqb k' k) eqn:E.
  - apply String.eqb_eq in E. intros [= ->]. left. now subst.
  - intros H. right. auto.
Qed.

Lemma get_None_keys m k : JsMap.get m k = None <-> ~ In k (JsMap.keys m).
Proof.
  induction m as [|[k' v'] m IH]; simpl.
  - tauto.
  - destruct (String.eqb k' k) eqn:E.
    + apply String.eqb_eq in E. split; [discriminate | tauto].
    + apply String.eqb_neq in E. rewrite IH. tauto.
Qed.

Lemma has_keys m k : JsMap.has m k = true <-> In k (JsMap.keys m).
Proof.
  unfold JsMap.has. pose proof (get_None_keys m k) as H.
  destruct (JsMap.get m k).
  - split; [intros _|reflexivity].
    destruct (in_dec string_dec k (JsMap.keys m)) as [Hin|Hn]; [exact Hin|].
    apply H in Hn. discriminate.
  - split; [discriminate|]. intros Hin. destruct H as [H _].
    now specialize (H eq_refl).
Qed.

(** Setting a new key appends an entry. *)
Lemma set_fresh m k v :
  ~ In k (JsMap.keys m) -> JsMap.set m k v = m ++ [(k, v)].
Proof.
  induction m as [|[k' v'] m IH]; simpl; intros Hn; [reflexivity|].
  destruct (String.eqb k' k) eqn:E.
  - apply String.eqb_eq in E. tauto.
  - rewrite IH; tauto.
Qed.

(** Setting a present key keeps the keys and their order. *)
Lemma keys_set_present m k v :
  In k (JsMap.keys m) -> JsMap.keys (JsMap.set m k v) = JsMap.keys m.
Proof.
  induction m as [|[k' v'] m IH]; simpl; intros Hin; [contradiction|].
  destruct (String.eqb k' k) eqn:E; simpl; [reflexivity|].
  apply String.eqb_neq in E. f_equal. apply IH. tauto.
Qed.

Lemma keys_set m k v :
  JsMap.keys (JsMap.set m k v)
  = if JsMap.has m k then JsMap.keys m else JsMap.keys m ++ [k].
Proof.
  destruct (JsMap.has m k) eqn:H.
  - apply keys_set_present. now apply has_keys.
  - assert (Hn : ~ In k (JsMap.keys m)).
    { intros Hin. apply has_keys in Hin. congruence. }
    rewrite (set_fresh _ _ _ Hn). unfold JsMap.keys.
    now rewrite map_app.
Qed.

Lemma NoDup_keys_set m k v :
  NoDup (JsMap.keys m) -> NoDup (JsMap.keys (JsMap.set m k v)).
Proof.
  intros Hnd. rewrite keys_set. destruct (JsMap.has m k) eqn:H; [exact Hnd|].
  assert (Hn : ~ In k (JsMap.keys m)).
  { intros Hin. apply has_keys in Hin. congruence. }
  apply NoDup_app; repeat split; auto.
  - constructor; [intros []|constructor].
  - intros x Hx [<-|[]]. contradiction.
Qed.

Lemma NoDup_keys_fold_set (l : list (string * V)) :
  forall m, NoDup (JsMap.keys m) ->
            NoDup (JsMap.keys
                     (fold_left (fun m kv => JsMap.set m (fst kv) (snd kv))
                                l m)).
Proof.
  induction l as [|[k v] l IH]; intros m Hm; simpl; [exact Hm|].
  apply IH. now apply NoDup_keys_set.
Qed.

Lemma NoDup_keys_of_entries (l : list (string * V)) :
  NoDup (JsMap.keys (JsMap.of_entries l)).
Proof. apply NoDup_keys_fold_set. constructor. Qed.

Lemma fold_set_fresh (l : list (string * V)) :
  forall m, NoDup (JsMap.keys (m ++ l)) ->
            fold_left (fun m kv => JsMap.set m (fst kv) (snd kv)) l m
            = m ++ l.
Proof.
  induction l as [|[k v] l IH]; intros m Hnd; simpl.
  - now rewrite app_nil_r.
  - assert (Hn : ~ In k (JsMap.keys m)).
    { unfold JsMap.keys in *. rewrite map_app in Hnd. simpl in Hnd.
      apply NoDup_remove_2 in Hnd. intros Hin. apply Hnd.
      apply in_or_app. now left. }
    rewrite (set_fresh _ _ _ Hn).
    rewrite IH; rewrite <- app_assoc; [reflexivity | exact Hnd].
Qed.

(** [new Map(Array.from(m.entries()))] is [m]. *)
Lemma of_entries_entries m :
  NoDup (JsMap.keys m) -> JsMap.of_entries (JsMap.entries m) = m.
Proof.
  intros Hnd. unfold JsMap.of_entries, JsMap.entries.
  now rewrite fold_set_fresh.
Qed.
End Facts.
End JsMapFacts.

Import JsMapFacts.

(* ================================================================== *)
(** * Strings *)
(* ================================================================== *)

Lemma append_nil_r (s : string) : (s ++ "")%string = s.
Proof. induction s as [|c s IH]; simpl; [reflexivity | now rewrite IH]. Qed.

Lemma append_assoc (s1 s2 s3 : string) :
  ((s1 ++ s2) ++ s3)%string = (s1 ++ s2 ++ s3)%string.
Proof. induction s1 as [|c s1 IH]; simpl; [reflexivity | now rewrite IH]. Qed.

Lemma length_append (s1 s2 : string) :
  String.length (s1 ++ s2) = (String.length s1 + String.length s2)%nat.
Proof. induction s1 as [|c s1 IH]; simpl; [reflexivity | now rewrite IH]. Qed.

Lemma take_append (u rest : string) :
  take (String.length (u ++ rest) - String.length rest) (u ++ rest)%string = u.
Proof.
  rewrite length_append.
  replace (String.length u + String.length rest - String.length rest)%nat
    with (String.length u) by lia.
  induction u as [|c u IH]; simpl.
  - destruct rest; reflexivity.
  - now rewrite IH.
Qed.

Lemma all_chars_append (p : ascii -> bool) (s1 s2 : string) :
  all_chars p (s1 ++ s2) = all_chars p s1 && all_chars p s2.
Proof.
  induction s1 as [|c s1 IH]; simpl; [reflexivity|].
  now rewrite IH, andb_assoc.
Qed.

Lemma all_chars_weaken (p q : ascii -> bool) (s : string) :
  (forall c, p c = true -> q c = true) ->
  all_chars p s = true -> all_chars q s = true.
Proof.
  intros Hpq. induction s as [|c s IH]; simpl; [reflexivity|].
  intros H. apply andb_true_iff in H. destruct H as [H1 H2].
  now rewrite (Hpq _ H1), IH.
Qed.

(* ================================================================== *)
(** * The matcher *)
(* ================================================================== *)

Module RxFacts.

(** A successful greedy iteration consumed a run of the class. *)
Lemma many_sound {A : Type} (p : ascii -> bool) (s : string)
      (k : string -> option A) (a : A) :
  many p s k = Some a ->
  exists u rest,
    s = (u ++ rest)%string /\ all_chars p u = true /\ k rest = Some a.
Proof.
  induction s as [|c s IH]; simpl.
  - intros H. exists EmptyString, EmptyString. now repeat split.
  - destruct (p c) eqn:Hp.
    + destruct (many p s k) as [a'|] eqn:Hm.
      * intros [= ->]. destruct (IH eq_refl) as (u & rest & -> & Hu & Hk).
        exists (String c u), rest. simpl. rewrite Hp, Hu. now repeat split.
      * intros H. exists EmptyString, (String c s). now repeat split.
    + intros H. exists EmptyString, (String c s). now repeat split.
Qed.

(** A successful run consumed a string of the language of the
    expression and closed captures of its groups. *)
Lemma run_sound {A : Type} (r : regex) :
  forall (s : string) (caps : list string)
         (k : string -> list string -> option A) (a : A),
    run r s caps k = Some a ->
    exists u rest c,
      s = (u ++ rest)%string /\ lang r u /\ captures r c
      /\ k rest (caps ++ c) = Some a.
Proof.
  induction r as [p|p|p|p|r1 IH1 r2 IH2|r IH]; intros s caps k a; simpl.
  - destruct s as [|c s]; [discriminate|].
    destruct (p c) eqn:Hp; [|discriminate]. intros H.
    exists (String c EmptyString), s, []. rewrite app_nil_r.
    repeat split; auto. now exists c.
  - intros H. apply many_sound in H. destruct H as (u & rest & -> & Hu & Hk).
    exists u, rest, []. rewrite app_nil_r. now repeat split.
  - destruct s as [|c s]; [discriminate|].
    destruct (p c) eqn:Hp; [|discriminate]. intros H.
    apply many_sound in H. destruct H as (u & rest & -> & Hu & Hk).
    exists (String c u), rest, []. rewrite app_nil_r. simpl.
    rewrite Hp, Hu. repeat split; auto. discriminate.
  - destruct s as [|c s].
    + intros H. exists EmptyString, EmptyString, []. rewrite app_nil_r.
      repeat split; auto.
    + destruct (p c) eqn:Hp.
      * destruct (k s caps) as [a'|] eqn:Hk.
        -- intros [= ->]. exists (String c EmptyString), s, [].
           rewrite app_nil_r. repeat split; auto. right. now exists c.
        -- intros H. exists EmptyString, (String c s), [].
           rewrite app_nil_r. repeat split; auto.
      * intros H. exists EmptyString, (String c s), [].
        rewrite app_nil_r. repeat split; auto.
  - intros H. apply IH1 in H. destruct H as (u1 & rest1 & c1 & -> & L1 & C1 & H).
    apply IH2 in H. destruct H as (u2 & rest & c2 & -> & L2 & C2 & H).
    exists (u1 ++ u2)%string, rest, (c1 ++ c2).
    rewrite append_assoc, app_assoc. repeat split; auto.
    + now exists u1, u2.
    + now exists c1, c2.
  - intros H. apply IH in H. destruct H as (u & rest & c & -> & L & C & H).
    rewrite take_append in H.
    exists u, rest, (c ++ [u]). rewrite app_assoc. repeat split; auto.
    now exists c, u.
Qed.

Lemma match_at_sound (r : regex) (s : string) (caps : list string)
      (rest : string) :
  match_at r s = Some (caps, rest) ->
  exists u, s = (u ++ rest)%string /\ lang r u /\ captures r caps.
Proof.
  unfold match_at. intros H. apply run_sound in H.
  destruct H as (u & rest' & c & -> & L & C & [= <- <-]).
  now exists u.
Qed.

(** What [search] finds is a match somewhere in the string. *)
Lemma search_sound (r : regex) (s : string) (caps : list string)
      (rest : string) :
  search r s = Some (caps, rest) ->
  exists u, substringOf u s /\ lang r u /\ captures r caps.
Proof.
  induction s as [|c s IH]; simpl.
  - destruct (match_at r EmptyString) as [m|] eqn:E; [|discriminate].
    intros [= ->]. apply match_at_sound in E.
    destruct E as (u & E & L & C). exists u. repeat split; auto.
    exists EmptyString, rest. exact E.
  - destruct (match_at r (String c s)) as [m|] eqn:E.
    + intros [= ->]. apply match_at_sound in E.
      destruct E as (u & E & L & C). exists u. repeat split; auto.
      exists EmptyString, rest. exact E.
    + intros H. destruct (IH H) as (u & (pre & post & ->) & L & C).
      exists u. repeat split; auto. now exists (String c pre), post.
Qed.

(** The longest run is tried first. *)
Lemma many_first {A : Type} (p : ascii -> bool) (u rest : string)
      (k : string -> option A) (a : A) :
  all_chars p u = true -> stops p rest -> k rest = Some a ->
  many p (u ++ rest) k = Some a.
Proof.
  intros Hu Hs Hk. induction u as [|c u IH]; simpl in *.
  - destruct rest as [|c rest]; simpl; [exact Hk|].
    simpl in Hs. now rewrite Hs.
  - apply andb_true_iff in Hu. destruct Hu as [Hc Hu].
    now rewrite Hc, (IH Hu).
Qed.

(** If the continuation accepts the first alternative, the run returns
    what the continuation returns. *)
Lemma run_first {A : Type} (r : regex) (u rest : string) (c : list string) :
  first r u rest c ->
  forall (caps : list string) (k : string -> list string -> option A) (a : A),
    k rest (caps ++ c) = Some a ->
    run r (u ++ rest) caps k = Some a.
Proof.
  induction 1 as [p ch rest Hp|p u rest Hu Hs|p u rest Hne Hu Hs
                  |p ch rest Hp|p rest Hs
                  |r1 r2 u1 u2 rest c1 c2 _ IH1 _ IH2|r u rest c _ IH];
    intros caps k a Hk; simpl; rewrite ?app_nil_r in Hk.
  - now rewrite Hp.
  - now apply many_first.
  - destruct u as [|ch u]; [congruence|]. simpl in *.
    apply andb_true_iff in Hu. destruct Hu as [Hc Hu]. rewrite Hc.
    now apply many_first.
  - now rewrite Hp, Hk.
  - destruct rest as [|ch rest]; [exact Hk|]. simpl in Hs. now rewrite Hs.
  - rewrite append_assoc. apply IH1. apply IH2. now rewrite <- app_assoc.
  - apply IH. rewrite take_append. now rewrite <- app_assoc.
Qed.

Lemma match_at_first (r : regex) (u rest : string) (c : list string) :
  first r u rest c -> match_at r (u ++ rest) = Some (c, rest).
Proof.
  intros H. unfold match_at. now apply (run_first r u rest c H).
Qed.

(** A match at the start of the string is the one [search] returns. *)
Lemma search_at_start (r : regex) (s : string) (m : list string * string) :
  match_at r s = Some m -> search r s = Some m.
Proof. intros H. destruct s; simpl; now rewrite H. Qed.

End RxFacts.

Import RxFacts.

Ltac break_up :=
  repeat match goal with
         | H : exists _, _ |- _ => destruct H
         | H : _ /\ _ |- _ => destruct H
         end.

(* ================================================================== *)
(** * Enough fuel *)
(* ================================================================== *)

(** The recursions on fuel are given more than they use: a larger supply
    changes no result. *)

Lemma match_at_shorter (r : regex) (s : string) (caps : list string)
      (rest : string) :
  neverEmpty r -> match_at r s = Some (caps, rest) ->
  (String.length rest < String.length s)%nat.
Proof.
  intros Hr H. apply match_at_sound in H. destruct H as (u & -> & L & _).
  apply Hr in L. rewrite length_append. destruct u; [congruence | simpl; lia].
Qed.

Lemma replace_fuel_enough (r : regex) (tpl : list string -> string) :
  neverEmpty r ->
  forall fuel s extra,
    (String.length s < fuel)%nat ->
    replace_fuel (fuel + extra) r tpl s = replace_fuel fuel r tpl s.
Proof.
  intros Hr. induction fuel as [|fuel IH]; intros s extra Hlen; [lia|].
  cbn [Nat.add replace_fuel].
  destruct (match_at r s) as [[caps rest]|] eqn:E.
  - pose proof (match_at_shorter _ _ _ _ Hr E). rewrite IH; [reflexivity | lia].
  - destruct s as [|c s]; [reflexivity|]. simpl in Hlen.
    rewrite IH; [reflexivity | lia].
Qed.

Lemma split_fuel_enough (r : regex) :
  neverEmpty r ->
  forall fuel s cur extra,
    (String.length s < fuel)%nat ->
    split_fuel (fuel + extra) r s cur = split_fuel fuel r s cur.
Proof.
  intros Hr. induction fuel as [|fuel IH]; intros s cur extra Hlen; [lia|].
  cbn [Nat.add split_fuel].
  destruct s as [|c s]; [reflexivity|].
  destruct (match_at r (String c s)) as [[caps rest]|] eqn:E.
  - pose proof (match_at_shorter _ _ _ _ Hr E). rewrite IH; [reflexivity | lia].
  - simpl in Hlen. rewrite IH; [reflexivity | lia].
Qed.

Lemma app_nonempty (c : ascii) (u v : string) :
  (String c u ++ v)%string <> EmptyString.
Proof. discriminate. Qed.

(** None of the patterns of the tokenizer matches the empty string. *)
Lemma tokenizer_patterns_neverEmpty :
  neverEmpty re_simple_delims /\ neverEmpty re_code_delims
  /\ neverEmpty re_camel /\ neverEmpty re_underscore
  /\ neverEmpty re_acronym /\ neverEmpty re_spaces.
Proof.
  unfold neverEmpty, re_simple_delims, re_code_delims, re_camel,
    re_underscore, re_acronym, re_spaces.
  repeat split; intros u H; cbn [lang] in H; break_up; subst;
    try assumption; try discriminate.
  destruct x; [congruence | discriminate].
Qed.

Lemma hexDigits_enough :
  forall fuel z acc,
    (0 <= z)%Z -> (Z.log2 z <= Z.of_nat fuel)%Z ->
    hexDigits (S fuel) z acc = hexDigits fuel z acc.
Proof.
  induction fuel as [|fuel IH]; intros z acc Hz Hlog.
  - cbn [hexDigits]. destruct (z <? 16)%Z eqn:E.
    + apply Z.ltb_lt in E. now rewrite Z.mod_small by lia.
    + apply Z.ltb_ge in E.
      assert (Z.log2 16 <= Z.log2 z)%Z by (apply Z.log2_le_mono; lia).
      change (Z.log2 16) with 4%Z in *. lia.
  - cbn [hexDigits]. destruct (z <? 16)%Z eqn:E; [reflexivity|].
    apply Z.ltb_ge in E. apply IH.
    + apply Z.div_pos; lia.
    + change 16%Z with (2 ^ 4)%Z. rewrite <- Z.shiftr_div_pow2 by lia.
      rewrite Z.log2_shiftr by lia. lia.
Qed.

(* ================================================================== *)
(** * The tokenizer: scenarios *)
(* ================================================================== *)

(** C6: in code token mode the two literal inputs of scenarios S1 and S3
    tokenize to exactly the stated lists; the stop tokens "is" and "the"
    are dropped and no token of length one is emitted. *)
Theorem C6_code_tokenization_scenarios :
  tokenize code "calculateTotalPrice(items)"
    = ["calculate"; "total"; "price"; "items"]
  /\ tokenize code "XMLHttpRequest is the API"
    = ["xml"; "http"; "request"; "api"]
  /\ isStopToken "is" = true /\ isStopToken "the" = true
  /\ forall text t, In t (tokenize code text) -> (1 < String.length t)%nat.
Proof.
  repeat split; try reflexivity.
  intros text t. unfold tokenize, tokenizeCode.
  rewrite in_flat_map. intros [seg [_ Hin]].
  unfold tokenizeSegment in Hin.
  destruct (String.eqb seg EmptyString); [contradiction|].
  apply filter_In in Hin. destruct Hin as [_ Hf].
  apply andb_true_iff in Hf. destruct Hf as [Hlen _].
  now apply Nat.ltb_lt in Hlen.
Qed.

Lemma C6_code_tokenization_scenarios_witness :
  (1 < String.length "total")%nat.
Proof.
  destruct C6_code_tokenization_scenarios as (_ & _ & _ & _ & H).
  apply (H "calculateTotalPrice(items)" "total").
  vm_compute. right. now left.
Defined.

(* ================================================================== *)
(** * Point ids *)
(* ================================================================== *)

(** C2: the id computed for one and the same string differs between two
    calls one millisecond apart, so an id computed by [delete] need not be
    the id [insertHybrid] gave the point. *)
Theorem C2_stringToUuid_reads_the_clock :
  stringToUuid 1700000000000 "a" = "00000061-0001-4800-0061-000000000000"
  /\ stringToUuid 1700000000001 "a" = "00000061-0001-4801-0061-000000000000"
  /\ stringToUuid 1700000000000 "a" <> stringToUuid 1700000000001 "a"
  /\ forall doc,
      deletePointIds (fun _ => 1700000000001%Z) [id (withId "a" doc)]
      <> [pt_id (hybridPoint 1700000000000 (withId "a" doc))].
Proof.
  repeat split; try reflexivity.
  - vm_compute. discriminate.
  - intros doc. unfold hybridPoint, withId. simpl.
    vm_compute. discriminate.
Qed.

(* ================================================================== *)
(** * Hybrid insertion *)
(* ================================================================== *)

Lemma concat_batches (n : nat) :
  forall fuel points,
    (List.length points <= fuel)%nat ->
    List.concat (batches fuel (S n) points) = points.
Proof.
  induction fuel as [|fuel IH]; intros points Hlen.
  - destruct points; [reflexivity | simpl in Hlen; lia].
  - destruct points as [|p points]; [reflexivity|].
    cbn [batches List.concat].
    rewrite IH.
    + apply firstn_skipn.
    + rewrite length_skipn. simpl in *. lia.
Qed.





(* ================================================================== *)
(** * Rank fusion *)
(* ================================================================== *)

(** The fused score of the RRF strategy is a function of how many scores
    were pushed for the document, and of nothing else. *)
Lemma rrfScore_ignores_scores (k : R) (scores : list R) :
  rrfScore k scores = rrfScore k (map (fun _ => 0) scores).
Proof. unfold rrfScore. now rewrite length_map. Qed.

Lemma insertDesc_In (x y : HybridSearchResult) (l : list HybridSearchResult) :
  In y (insertDesc x l) <-> y = x \/ In y l.
Proof.
  induction l as [|z l IH]; simpl.
  - intuition congruence.
  - destruct (Rleb (score x) (score z)); simpl; rewrite ?IH; intuition congruence.
Qed.

Lemma sortDesc_In (y : HybridSearchResult) (l : list HybridSearchResult) :
  In y (sortDesc l) <-> In y l.
Proof.
  unfold sortDesc.
  assert (H : forall acc, In y (fold_left (fun acc x => insertDesc x acc) l acc)
                          <-> In y acc \/ In y l).
  { induction l as [|x l IH]; intros acc; simpl; [tauto|].
    rewrite IH, insertDesc_In. intuition congruence. }
  rewrite H. simpl. tauto.
Qed.

(** Under the RRF strategy every fused result carries the sum of
    [1 / (k + i + 1)] over the positions [i] of the scores pushed for its
    document. *)
Lemma applyReranking_rrf_member (results : JsMap.t Accumulated)
      (rerank : option RerankStrategy) (r : HybridSearchResult) :
  strategyOf rerank = "rrf" ->
  In r (applyReranking results rerank) ->
  exists e, In e results /\ document r = a_document (snd e)
            /\ score r = rrfScore (rrfK rerank) (a_scores (snd e)).
Proof.
  intros Hs. unfold applyReranking. rewrite Hs, String.eqb_refl.
  rewrite sortDesc_In, in_map_iff. intros [e [<- He]].
  exists e. now repeat split.
Qed.

(** C1: the dense channel returns document A at rank 0 and the sparse
    channel returns it at rank 2; with [k = 60] the fused score of A is
    [1/61 + 1/62], the sum over the positions 0 and 1 of its own list of
    pushed scores, and not [1/61 + 1/63]. *)
Theorem C1_rrf_sums_over_channel_count :
  option_map (map (fun r => (id (document r), score r)))
             (fst (fst (hybridSearch two_channel_backend [] "c"
                                     two_channel_requests None)))
  = Some [("A", 1 / 61 + 1 / 62); ("X", 1 / 61); ("Y", 1 / 61)]
  /\ 1 / 61 + 1 / 62 <> 1 / 61 + 1 / 63
  /\ forall k scores, rrfScore k scores = rrfScore k (map (fun _ => 0) scores).
Proof.
  split; [|split].
  - eval_reals. f_equal.
    repeat (apply f_equal2; [apply f_equal; simpl; lra|]). reflexivity.
  - lra.
  - apply rrfScore_ignores_scores.
Qed.

(* ================================================================== *)
(** * Hybrid search: empty sparse requests *)
(* ================================================================== *)

Section EmptySparse.

Variable be : Backend.
Variable collectionName : string.
Variable options : option HybridSearchOptions.

Lemma searchCalls_app (e1 e2 : list Event) :
  searchCalls (e1 ++ e2) = searchCalls e1 ++ searchCalls e2.
Proof. apply filter_app. Qed.

Lemma isHybridCollection_no_search (cache : Cache) :
  searchCalls (snd (isHybridCollection be cache collectionName)) = [].
Proof.
  unfold isHybridCollection.
  destruct (existsb _ cache); [reflexivity|].
  destruct (client_getCollection be collectionName) as [[|]|]; reflexivity.
Qed.

Lemma parseFilterExpression_no_search (expr : string) :
  searchCalls (snd (parseFilterExpression expr)) = [].
Proof.
  unfold parseFilterExpression.
  destruct (_ || _); [reflexivity|].
  destruct (search re_in expr) as [[? ?]|]; [reflexivity|].
  destruct (search re_eq expr) as [[? ?]|]; [reflexivity|].
  destruct (search re_neq expr) as [[? ?]|]; reflexivity.
Qed.

Lemma filterOf_no_search : searchCalls (snd (filterOf options)) = [].
Proof.
  unfold filterOf. destruct options as [[l [[|c e]|] r]|]; try reflexivity.
  apply parseFilterExpression_no_search.
Qed.

(** Asking again gives the same answer, whatever the first call cached. *)
Lemma hybridAnswer_stable (cache : Cache) :
  hybridAnswer be (snd (fst (isHybridCollection be cache collectionName)))
               collectionName
  = hybridAnswer be cache collectionName.
Proof.
  unfold hybridAnswer, isHybridCollection.
  destruct (existsb (String.eqb collectionName) cache) eqn:E; simpl.
  - now rewrite E.
  - destruct (client_getCollection be collectionName) as [[|]|] eqn:G;
      simpl; rewrite ?E, ?G; try reflexivity.
    unfold JsSet.add. rewrite E. rewrite existsb_app. simpl.
    rewrite String.eqb_refl. now rewrite orb_true_r.
Qed.

Lemma queryOf_empty_sparse isHybrid flt lim r :
  isEmptySparse r = true ->
  queryOf isHybrid flt lim r = (None, [LogSkipEmptySparse]).
Proof.
  unfold isEmptySparse, queryOf.
  destruct (data r) as [t|v|sv]; try discriminate.
  destruct (indices sv); [reflexivity | discriminate].
Qed.

Lemma searchStep_empty_sparse (st : LoopState) (r : HybridSearchRequest) :
  isEmptySparse r = true ->
  snd (searchStep be collectionName options st r) = true
  /\ alike be collectionName st (fst (searchStep be collectionName options st r)).
Proof.
  intros He. unfold searchStep.
  pose proof (isHybridCollection_no_search (l_cache st)) as Hh.
  pose proof (hybridAnswer_stable (l_cache st)) as Hs.
  pose proof filterOf_no_search as Hf.
  destruct (data r) as [t|v|sv] eqn:D;
    try (unfold isEmptySparse in He; rewrite D in He; discriminate).
  destruct (isHybridCollection be (l_cache st) collectionName)
    as [[h c] e1] eqn:I.
  destruct (filterOf options) as [flt e2].
  rewrite (queryOf_empty_sparse _ _ _ _ He). simpl in *.
  split; [reflexivity|]. unfold alike. simpl.
  repeat split.
  - rewrite !searchCalls_app, Hh, Hf. simpl. now rewrite app_nil_r.
  - symmetry. exact Hs.
Qed.

Lemma searchStep_alike (st1 st2 : LoopState) (r : HybridSearchRequest) :
  alike be collectionName st1 st2 ->
  snd (searchStep be collectionName options st1 r)
  = snd (searchStep be collectionName options st2 r)
  /\ alike be collectionName
           (fst (searchStep be collectionName options st1 r))
           (fst (searchStep be collectionName options st2 r)).
Proof.
  intros (Hr & He & Ha). unfold searchStep.
  pose proof (isHybridCollection_no_search (l_cache st1)) as Hh1.
  pose proof (isHybridCollection_no_search (l_cache st2)) as Hh2.
  pose proof (hybridAnswer_stable (l_cache st1)) as Hs1.
  pose proof (hybridAnswer_stable (l_cache st2)) as Hs2.
  pose proof filterOf_no_search as Hf.
  rewrite <- Ha in Hs2. pose proof Ha as Ha0. unfold hybridAnswer in Ha.
  destruct (isHybridCollection be (l_cache st1) collectionName)
    as [[h1 c1] e1].
  destruct (isHybridCollection be (l_cache st2) collectionName)
    as [[h2 c2] e2].
  simpl in Ha, Hh1, Hh2, Hs1, Hs2. subst h2.
  destruct (filterOf options) as [flt ef]. simpl in Hf.
  destruct (queryOf h1 flt (limitOf options) r) as [[q|] eq].
  - destruct (client_search be collectionName q) as [res|];
      destruct (data r); simpl;
        (split; [reflexivity|]); unfold alike; simpl;
        rewrite ?Hr, !searchCalls_app, ?Hh1, ?Hh2, He, ?Hs1, ?Hs2, ?Ha0;
        repeat split; reflexivity.
  - destruct (data r); simpl; (split; [reflexivity|]); unfold alike; simpl;
      rewrite ?Hr, !searchCalls_app, ?Hh1, ?Hh2, He, ?Hs1, ?Hs2, ?Ha0;
      repeat split; reflexivity.
Qed.

Lemma searchLoop_skips_empty_sparse (rs : list HybridSearchRequest) :
  forall st1 st2,
    alike be collectionName st1 st2 ->
    snd (searchLoop be collectionName options st1 rs)
    = snd (searchLoop be collectionName options st2
                      (filter (fun r => negb (isEmptySparse r)) rs))
    /\ alike be collectionName
             (fst (searchLoop be collectionName options st1 rs))
             (fst (searchLoop be collectionName options st2
                              (filter (fun r => negb (isEmptySparse r)) rs))).
Proof.
  induction rs as [|r rs IH]; intros st1 st2 Hst.
  - simpl. now split.
  - cbn [filter searchLoop].
    destruct (isEmptySparse r) eqn:E; cbn [negb].
    + destruct (searchStep_empty_sparse st1 r E) as [Hok Hal].
      destruct (searchStep be collectionName options st1 r) as [st1' ok1].
      simpl in Hok, Hal. subst ok1.
      apply IH. destruct Hal as (A & B & C), Hst as (A' & B' & C').
      unfold alike. rewrite <- A, <- B, <- C. now repeat split.
    + cbn [searchLoop].
      destruct (searchStep_alike st1 st2 r Hst) as [Hok Hal].
      destruct (searchStep be collectionName options st1 r) as [st1' ok1].
      destruct (searchStep be collectionName options st2 r) as [st2' ok2].
      simpl in Hok, Hal. subst ok2.
      destruct ok1; [now apply IH | now split].
Qed.

Lemma searchLoop_all_empty_sparse (rs : list HybridSearchRequest) :
  forallb isEmptySparse rs = true ->
  forall st,
    snd (searchLoop be collectionName options st rs) = true
    /\ alike be collectionName st
             (fst (searchLoop be collectionName options st rs)).
Proof.
  induction rs as [|r rs IH]; intros Hall st.
  - simpl. now split.
  - simpl in Hall. apply andb_true_iff in Hall. destruct Hall as [E Hall].
    cbn [searchLoop].
    destruct (searchStep_empty_sparse st r E) as [Hok Hal].
    destruct (searchStep be collectionName options st r) as [st' ok].
    simpl in Hok, Hal. subst ok.
    destruct (IH Hall st') as [Hok' Hal']. split; [exact Hok'|].
    destruct Hal as (A & B & C), Hal' as (A' & B' & C').
    unfold alike. rewrite A, B, C. now repeat split.
Qed.

End EmptySparse.

Lemma applyReranking_empty (rerank : option RerankStrategy) :
  applyReranking JsMap.empty rerank = [].
Proof.
  unfold applyReranking.
  destruct (String.eqb (strategyOf rerank) "rrf"); [reflexivity|].
  destruct (String.eqb (strategyOf rerank) "weighted"); reflexivity.
Qed.

(** C9: a request whose data is a sparse vector with empty indices is
    skipped: its turn of the loop succeeds, issues no backend search and
    leaves the accumulated results as they were; the results and the
    backend searches of a call are those of the call without such
    requests; and a call made of such requests only returns the empty
    list without any backend search. *)
Theorem C9_empty_sparse_requests_skipped
        (be : Backend) (collectionName : string)
        (options : option HybridSearchOptions) :
  (forall st r,
      isEmptySparse r = true ->
      snd (searchStep be collectionName options st r) = true
      /\ l_results (fst (searchStep be collectionName options st r))
         = l_results st
      /\ searchCalls (l_events (fst (searchStep be collectionName options st r)))
         = searchCalls (l_events st))
  /\ (forall cache rs,
      let full := hybridSearch be cache collectionName rs options in
      let rest := hybridSearch be cache collectionName
                               (filter (fun r => negb (isEmptySparse r)) rs)
                               options in
      fst (fst full) = fst (fst rest)
      /\ searchCalls (snd full) = searchCalls (snd rest))
  /\ (forall cache rs,
      forallb isEmptySparse rs = true ->
      fst (fst (hybridSearch be cache collectionName rs options)) = Some []
      /\ searchCalls (snd (hybridSearch be cache collectionName rs options))
         = []).
Proof.
  split; [|split].
  - intros st r E.
    destruct (searchStep_empty_sparse be collectionName options st r E)
      as [Hok (A & B & _)].
    now repeat split.
  - intros cache rs. cbv zeta. unfold hybridSearch.
    set (st0 := {| l_cache := cache; l_results := JsMap.empty;
                   l_events := [] |}).
    assert (H0 : alike be collectionName st0 st0) by now repeat split.
    destruct (searchLoop_skips_empty_sparse be collectionName options rs
                                            st0 st0 H0) as [Hok (A & B & _)].
    destruct (searchLoop be collectionName options st0 rs) as [st1 ok1].
    destruct (searchLoop be collectionName options st0
                         (filter (fun r => negb (isEmptySparse r)) rs))
      as [st2 ok2].
    simpl in Hok, A, B. subst ok2.
    destruct ok1; simpl.
    + now rewrite A, B.
    + rewrite !searchCalls_app, B. now split.
  - intros cache rs Hall. unfold hybridSearch.
    set (st0 := {| l_cache := cache; l_results := JsMap.empty;
                   l_events := [] |}).
    destruct (searchLoop_all_empty_sparse be collectionName options rs
                                          Hall st0) as [Hok (A & B & _)].
    destruct (searchLoop be collectionName options st0 rs) as [st1 ok1].
    simpl in Hok, A, B. subst ok1. simpl.
    rewrite <- A, <- B. simpl. rewrite applyReranking_empty.
    split; [|reflexivity]. now rewrite firstn_nil.
Qed.

Lemma C9_empty_sparse_requests_skipped_witness :
  fst (fst (hybridSearch two_channel_backend [] "c"
              [mkRequest (SparseData (mkSparse [] [])) (Some "sparse") None]
              None)) = Some []
  /\ searchCalls (snd (hybridSearch two_channel_backend [] "c"
              [mkRequest (SparseData (mkSparse [] [])) (Some "sparse") None]
              None)) = [].
Proof.
  destruct (C9_empty_sparse_requests_skipped two_channel_backend "c" None)
    as [_ [_ H]].
  apply (H [] [mkRequest (SparseData (mkSparse [] [])) (Some "sparse") None]).
  reflexivity.
Defined.

(* ================================================================== *)
(** * The encoder: export, clear, import *)
(* ================================================================== *)

Lemma snd_embed (text : string) (s : SparseEmbedding) :
  snd (embed text s) = autoInit text s.
Proof.
  unfold embed.
  destruct (List.length (tokenize _ text)); reflexivity.
Qed.

Lemma selectTerm_uniqueKeys cfg N maxDf (l : list (string * list nat)) :
  forall tb,
    NoDup (JsMap.keys (t_vocabulary tb)) /\ NoDup (JsMap.keys (t_df tb))
    /\ NoDup (JsMap.keys (t_idf tb)) ->
    let tb' := fold_left (selectTerm cfg N maxDf) l tb in
    NoDup (JsMap.keys (t_vocabulary tb')) /\ NoDup (JsMap.keys (t_df tb'))
    /\ NoDup (JsMap.keys (t_idf tb')).
Proof.
  induction l as [|[term docs] l IH]; intros tb H; simpl; [exact H|].
  apply IH. unfold selectTerm.
  destruct (_ && _); [|exact H]. simpl.
  destruct H as (H1 & H2 & H3).
  repeat split; now apply NoDup_keys_set.
Qed.

Lemma buildVocabulary_uniqueKeys (documents : list string) (s : SparseEmbedding) :
  uniqueKeys (buildVocabulary documents s).
Proof.
  unfold uniqueKeys, buildVocabulary.
  destruct documents as [|d ds]; simpl.
  - repeat split; constructor.
  - apply selectTerm_uniqueKeys. simpl. repeat split; constructor.
Qed.

(** Every encoder the operations produce has unique keys in its tables. *)
Lemma reachable_uniqueKeys (accepted : ExportedState -> Prop) (s : SparseEmbedding) :
  reachable accepted s -> uniqueKeys s.
Proof.
  induction 1 as [cfg|docs s _ _|text s _ IH|c s _ _ _|s _ _|p s _ IH].
  - repeat split; constructor.
  - apply buildVocabulary_uniqueKeys.
  - rewrite snd_embed. unfold autoInit.
    destruct (isInitialized s); [exact IH | apply buildVocabulary_uniqueKeys].
  - repeat split; simpl; apply NoDup_keys_of_entries.
  - repeat split; constructor.
  - exact IH.
Qed.

Lemma import_export_clear (s : SparseEmbedding) :
  uniqueKeys s -> isInitialized s = true ->
  importState (exportState s) (clear s) = s.
Proof.
  intros (H1 & H2 & H3) Hi. destruct s as [cfg voc df tot avg idf ini].
  simpl in *. subst ini. unfold importState, exportState. simpl.
  now rewrite !of_entries_entries.
Qed.

(** C5: for an initialized encoder, exporting the state, clearing the
    encoder and importing the exported container gives back the encoder
    itself: vocabulary, document frequencies, IDF cache, totals and
    parameters; hence every [embed] returns what it returned before. *)
Theorem C5_export_clear_import_round_trip (s : SparseEmbedding) :
  reachable anyContainer s ->
  isInitialized s = true ->
  importState (exportState s) (clear s) = s
  /\ forall x, embed x (importState (exportState s) (clear s)) = embed x s.
Proof.
  intros Hr Hi.
  assert (E : importState (exportState s) (clear s) = s).
  { apply import_export_clear; [|exact Hi].
    exact (reachable_uniqueKeys _ _ Hr). }
  split; [exact E|]. intros x. now rewrite E.
Qed.

Lemma C5_export_clear_import_round_trip_witness :
  importState (exportState example_encoder) (clear example_encoder)
  = example_encoder
  /\ embed "red green" (importState (exportState example_encoder)
                                    (clear example_encoder))
     = embed "red green" example_encoder.
Proof.
  destruct (C5_export_clear_import_round_trip example_encoder) as [E H].
  - apply reach_build. apply reach_new.
  - reflexivity.
  - split; [exact E | apply H].
Defined.

(* ================================================================== *)
(** * The encoder: what a rebuild and an import replace *)
(* ================================================================== *)

Lemma example_encoder_avg : avgDocumentLength example_encoder = 5 / 2.
Proof.
  unfold example_encoder, buildVocabulary.
  cbn [avgDocumentLength config newSparseEmbedding defaultConfig tokenMode
       List.length].
  replace (fst (countDocuments code ["red blue red"; "blue green"]))
    with 5%nat by (vm_compute; reflexivity).
  simpl. lra.
Qed.

(** An empty corpus given to an initialized encoder leaves the average
    document length of the previous corpus in place, and an import of a
    container without parameters leaves the previous parameters in place:
    fields of the previous state survive both operations. *)
Lemma C4_previous_state_survives :
  isInitialized example_encoder = true
  /\ avgDocumentLength (buildVocabulary [] example_encoder) = 5 / 2
  /\ avgDocumentLength (buildVocabulary [] example_encoder) <> 0
  /\ config (importState example_container_without_config
                         (newSparseEmbedding sublinearConfig))
     = sublinearConfig
  /\ importState example_container_without_config
                 (newSparseEmbedding sublinearConfig)
     <> importState example_container_without_config
                    (newSparseEmbedding defaultConfig).
Proof.
  assert (E : avgDocumentLength (buildVocabulary [] example_encoder) = 5 / 2)
    by (cbn [buildVocabulary avgDocumentLength]; apply example_encoder_avg).
  repeat split; try reflexivity; try exact E.
  - rewrite E. lra.
  - intros H.
    apply (f_equal (fun s => sublinearTf (config s))) in H.
    discriminate H.
Qed.

(** C4: [buildVocabulary] with an empty document list leaves any encoder
    initialized with empty vocabulary, document-frequency and IDF tables
    and no documents; with a non-empty list it sets every field but the
    parameters from the documents and the parameters alone; [importState]
    sets every field from the container, and keeps the previous
    parameters exactly when the container carries none. *)
Theorem C4_rebuild_and_import_replace_state :
  (forall s,
      let s' := buildVocabulary [] s in
      isInitialized s' = true /\ vocabulary s' = JsMap.empty
      /\ documentFrequency s' = JsMap.empty /\ idfCache s' = JsMap.empty
      /\ totalDocuments s' = 0 /\ getVocabularySize s' = 0%nat
      /\ config s' = config s)
  /\ (forall documents s1 s2,
      documents <> [] -> config s1 = config s2 ->
      buildVocabulary documents s1 = buildVocabulary documents s2)
  /\ (forall state s1 s2,
      x_config state <> None \/ config s1 = config s2 ->
      importState state s1 = importState state s2)
  /\ (forall state s,
      let s' := importState state s in
      isInitialized s' = true
      /\ vocabulary s' = JsMap.of_entries (x_vocabulary state)
      /\ documentFrequency s' = JsMap.of_entries (x_documentFrequency state)
      /\ idfCache s' = JsMap.of_entries (x_idfCache state)
      /\ totalDocuments s' = x_totalDocuments state
      /\ avgDocumentLength s' = x_avgDocumentLength state
      /\ config s' = orElse (x_config state) (config s)).
Proof.
  split; [|split; [|split]].
  - intros s. cbv zeta. now repeat split.
  - intros documents s1 s2 Hne Hc. unfold buildVocabulary.
    destruct documents as [|d ds]; [congruence|]. now rewrite Hc.
  - intros state s1 s2 H. unfold importState.
    destruct (x_config state) as [cfg|]; [reflexivity|].
    destruct H as [H|H]; [congruence | now rewrite H].
  - intros state s. cbv zeta. repeat split.
Qed.

Lemma C4_rebuild_and_import_replace_state_witness :
  buildVocabulary ["red blue red"; "blue green"] example_encoder
  = buildVocabulary ["red blue red"; "blue green"]
                    (newSparseEmbedding defaultConfig)
  /\ importState (exportState example_encoder) example_encoder
     = importState (exportState example_encoder)
                   (newSparseEmbedding sublinearConfig).
Proof.
  destruct C4_rebuild_and_import_replace_state as [_ [Hb [Hi _]]].
  split.
  - apply Hb; [discriminate | reflexivity].
  - apply Hi. left. discriminate.
Defined.

(* ================================================================== *)
(** * The encoder: term frequencies and scores *)
(* ================================================================== *)

Lemma get_of_In {V : Type} (m : JsMap.t V) (k : string) (v : V) :
  NoDup (JsMap.keys m) -> In (k, v) m -> JsMap.get m k = Some v.
Proof.
  induction m as [|[k' v'] m IH]; simpl; intros Hnd Hin; [contradiction|].
  inversion Hnd as [|? ? Hn Hnd']; subst.
  destruct Hin as [[= -> ->]|Hin].
  - now rewrite String.eqb_refl.
  - destruct (String.eqb k' k) eqn:E.
    + apply String.eqb_eq in E. subst k'. exfalso. apply Hn.
      change k with (fst (k, v)). now apply in_map.
    + now apply IH.
Qed.

Lemma termFrequencies_NoDup (vocab : JsMap.t Z) (tokens : list string) :
  forall acc,
    NoDup (JsMap.keys acc) ->
    NoDup (JsMap.keys (fold_left (countTerm vocab) tokens acc)).
Proof.
  induction tokens as [|a tokens IH]; intros acc Hacc; simpl; [exact Hacc|].
  apply IH. unfold countTerm.
  destruct (JsMap.has vocab a); [now apply NoDup_keys_set | exact Hacc].
Qed.

(** The counter of a term after the loop over the tokens. *)
Lemma termFrequencies_fold (vocab : JsMap.t Z) (t : string)
      (tokens : list string) :
  forall acc,
    JsMap.get (fold_left (countTerm vocab) tokens acc) t
    = if JsMap.has vocab t
      then match JsMap.get acc t, count_occ string_dec tokens t with
           | Some n, c => Some (n + c)%nat
           | None, O => None
           | None, S c => Some (S c)
           end
      else JsMap.get acc t.
Proof.
  induction tokens as [|a tokens IH]; intros acc.
  - simpl. destruct (JsMap.has vocab t); [|reflexivity].
    destruct (JsMap.get acc t); [|reflexivity]. f_equal. lia.
  - cbn [fold_left]. rewrite IH. clear IH.
    destruct (JsMap.has vocab t) eqn:Ht.
    + unfold countTerm. cbn [count_occ].
      destruct (string_dec a t) as [->|Hne].
      * rewrite Ht, get_set_same.
        destruct (JsMap.get acc t) as [n|]; f_equal; lia.
      * destruct (JsMap.has vocab a); [|reflexivity].
        now rewrite (get_set_other _ _ _ _ Hne).
    + unfold countTerm.
      destruct (JsMap.has vocab a) eqn:Ha; [|reflexivity].
      apply get_set_other. congruence.
Qed.

(** [termFreq] maps a term of the vocabulary that occurs in the tokens to
    the number of its occurrences, and has no other key. *)
Lemma termFrequencies_get (vocab : JsMap.t Z) (tokens : list string)
      (t : string) (tf : nat) :
  JsMap.get (termFrequencies vocab tokens) t = Some tf
  <-> JsMap.has vocab t = true /\ In t tokens
      /\ tf = count_occ string_dec tokens t.
Proof.
  unfold termFrequencies. rewrite termFrequencies_fold. simpl.
  destruct (JsMap.has vocab t).
  - destruct (count_occ string_dec tokens t) as [|c] eqn:C.
    + split; [discriminate|]. intros (_ & Hin & _).
      apply (count_occ_In string_dec) in Hin. lia.
    + split.
      * intros [= <-]. repeat split.
        apply (count_occ_In string_dec). lia.
      * intros (_ & _ & ->). reflexivity.
  - split; [discriminate|]. intros (H & _). discriminate.
Qed.

Lemma bm25_formula_eq (s : SparseEmbedding) (docLength : nat)
      (term : string) (tf : nat) :
  bm25 s docLength term tf
  = bm25_formula (idfOfTerm s term) (adjustedTfOf (config s) tf)
                 (k1 (config s)) (b (config s)) (INR docLength)
                 (avgDocumentLength s).
Proof.
  unfold bm25, bm25_formula, idfOfTerm, or_default, Rdiv. cbv beta zeta.
  set (avg := if Req_dec_T (avgDocumentLength s) 0 then 1
              else avgDocumentLength s).
  replace (b (config s) * (INR docLength * / avg))
    with (b (config s) * INR docLength * / avg) by ring.
  ring.
Qed.

(** The entries the loop of [embed] pushes. *)
Lemma scoredTerms_In (s : SparseEmbedding) (tokens : list string)
      (i : Z) (v : R) :
  In (i, v) (scoredTerms s (List.length tokens)
                         (termFrequencies (vocabulary s) tokens))
  <-> exists term,
      In term tokens /\ JsMap.has (vocabulary s) term = true
      /\ i = indexOf s term
      /\ v = bm25 s (List.length tokens) term
                  (count_occ string_dec tokens term)
      /\ 0 < v.
Proof.
  unfold scoredTerms. rewrite filter_In, in_map_iff. simpl.
  assert (Hnd : NoDup (JsMap.keys (termFrequencies (vocabulary s) tokens)))
    by (apply termFrequencies_NoDup; constructor).
  split.
  - intros [[[term tf] [E Hin]] Hpos]. simpl in E. injection E as <- <-.
    apply (get_of_In _ _ _ Hnd), termFrequencies_get in Hin.
    destruct Hin as (Hh & Ht & ->).
    exists term. repeat split; auto.
    unfold Rltb in Hpos. now destruct (Rlt_dec 0 _).
  - intros (term & Ht & Hh & -> & -> & Hpos). split.
    + exists (term, count_occ string_dec tokens term). split; [reflexivity|].
      apply get_In, termFrequencies_get. now repeat split.
    + now apply Rltb_true.
Qed.

Lemma embed_values (text : string) (s : SparseEmbedding) :
  let s1 := autoInit text s in
  let tokens := tokenize (tokenMode (config s1)) text in
  fst (embed text s)
  = {| indices := map fst (scoredTerms s1 (List.length tokens)
                             (termFrequencies (vocabulary s1) tokens));
       values := map snd (scoredTerms s1 (List.length tokens)
                            (termFrequencies (vocabulary s1) tokens)) |}.
Proof.
  cbv zeta. unfold embed.
  destruct (tokenize _ text) as [|t ts] eqn:E; reflexivity.
Qed.

(** C3: the values [embed] emits are exactly the positive ones among the
    BM25 scores of the terms of the text that are in the vocabulary, with
    [tf] the number of occurrences of the term, and the average document
    length entering the denominator as it is, unless it is zero, when 1
    takes its place. *)
Theorem C3_embed_emits_bm25_scores (s : SparseEmbedding) (text : string) (v : R) :
  let s1 := autoInit text s in
  let tokens := tokenize (tokenMode (config s1)) text in
  In v (values (fst (embed text s)))
  <-> exists term,
      let tf := count_occ string_dec tokens term in
      let adjusted_tf :=
        if sublinearTf (config s1) then 1 + ln (INR tf) else INR tf in
      let avg := avgDocumentLength s1 in
      In term tokens /\ JsMap.has (vocabulary s1) term = true
      /\ 0 < v
      /\ v = idfOfTerm s1 term * adjusted_tf * (k1 (config s1) + 1)
             / (adjusted_tf
                + k1 (config s1)
                  * (1 - b (config s1)
                     + b (config s1) * INR (List.length tokens)
                       / (if Req_dec_T avg 0 then 1 else avg))).
Proof.
  cbv zeta. rewrite embed_values. cbn [values]. rewrite in_map_iff. split.
  - intros [[i v'] [E Hin]]. simpl in E. subst v'.
    apply scoredTerms_In in Hin. destruct Hin as (term & Ht & Hh & _ & Hv & Hp).
    exists term. repeat split; auto.
    rewrite Hv. apply bm25_formula_eq.
  - intros (term & Ht & Hh & Hp & Hv).
    exists (indexOf (autoInit text s) term, v). split; [reflexivity|].
    apply scoredTerms_In. exists term. repeat split; auto.
    rewrite Hv. symmetry. apply bm25_formula_eq.
Qed.

Lemma half_length_encoder_embed :
  fst (embed "ab" half_length_encoder) = {| indices := [0%Z]; values := [2 / 3] |}.
Proof.
  eval_reals. f_equal. f_equal. simpl. lra.
Qed.

Lemma C3_embed_emits_bm25_scores_witness :
  exists term,
    In term (tokenize code "ab")
    /\ JsMap.has (vocabulary half_length_encoder) term = true
    /\ 0 < 2 / 3.
Proof.
  destruct (proj1 (C3_embed_emits_bm25_scores half_length_encoder "ab" (2 / 3)))
    as (term & Ht & Hh & Hp & _).
  - rewrite half_length_encoder_embed. simpl. now left.
  - exists term. repeat split; assumption.
Defined.

(** With an average document length of one half the emitted score is
    [2/3], where the formula with [max(avg, 1)] gives 1. *)
Lemma C3_average_below_one_is_not_clamped :
  isInitialized half_length_encoder = true
  /\ avgDocumentLength half_length_encoder = 1 / 2
  /\ tokenize code "ab" = ["ab"]
  /\ values (fst (embed "ab" half_length_encoder)) = [2 / 3]
  /\ bm25_spec_formula (idfOfTerm half_length_encoder "ab")
                       (adjustedTfOf (config half_length_encoder) 1)
                       (k1 (config half_length_encoder))
                       (b (config half_length_encoder))
                       (INR 1) (avgDocumentLength half_length_encoder) = 1
  /\ 2 / 3 <> 1.
Proof.
  repeat split; try reflexivity.
  - now rewrite half_length_encoder_embed.
  - unfold bm25_spec_formula, Rmax. eval_structure.
    destruct (Rle_dec (1 / 2) 1); simpl; lra.
  - lra.
Qed.

(* ================================================================== *)
(** * The encoder: the shape of sparse vectors *)
(* ================================================================== *)

Lemma countDocument_NoDup mode acc entry :
  NoDup (JsMap.keys (snd acc)) ->
  NoDup (JsMap.keys (snd (countDocument mode acc entry))).
Proof.
  destruct acc as [total termDocs], entry as [docIndex doc].
  unfold countDocument. cbn [snd].
  generalize (JsSet.of_list String.eqb (tokenize mode doc)).
  intros terms. revert termDocs.
  induction terms as [|t terms IH]; intros termDocs H; simpl; [exact H|].
  apply IH. now apply NoDup_keys_set.
Qed.

Lemma countDocuments_NoDup mode documents :
  NoDup (JsMap.keys (snd (countDocuments mode documents))).
Proof.
  unfold countDocuments.
  generalize (combine (seq 0 (List.length documents)) documents).
  intros l.
  assert (H : NoDup (JsMap.keys (snd (0%nat, @JsMap.empty (list nat)))))
    by constructor.
  revert H. generalize (0%nat, @JsMap.empty (list nat)).
  induction l as [|e l IH]; intros acc H; simpl; [exact H|].
  apply IH. now apply countDocument_NoDup.
Qed.

Lemma denseIndices_snoc (m : JsMap.t Z) (k : string) :
  denseIndices m -> denseIndices (m ++ [(k, Z.of_nat (JsMap.size m))]).
Proof.
  unfold denseIndices, JsMap.size. intros H.
  rewrite map_app, length_app, H. simpl.
  rewrite Nat.add_1_r, seq_S, map_app. reflexivity.
Qed.

(** What the loop over [termDocs] keeps true of the vocabulary it fills. *)
Lemma selectTerm_dense cfg N maxDf (l : list (string * list nat)) :
  forall tb,
    NoDup (map fst l) ->
    (forall k, In k (JsMap.keys (t_vocabulary tb)) -> ~ In k (map fst l)) ->
    NoDup (JsMap.keys (t_vocabulary tb)) ->
    denseIndices (t_vocabulary tb) ->
    t_next tb = Z.of_nat (JsMap.size (t_vocabulary tb)) ->
    let tb' := fold_left (selectTerm cfg N maxDf) l tb in
    NoDup (JsMap.keys (t_vocabulary tb')) /\ denseIndices (t_vocabulary tb').
Proof.
  induction l as [|[term docs] l IH]; intros tb Hl Hfresh Hnd Hdense Hnext.
  - simpl. now split.
  - cbn [fold_left]. inversion Hl as [|? ? Hterm Hl']; subst.
    apply IH; try assumption; unfold selectTerm;
      destruct (_ && _); cbn [t_vocabulary t_next]; try assumption.
    + intros k Hk Hin.
      assert (Hn : ~ In term (JsMap.keys (t_vocabulary tb))).
      { intros H. apply (Hfresh _ H). now left. }
      rewrite (set_fresh _ _ _ Hn) in Hk. unfold JsMap.keys in Hk.
      rewrite map_app in Hk. apply in_app_or in Hk.
      destruct Hk as [Hk|[<-|[]]].
      * apply (Hfresh _ Hk). now right.
      * now apply Hterm.
    + intros k Hk Hin. apply (Hfresh _ Hk). now right.
    + now apply NoDup_keys_set.
    + assert (Hn : ~ In term (JsMap.keys (t_vocabulary tb))).
      { intros H. apply (Hfresh _ H). now left. }
      rewrite (set_fresh _ _ _ Hn), Hnext. now apply denseIndices_snoc.
    + assert (Hn : ~ In term (JsMap.keys (t_vocabulary tb))).
      { intros H. apply (Hfresh _ H). now left. }
      rewrite (set_fresh _ _ _ Hn), Hnext. unfold JsMap.size.
      rewrite length_app. simpl. lia.
Qed.

Lemma buildVocabulary_dense (documents : list string) (s : SparseEmbedding) :
  denseVocabulary (buildVocabulary documents s).
Proof.
  unfold denseVocabulary, buildVocabulary.
  destruct documents as [|d ds]; cbn [vocabulary].
  - split; [constructor | reflexivity].
  - apply selectTerm_dense; simpl; try constructor; try reflexivity.
    + apply (countDocuments_NoDup (tokenMode (config s)) (d :: ds)).
    + intros k [].
Qed.

(** Every encoder built from corpora and from containers with dense
    indices has a vocabulary with unique terms and dense indices. *)
Lemma reachable_dense (s : SparseEmbedding) :
  reachable denseContainer s -> denseVocabulary s.
Proof.
  induction 1 as [cfg|docs s _ _|text s _ IH|c s Hc _ _|s _ _|p s _ IH].
  - split; [constructor | reflexivity].
  - apply buildVocabulary_dense.
  - rewrite snd_embed. unfold autoInit.
    destruct (isInitialized s); [exact IH | apply buildVocabulary_dense].
  - split; [apply NoDup_keys_of_entries | exact Hc].
  - split; [constructor | reflexivity].
  - exact IH.
Qed.

(** An exported container of such an encoder has dense indices again. *)
Lemma exportState_dense (s : SparseEmbedding) :
  reachable denseContainer s -> denseContainer (exportState s).
Proof.
  intros H. destruct (reachable_dense s H) as [Hnd Hd].
  unfold denseContainer, exportState. cbn [x_vocabulary].
  now rewrite of_entries_entries.
Qed.










(* ================================================================== *)
(** * The filter parser *)
(* ================================================================== *)

Lemma removeQuotes_noQuotes (s : string) : noQuotes (removeQuotes s).
Proof.
  unfold noQuotes. induction s as [|c s IH]; simpl; [reflexivity|].
  destruct (Chr.quote c) eqn:E; simpl; [exact IH|]. now rewrite E, IH.
Qed.

Lemma splitChar_nonempty (sep : ascii) (s cur : string) :
  splitChar sep s cur <> [].
Proof.
  revert cur. induction s as [|c s IH]; intros cur; simpl; [discriminate|].
  destruct (Ascii.eqb c sep); [discriminate | apply IH].
Qed.

(** The captures of the [in] pattern: a field and the text between the
    brackets. *)
Lemma captures_re_in (caps : list string) :
  captures re_in caps ->
  exists field inner, caps = [field; inner] /\ isField field.
Proof.
  simpl. intros H. break_up. subst. simpl.
  eexists _, _. split; [reflexivity|]. now split.
Qed.

(** The captures of the patterns for [==] and [!=]: a field and a value
    without quotes. *)
Lemma captures_re_eq (caps : list string) :
  captures re_eq caps \/ captures re_neq caps ->
  exists field v, caps = [field; v] /\ isField field /\ noQuotes v.
Proof.
  simpl. intros [H|H]; break_up; subst; simpl;
    (eexists _, _; split; [reflexivity|]; split; [now split | assumption]).
Qed.

Lemma blank_guard (expr : string) :
  String.eqb expr EmptyString || String.eqb (trim expr) EmptyString = true
  <-> trim expr = EmptyString.
Proof.
  rewrite orb_true_iff, !String.eqb_eq. split; [|tauto].
  intros [->|H]; [reflexivity | exact H].
Qed.

(** The shape of every answer of the parser. *)
Lemma parseFilterExpression_shape (expr : string) :
  match parseFilterExpression expr with
  | (Some flt, log) =>
      log = [] /\ trim expr <> EmptyString
      /\ (exists field, isField field
                        /\ Forall (fun c => key c = field) (conditions flt))
      /\ Forall (fun c => noQuotes (value c)) (conditions flt)
      /\ match flt with
         | Should cs => cs <> [] /\ search re_in expr <> None
         | Must cs =>
             List.length cs = 1%nat /\ search re_in expr = None
             /\ search re_eq expr <> None
         | MustNot cs =>
             List.length cs = 1%nat /\ search re_in expr = None
             /\ search re_eq expr = None /\ search re_neq expr <> None
         end
  | (None, log) =>
      (trim expr = EmptyString /\ log = [])
      \/ (trim expr <> EmptyString /\ log = [WarnFilterIgnored expr]
          /\ search re_in expr = None /\ search re_eq expr = None
          /\ search re_neq expr = None)
  end.
Proof.
  unfold parseFilterExpression.
  destruct (_ || _) eqn:B.
  - left. apply blank_guard in B. now split.
  - assert (Hnb : trim expr <> EmptyString).
    { intros H. apply blank_guard in H. congruence. }
    destruct (search re_in expr) as [[caps rest]|] eqn:Ein.
    + pose proof (search_sound _ _ _ _ Ein) as (u & _ & _ & C).
      apply captures_re_in in C. destruct C as (field & inner & -> & Hf).
      cbn [conditions cap nth Nat.sub]. repeat split; auto.
      * exists field. split; [exact Hf|].
        apply Forall_forall. intros c Hc. apply in_map_iff in Hc.
        destruct Hc as [v [<- _]]. reflexivity.
      * apply Forall_forall. intros c Hc. apply in_map_iff in Hc.
        destruct Hc as [v [<- Hv]]. apply in_map_iff in Hv.
        destruct Hv as [w [<- _]]. apply removeQuotes_noQuotes.
      * pose proof (splitChar_nonempty "," inner EmptyString) as Hs.
        destruct (splitChar "," inner EmptyString); [congruence | discriminate].
      * discriminate.
    + destruct (search re_eq expr) as [[caps rest]|] eqn:Eeq.
      * pose proof (search_sound _ _ _ _ Eeq) as (u & _ & _ & C).
        destruct (captures_re_eq caps (or_introl C))
          as (field & v & -> & Hf & Hv).
        cbn [conditions cap nth Nat.sub]. repeat split; auto;
          try discriminate; try (now repeat constructor).
        exists field. split; [exact Hf|]. now repeat constructor.
      * destruct (search re_neq expr) as [[caps rest]|] eqn:Ene.
        -- pose proof (search_sound _ _ _ _ Ene) as (u & _ & _ & C).
           destruct (captures_re_eq caps (or_intror C))
             as (field & v & -> & Hf & Hv).
           cbn [conditions cap nth Nat.sub]. repeat split; auto;
             try discriminate; try (now repeat constructor).
           exists field. split; [exact Hf|]. now repeat constructor.
        -- right. now repeat split.
Qed.

(** ** Character facts *)

Ltac by_char_cases :=
  let c := fresh "c" in
  intros c; destruct c as [[] [] [] [] [] [] [] []];
  vm_compute; intros; congruence.

Lemma plain_not_quote : forall c, plainChar c = true -> negb (Chr.quote c) = true.
Proof. by_char_cases. Qed.

Lemma plain_not_space : forall c, plainChar c = true -> negb (Chr.space c) = true.
Proof. by_char_cases. Qed.

Lemma plain_not_bracket :
  forall c, plainChar c = true -> negb (Ascii.eqb c "]") = true.
Proof. by_char_cases. Qed.

Lemma plain_not_comma :
  forall c, plainChar c = true -> negb (Ascii.eqb c ",") = true.
Proof. by_char_cases. Qed.

Lemma word_plain : forall c, Chr.word c = true -> plainChar c = true.
Proof. intros c H. unfold plainChar. now rewrite H. Qed.

Lemma eqb_char : forall c d, Ascii.eqb c d = true -> d = c.
Proof. intros c d H. apply Ascii.eqb_eq in H. congruence. Qed.

(** ** Counting characters *)

Lemma countChar_append (c : ascii) (s1 s2 : string) :
  countChar c (s1 ++ s2) = (countChar c s1 + countChar c s2)%nat.
Proof. induction s1 as [|d s1 IH]; simpl; [reflexivity | rewrite IH; lia]. Qed.

Lemma countChar_substring (c : ascii) (u s : string) :
  substringOf u s -> (countChar c u <= countChar c s)%nat.
Proof. intros (pre & post & ->). rewrite !countChar_append. lia. Qed.

Lemma countChar_none (p : ascii -> bool) (c : ascii) (s : string) :
  p c = false -> all_chars p s = true -> countChar c s = 0%nat.
Proof.
  intros Hc. induction s as [|d s IH]; simpl; [reflexivity|].
  intros H. apply andb_true_iff in H. destruct H as [Hd Hs].
  rewrite (IH Hs). destruct (Ascii.eqb d c) eqn:E; [|reflexivity].
  apply Ascii.eqb_eq in E. congruence.
Qed.

(** [search] finds nothing in a string with too few occurrences of a
    character every match contains. *)
Lemma search_none_by_count (r : regex) (c : ascii) (n : nat) (s : string) :
  (forall u, lang r u -> (n <= countChar c u)%nat) ->
  (countChar c s < n)%nat ->
  search r s = None.
Proof.
  intros Hl Hs. destruct (search r s) as [[caps rest]|] eqn:E; [|reflexivity].
  apply search_sound in E. destruct E as (u & Hsub & L & _).
  apply Hl in L. apply (countChar_substring c) in Hsub. lia.
Qed.

Ltac count_classes :=
  repeat match goal with
         | H : Ascii.eqb _ _ = true |- _ => apply eqb_char in H; subst
         end;
  rewrite ?countChar_append; simpl; lia.

Ltac open_patterns :=
  unfold re_in, re_eq, re_neq, re_value, chr; cbn [lang captures cats List.app].

Lemma lang_re_in_bracket (u : string) :
  lang re_in u -> (1 <= countChar "[" u)%nat.
Proof. open_patterns. intros H. break_up. subst. count_classes. Qed.

Lemma lang_re_eq_equals (u : string) :
  lang re_eq u -> (2 <= countChar "=" u)%nat.
Proof. open_patterns. intros H. break_up. subst. count_classes. Qed.

(** ** Expressions in canonical form *)

Lemma trimEnd_no_space (w : string) :
  all_chars (fun c => negb (Chr.space c)) w = true -> trimEnd w = w.
Proof.
  induction w as [|c w IH]; simpl; [reflexivity|].
  intros H. apply andb_true_iff in H. destruct H as [Hc Hw].
  rewrite (IH Hw). destruct w; [|reflexivity].
  apply negb_true_iff in Hc. now rewrite Hc.
Qed.

Lemma trimEnd_nonempty (c : ascii) (s : string) :
  Chr.space c = false -> trimEnd (String c s) <> EmptyString.
Proof.
  intros Hc. simpl. destruct (trimEnd s); [now rewrite Hc | discriminate].
Qed.

(** An expression that begins with a field is not blank. *)
Lemma field_not_blank (f rest : string) :
  isField f ->
  String.eqb (f ++ rest) EmptyString
  || String.eqb (trim (f ++ rest)) EmptyString = false.
Proof.
  intros [Hne Hw]. destruct f as [|c f]; [congruence|].
  simpl in Hw. apply andb_true_iff in Hw. destruct Hw as [Hc _].
  assert (Hs : Chr.space c = false).
  { apply negb_true_iff. apply plain_not_space. now apply word_plain. }
  apply orb_false_iff. split; [reflexivity|].
  apply String.eqb_neq. unfold trim. cbn [append trimStart]. rewrite Hs.
  now apply trimEnd_nonempty.
Qed.

Lemma quoteMark_cases (q : string) :
  quoteMark q ->
  all_chars (fun c => negb (Chr.space c)) q = true
  /\ all_chars (fun c => negb (Ascii.eqb c "]")) q = true
  /\ all_chars (fun c => negb (Ascii.eqb c ",")) q = true
  /\ removeQuotes q = EmptyString
  /\ (forall c, countChar c q = 0%nat \/ Chr.quote c = true).
Proof.
  intros [-> | [-> | ->]]; repeat split; try reflexivity; intros c.
  - now left.
  - destruct (Ascii.eqb Chr.dquote c) eqn:E.
    + right. apply Ascii.eqb_eq in E. now subst.
    + left. unfold dq. cbn [countChar]. now rewrite E.
  - destruct (Ascii.eqb Chr.squote c) eqn:E.
    + right. apply Ascii.eqb_eq in E. now subst.
    + left. unfold sq. cbn [countChar]. now rewrite E.
Qed.

(** The part of a comparison after the operator, [ q v q] with a leading
    space: what the tail of the patterns for [==] and [!=] consumes. *)
Lemma first_value (v q : string) :
  isPlain v -> quoteMark q ->
  first (cats (Many Chr.space)
              [Maybe Chr.quote; Group (Many1 (fun c => negb (Chr.quote c)));
               Maybe Chr.quote])
        (" " ++ (q ++ (v ++ q)))%string EmptyString
        ([] ++ ([] ++ (([] ++ [v]) ++ []))).
Proof.
  intros [Hne Hp] Hq.
  assert (Hnq : all_chars (fun c => negb (Chr.quote c)) v = true)
    by (revert Hp; apply all_chars_weaken, plain_not_quote).
  destruct v as [|c v]; [congruence|].
  assert (Hc : plainChar c = true)
    by (simpl in Hp; apply andb_true_iff in Hp; tauto).
  pose proof (plain_not_quote c Hc) as Hcq. apply negb_true_iff in Hcq.
  pose proof (plain_not_space c Hc) as Hcs. apply negb_true_iff in Hcs.
  cbn [cats].
  refine (first_cat _ _ " " (q ++ (String c v ++ q))%string _ [] _ _ _).
  - apply first_many; [reflexivity|].
    destruct Hq as [-> | [-> | ->]]; simpl; auto.
  - refine (first_cat _ _ q (String c v ++ q)%string _ [] _ _ _).
    + destruct Hq as [-> | [-> | ->]].
      * apply first_maybe_none. simpl. exact Hcq.
      * apply first_maybe_some. reflexivity.
      * apply first_maybe_some. reflexivity.
    + refine (first_cat _ _ (String c v) q _ ([] ++ [String c v]) [] _ _).
      * apply first_group. apply first_many1; [discriminate | exact Hnq |].
        destruct Hq as [-> | [-> | ->]]; simpl; auto.
      * destruct Hq as [-> | [-> | ->]].
        -- apply first_maybe_none. exact I.
        -- apply first_maybe_some. reflexivity.
        -- apply first_maybe_some. reflexivity.
Qed.

(** A comparison [f op= q v q] with single spaces around the operator:
    what the patterns for [==] and [!=] consume, and what they capture. *)
Lemma first_comparison (op : ascii) (f v q : string) :
  Chr.space op = false -> isField f -> isPlain v -> quoteMark q ->
  first (cats (Group (Many1 Chr.word))
              ([Many Chr.space; chr op; chr "="] ++ re_value))
        (f ++ (" " ++ (String op EmptyString
                       ++ ("=" ++ (" " ++ (q ++ (v ++ q)))))))%string
        EmptyString [f; v].
Proof.
  intros Hop [Hne Hw] Hv Hq. unfold re_value, chr. cbn [cats List.app].
  refine (first_cat _ _ f _ _ ([] ++ [f]) [v] _ _).
  - apply first_group. apply first_many1; [exact Hne | exact Hw | reflexivity].
  - refine (first_cat _ _ " " _ _ [] [v] _ _).
    + apply first_many; [reflexivity | exact Hop].
    + refine (first_cat _ _ (String op EmptyString) _ _ [] [v] _ _).
      * apply first_cls. apply Ascii.eqb_refl.
      * refine (first_cat _ _ "=" _ _ [] [v] _ _).
        -- apply first_cls. reflexivity.
        -- exact (first_value v q Hv Hq).
Qed.

Lemma search_comparison (op : ascii) (f v q : string) :
  Chr.space op = false -> isField f -> isPlain v -> quoteMark q ->
  search (cats (Group (Many1 Chr.word))
               ([Many Chr.space; chr op; chr "="] ++ re_value))
         (f ++ String " " (String op (String "=" (String " " (q ++ v ++ q)))))
  = Some ([f; v], EmptyString).
Proof.
  intros Hop Hf Hv Hq. apply search_at_start.
  pose proof (match_at_first _ _ _ _ (first_comparison op f v q Hop Hf Hv Hq))
    as H.
  rewrite append_nil_r in H. exact H.
Qed.

(** The characters of a canonical comparison, counted. *)
Lemma countChar_comparison (c op : ascii) (f v q : string) :
  isField f -> isPlain v -> quoteMark q ->
  plainChar c = false -> Chr.quote c = false ->
  countChar c (f ++ String " " (String op (String "=" (String " " (q ++ v ++ q)))))
  = countChar c (String " " (String op (String "=" (String " " EmptyString)))).
Proof.
  intros [_ Hw] [_ Hp] Hq Hc Hcq.
  assert (Hf0 : countChar c f = 0%nat).
  { apply (countChar_none plainChar); [exact Hc|].
    revert Hw. apply all_chars_weaken, word_plain. }
  assert (Hv0 : countChar c v = 0%nat)
    by now apply (countChar_none plainChar).
  assert (Hq0 : countChar c q = 0%nat).
  { destruct (quoteMark_cases q Hq) as (_ & _ & _ & _ & H).
    destruct (H c) as [H0|H0]; [exact H0 | congruence]. }
  rewrite countChar_append. cbn [countChar].
  rewrite !countChar_append, Hf0, Hv0, Hq0. lia.
Qed.

(** [field == value], with or without quotes around the value, is a
    required equality. *)
Lemma parse_equality (f v q : string) :
  isField f -> isPlain v -> quoteMark q ->
  parseFilterExpression (f ++ " == " ++ q ++ v ++ q)
  = (Some (Must [ {| key := f; value := v |} ]), []).
Proof.
  intros Hf Hv Hq. unfold parseFilterExpression.
  rewrite (field_not_blank f _ Hf).
  rewrite (search_none_by_count re_in "[" 1 _ lang_re_in_bracket).
  - change re_eq with (cats (Group (Many1 Chr.word))
                            ([Many Chr.space; chr "="; chr "="] ++ re_value)).
    cbn [append].
    now rewrite (search_comparison "=" f v q eq_refl Hf Hv Hq).
  - cbn [append].
    rewrite (countChar_comparison "[" "=" f v q Hf Hv Hq eq_refl eq_refl).
    vm_compute. lia.
Qed.

(** [field != value], with or without quotes around the value, is a
    negated equality. *)
Lemma parse_inequality (f v q : string) :
  isField f -> isPlain v -> quoteMark q ->
  parseFilterExpression (f ++ " != " ++ q ++ v ++ q)
  = (Some (MustNot [ {| key := f; value := v |} ]), []).
Proof.
  intros Hf Hv Hq. unfold parseFilterExpression.
  rewrite (field_not_blank f _ Hf).
  rewrite (search_none_by_count re_in "[" 1 _ lang_re_in_bracket).
  - rewrite (search_none_by_count re_eq "=" 2 _ lang_re_eq_equals).
    + change re_neq with (cats (Group (Many1 Chr.word))
                               ([Many Chr.space; chr "!"; chr "="] ++ re_value)).
      cbn [append].
      now rewrite (search_comparison "!" f v q eq_refl Hf Hv Hq).
    + cbn [append].
      rewrite (countChar_comparison "=" "!" f v q Hf Hv Hq eq_refl eq_refl).
      vm_compute. lia.
  - cbn [append].
    rewrite (countChar_comparison "[" "!" f v q Hf Hv Hq eq_refl eq_refl).
    vm_compute. lia.
Qed.

Lemma trimStart_no_space (w : string) :
  all_chars (fun c => negb (Chr.space c)) w = true -> trimStart w = w.
Proof.
  destruct w as [|c w]; simpl; [reflexivity|].
  intros H. apply andb_true_iff in H. destruct H as [Hc _].
  apply negb_true_iff in Hc. now rewrite Hc.
Qed.

Lemma removeQuotes_append (s1 s2 : string) :
  removeQuotes (s1 ++ s2) = (removeQuotes s1 ++ removeQuotes s2)%string.
Proof.
  induction s1 as [|c s1 IH]; simpl; [reflexivity|].
  destruct (Chr.quote c); simpl; now rewrite IH.
Qed.

Lemma removeQuotes_noop (s : string) : noQuotes s -> removeQuotes s = s.
Proof.
  unfold noQuotes. induction s as [|c s IH]; simpl; [reflexivity|].
  intros H. apply andb_true_iff in H. destruct H as [Hc Hs].
  apply negb_true_iff in Hc. now rewrite Hc, IH.
Qed.

(** A value between quote marks, after at most one space, is the value
    once it is trimmed and its quotes are removed. *)
Lemma unquote_item (sp q v : string) :
  sp = EmptyString \/ sp = " " -> isPlain v -> quoteMark q ->
  removeQuotes (trim (sp ++ (q ++ v ++ q))) = v.
Proof.
  intros Hsp [_ Hp] Hq.
  destruct (quoteMark_cases q Hq) as (Hqs & _ & _ & Hqr & _).
  assert (Hw : all_chars (fun c => negb (Chr.space c)) (q ++ v ++ q) = true).
  { rewrite !all_chars_append, Hqs.
    rewrite (all_chars_weaken _ _ _ plain_not_space Hp). reflexivity. }
  assert (Ht : trim (sp ++ (q ++ v ++ q)) = (q ++ v ++ q)%string).
  { unfold trim. destruct Hsp as [-> | ->]; cbn [append trimStart Chr.space].
    - now rewrite trimStart_no_space, trimEnd_no_space.
    - change (Chr.space " ") with true. cbv iota.
      now rewrite trimStart_no_space, trimEnd_no_space. }
  rewrite Ht, !removeQuotes_append, Hqr. cbn [append].
  rewrite append_nil_r. apply removeQuotes_noop.
  revert Hp. apply all_chars_weaken, plain_not_quote.
Qed.

Lemma splitChar_run (sep : ascii) (u s : string) :
  all_chars (fun c => negb (Ascii.eqb c sep)) u = true ->
  forall cur, splitChar sep (u ++ s) cur = splitChar sep s (cur ++ u).
Proof.
  induction u as [|c u IH]; simpl; intros H cur.
  - now rewrite append_nil_r.
  - apply andb_true_iff in H. destruct H as [Hc Hu].
    apply negb_true_iff in Hc. rewrite Hc, (IH Hu), append_assoc.
    reflexivity.
Qed.

Lemma item_no_comma (sp q v : string) :
  sp = EmptyString \/ sp = " " -> isPlain v -> quoteMark q ->
  all_chars (fun c => negb (Ascii.eqb c ",")) (sp ++ (q ++ v ++ q)) = true.
Proof.
  intros Hsp [_ Hp] Hq.
  destruct (quoteMark_cases q Hq) as (_ & _ & Hqc & _ & _).
  rewrite !all_chars_append, Hqc.
  rewrite (all_chars_weaken _ _ _ plain_not_comma Hp).
  destruct Hsp as [-> | ->]; reflexivity.
Qed.

(** Splitting the text between the brackets at the commas, trimming the
    pieces and removing their quotes gives the values back. *)
Lemma split_joinValues (q : string) (vs : list string) :
  quoteMark q -> Forall isPlain vs -> vs <> [] ->
  forall sp,
    sp = EmptyString \/ sp = " " ->
    map (fun v => removeQuotes (trim v))
        (splitChar "," (sp ++ joinValues q vs) EmptyString)
    = vs.
Proof.
  intros Hq Hvs. induction Hvs as [|v vs Hv Hvs IH]; [congruence|].
  intros _ sp Hsp. destruct vs as [|v2 vs].
  - cbn [joinValues].
    rewrite <- (append_nil_r (sp ++ (q ++ v ++ q))).
    rewrite (splitChar_run _ _ _ (item_no_comma sp q v Hsp Hv Hq)).
    cbn [splitChar append map]. now rewrite (unquote_item sp q v Hsp Hv Hq).
  - assert (E : (sp ++ joinValues q (v :: v2 :: vs))%string
                = ((sp ++ (q ++ v ++ q))
                   ++ String "," (" " ++ joinValues q (v2 :: vs)))%string).
    { cbn [joinValues]. rewrite !append_assoc. reflexivity. }
    rewrite E, (splitChar_run _ _ _ (item_no_comma sp q v Hsp Hv Hq)).
    cbn [splitChar]. change (Ascii.eqb "," ",") with true. cbv iota.
    cbn [map append].
    rewrite (unquote_item sp q v Hsp Hv Hq). f_equal.
    apply (IH ltac:(discriminate) " "). now right.
Qed.

Lemma joinValues_inner (q : string) (vs : list string) :
  quoteMark q -> Forall isPlain vs -> vs <> [] ->
  joinValues q vs <> EmptyString
  /\ all_chars (fun c => negb (Ascii.eqb c "]")) (joinValues q vs) = true.
Proof.
  intros Hq Hvs. destruct (quoteMark_cases q Hq) as (_ & Hqb & _ & _ & _).
  induction Hvs as [|v vs Hv Hvs IH]; [congruence|]. intros _.
  destruct Hv as [Hne Hp].
  pose proof (all_chars_weaken _ _ _ plain_not_bracket Hp) as Hvb.
  split.
  - destruct v as [|c v]; [congruence|].
    destruct vs; destruct Hq as [-> | [-> | ->]]; discriminate.
  - destruct vs as [|v2 vs].
    + cbn [joinValues]. now rewrite !all_chars_append, Hqb, Hvb.
    + destruct IH as [_ IH]; [discriminate|].
      change (joinValues q (v :: v2 :: vs))
        with (q ++ v ++ q ++ ", " ++ joinValues q (v2 :: vs))%string.
      rewrite !all_chars_append, Hqb, Hvb, IH. reflexivity.
Qed.

(** What the [in] pattern consumes and captures on a canonical
    expression. *)
Lemma first_membership (f inner : string) :
  isField f -> inner <> EmptyString ->
  all_chars (fun c => negb (Ascii.eqb c "]")) inner = true ->
  first re_in
        (f ++ (" " ++ ("i" ++ ("n" ++ (" " ++ ("[" ++ (inner ++ "]")))))))%string
        EmptyString [f; inner].
Proof.
  intros [Hne Hw] Hi Hb. unfold re_in, chr. cbn [cats].
  refine (first_cat _ _ f _ _ ([] ++ [f]) [inner] _ _).
  - apply first_group. apply first_many1; [exact Hne | exact Hw | reflexivity].
  - refine (first_cat _ _ " " _ _ [] [inner] _ _).
    + apply first_many1; [discriminate | reflexivity | reflexivity].
    + refine (first_cat _ _ "i" _ _ [] [inner] _ _);
        [apply first_cls; reflexivity|].
      refine (first_cat _ _ "n" _ _ [] [inner] _ _);
        [apply first_cls; reflexivity|].
      refine (first_cat _ _ " " _ _ [] [inner] _ _).
      * apply first_many1; [discriminate | reflexivity | reflexivity].
      * refine (first_cat _ _ "[" _ _ [] [inner] _ _);
          [apply first_cls; reflexivity|].
        refine (first_cat _ _ inner "]" _ ([] ++ [inner]) [] _ _).
        -- apply first_group.
           apply first_many1; [exact Hi | exact Hb | reflexivity].
        -- apply first_cls. reflexivity.
Qed.

(** [field in [v1, v2, ...]], with or without quotes around the values,
    is a disjunction of one equality per value. *)
Lemma parse_membership (f q : string) (vs : list string) :
  isField f -> quoteMark q -> Forall isPlain vs -> vs <> [] ->
  parseFilterExpression (f ++ " in [" ++ joinValues q vs ++ "]")
  = (Some (Should (map (fun v => {| key := f; value := v |}) vs)), []).
Proof.
  intros Hf Hq Hvs Hne. unfold parseFilterExpression.
  rewrite (field_not_blank f _ Hf).
  destruct (joinValues_inner q vs Hq Hvs Hne) as [Hi Hb].
  pose proof (match_at_first _ _ _ _
                (first_membership f (joinValues q vs) Hf Hi Hb)) as H.
  rewrite append_nil_r in H. apply search_at_start in H.
  cbn [append] in H |- *. rewrite H. cbn [cap nth Nat.sub].
  pose proof (split_joinValues q vs Hq Hvs Hne EmptyString (or_introl eq_refl))
    as Hs.
  cbn [append] in Hs. now rewrite Hs.
Qed.

(** A whitespace-only expression matches none of the three patterns and
    yields no filter, yet no warning is logged for it. *)
Lemma C8_blank_expression_logs_no_warning :
  search re_in "  " = None /\ search re_eq "  " = None
  /\ search re_neq "  " = None
  /\ parseFilterExpression "  " = (None, [])
  /\ snd (parseFilterExpression "  ") <> [WarnFilterIgnored "  "].
Proof.
  repeat split; try reflexivity. discriminate.
Qed.

(** C8: [field in [v1, v2, ...]] parses to a disjunction of one equality
    per value, [field == value] to a required equality and
    [field != value] to a negated equality, for fields of word characters
    and values of plain characters, quoted or not; the values of every
    filter are free of quote characters and a filter comes without a
    warning; an expression that is empty or whitespace only yields no
    filter and no warning; any other expression in which none of the three
    patterns is found yields no filter and one warning. *)
Theorem C8_filter_expression_parser :
  (forall f q vs,
      isField f -> quoteMark q -> Forall isPlain vs -> vs <> [] ->
      parseFilterExpression (f ++ " in [" ++ joinValues q vs ++ "]")
      = (Some (Should (map (fun v => {| key := f; value := v |}) vs)), []))
  /\ (forall f v q,
      isField f -> isPlain v -> quoteMark q ->
      parseFilterExpression (f ++ " == " ++ q ++ v ++ q)
      = (Some (Must [ {| key := f; value := v |} ]), []))
  /\ (forall f v q,
      isField f -> isPlain v -> quoteMark q ->
      parseFilterExpression (f ++ " != " ++ q ++ v ++ q)
      = (Some (MustNot [ {| key := f; value := v |} ]), []))
  /\ (forall expr flt log,
      parseFilterExpression expr = (Some flt, log) ->
      log = [] /\ Forall (fun c => noQuotes (value c)) (conditions flt))
  /\ (forall expr,
      trim expr = EmptyString -> parseFilterExpression expr = (None, []))
  /\ (forall expr,
      trim expr <> EmptyString ->
      search re_in expr = None -> search re_eq expr = None ->
      search re_neq expr = None ->
      parseFilterExpression expr = (None, [WarnFilterIgnored expr]))
  /\ (forall expr log,
      parseFilterExpression expr = (None, log) ->
      (trim expr = EmptyString /\ log = [])
      \/ (trim expr <> EmptyString /\ log = [WarnFilterIgnored expr]))
  /\ parseFilterExpression
       ("fileExtension in [" ++ dq ++ ".ts" ++ dq ++ ", "
                             ++ dq ++ ".py" ++ dq ++ "]")
     = (Some (Should [ {| key := "fileExtension"; value := ".ts" |};
                       {| key := "fileExtension"; value := ".py" |} ]), [])
  /\ parseFilterExpression ("status != " ++ dq ++ "archived" ++ dq)
     = (Some (MustNot [ {| key := "status"; value := "archived" |} ]), [])
  /\ parseFilterExpression "garbage expression"
     = (None, [WarnFilterIgnored "garbage expression"]).
Proof.
  split; [exact parse_membership|].
  split; [exact parse_equality|].
  split; [exact parse_inequality|].
  split.
  { intros expr flt log E.
    pose proof (parseFilterExpression_shape expr) as H. rewrite E in H. tauto. }
  split.
  { intros expr Hb. unfold parseFilterExpression.
    apply blank_guard in Hb. now rewrite Hb. }
  split.
  { intros expr Hb H1 H2 H3. unfold parseFilterExpression.
    rewrite H1, H2, H3.
    destruct (_ || _) eqn:B; [|reflexivity].
    apply blank_guard in B. contradiction. }
  split.
  { intros expr log E.
    pose proof (parseFilterExpression_shape expr) as H. rewrite E in H. tauto. }
  repeat split; reflexivity.
Qed.

Lemma C8_filter_expression_parser_witness :
  parseFilterExpression ("path" ++ " in [" ++ joinValues sq ["src"; "lib"] ++ "]")
  = (Some (Should [ {| key := "path"; value := "src" |};
                    {| key := "path"; value := "lib" |} ]), [])
  /\ parseFilterExpression ("fileExtension" ++ " == " ++ dq ++ ".ts" ++ dq)
     = (Some (Must [ {| key := "fileExtension"; value := ".ts" |} ]), [])
  /\ parseFilterExpression ("status" ++ " != " ++ "" ++ "archived" ++ "")
     = (Some (MustNot [ {| key := "status"; value := "archived" |} ]), [])
  /\ parseFilterExpression "?" = (None, [WarnFilterIgnored "?"])
  /\ parseFilterExpression "" = (None, []).
Proof.
  destruct C8_filter_expression_parser
    as (Hin & Heq & Hne & _ & Hblank & Hwarn & _).
  split; [|split; [|split; [|split]]].
  - apply (Hin "path" sq ["src"; "lib"]).
    + split; [discriminate | reflexivity].
    + right. now right.
    + repeat constructor; discriminate.
    + discriminate.
  - apply (Heq "fileExtension" ".ts" dq).
    + split; [discriminate | reflexivity].
    + split; [discriminate | reflexivity].
    + right. now left.
  - apply (Hne "status" "archived" "").
    + split; [discriminate | reflexivity].
    + split; [discriminate | reflexivity].
    + now left.
  - apply Hwarn; [discriminate | reflexivity | reflexivity | reflexivity].
  - apply Hblank. reflexivity.
Defined.

(* ================================================================== *)
(** * The encoder: a corpus with short documents *)
(* ================================================================== *)

Lemma floor_INR (n : nat) : floor (1 * INR n) = INR n.
Proof.
  unfold floor. rewrite Rmult_1_l, Int_part_INR. symmetry. apply INR_IZR_INZ.
Qed.

Lemma idf_short_corpus_positive : 0 < idfOf (INR 3) (INR 1).
Proof.
  unfold idfOf. rewrite <- ln_1. apply ln_increasing; [lra|]. simpl. lra.
Qed.

(** An average document length strictly between 0 and 1 arises from
    [buildVocabulary] itself, and the score emitted then is half of what
    the formula with [max(avg, 1)] gives. *)
Lemma short_corpus_scores :
  avgDocumentLength short_corpus_encoder = 1 / 3
  /\ values (fst (embed "ab" short_corpus_encoder))
     = [idfOf (INR 3) (INR 1) / 2]
  /\ bm25_spec_formula (idfOfTerm short_corpus_encoder "ab")
                       (adjustedTfOf (config short_corpus_encoder) 1)
                       (k1 (config short_corpus_encoder))
                       (b (config short_corpus_encoder))
                       (INR 1) (avgDocumentLength short_corpus_encoder)
     = idfOf (INR 3) (INR 1)
  /\ idfOf (INR 3) (INR 1) / 2 <> idfOf (INR 3) (INR 1).
Proof.
  pose proof idf_short_corpus_positive as Hpos.
  assert (Hs : short_corpus_encoder
               = {| config := unitConfig; vocabulary := [("ab", 0%Z)];
                    documentFrequency := [("ab", INR 1)];
                    totalDocuments := INR 3;
                    avgDocumentLength := INR 1 / INR 3;
                    idfCache := [("ab", idfOf (INR 3) (INR 1))];
                    isInitialized := true |}).
  { unfold short_corpus_encoder, buildVocabulary.
    cbn [config newSparseEmbedding unitConfig tokenMode maxDfRatio List.length].
    replace (countDocuments code ["ab"; ""; ""])
      with (1%nat, [("ab", [0%nat])]) by (vm_compute; reflexivity).
    cbn [fst snd fold_left selectTerm List.length minDf].
    rewrite floor_INR. change (minDf unitConfig) with 1.
    rewrite (Rleb_true 1 (INR 1)) by (simpl; lra).
    rewrite (Rleb_true (INR 1) (INR 3)) by (simpl; lra).
    reflexivity. }
  rewrite Hs. set (L := idfOf (INR 3) (INR 1)) in *.
  split; [simpl; lra|]. split; [|split].
  - unfold embed, autoInit. cbn [isInitialized config tokenMode unitConfig].
    replace (tokenize code "ab") with ["ab"] by (vm_compute; reflexivity).
    cbn [List.length]. unfold termFrequencies, scoredTerms.
    cbn [fold_left countTerm vocabulary JsMap.has JsMap.get JsMap.set
         JsMap.empty String.eqb Ascii.eqb Bool.eqb map fst snd Nat.add].
    unfold bm25, indexOf, adjustedTfOf.
    cbn [idfCache config unitConfig sublinearTf k1 b avgDocumentLength
         vocabulary JsMap.get String.eqb Ascii.eqb Bool.eqb].
    rewrite (or_default_nonzero (INR 1 / INR 3) 1) by (simpl; lra).
    cbn [filter snd]. rewrite Rltb_true by (simpl; lra).
    cbn [map snd values]. f_equal. simpl. lra.
  - unfold bm25_spec_formula, idfOfTerm, adjustedTfOf, Rmax.
    cbn [idfCache config unitConfig sublinearTf k1 b avgDocumentLength
         JsMap.get String.eqb Ascii.eqb Bool.eqb].
    destruct (Rle_dec (INR 1 / INR 3) 1); simpl in *; lra.
  - lra.
Qed.

(* ================================================================== *)
(** * Rank fusion: order of the results *)
(* ================================================================== *)

Lemma applyReranking_fused (results : JsMap.t Accumulated)
      (rerank : option RerankStrategy) :
  applyReranking results rerank = sortDesc (fusedResults results rerank).
Proof.
  unfold applyReranking, fusedResults, fusedScore.
  destruct (String.eqb (strategyOf rerank) "rrf"); [reflexivity|].
  destruct (String.eqb (strategyOf rerank) "weighted"); reflexivity.
Qed.

Lemma insertDesc_Permutation (x : HybridSearchResult) (l : list HybridSearchResult) :
  Permutation (insertDesc x l) (x :: l).
Proof.
  induction l as [|y l IH]; simpl; [reflexivity|].
  destruct (Rleb (score x) (score y)); [|reflexivity].
  rewrite IH. apply perm_swap.
Qed.

Lemma sortDesc_Permutation (l : list HybridSearchResult) :
  Permutation (sortDesc l) l.
Proof.
  unfold sortDesc.
  assert (H : forall acc,
             Permutation (fold_left (fun acc x => insertDesc x acc) l acc)
                         (acc ++ l)).
  { induction l as [|x l IH]; intros acc; simpl.
    - now rewrite app_nil_r.
    - rewrite IH, insertDesc_Permutation. apply Permutation_middle. }
  exact (H []).
Qed.

Lemma insertDesc_descending (x : HybridSearchResult) (l : list HybridSearchResult) :
  descending l -> descending (insertDesc x l).
Proof.
  unfold descending. induction l as [|y l IH]; simpl; intros Hl.
  - repeat constructor.
  - inversion Hl as [|? ? Hl' Hy]; subst.
    unfold Rleb. destruct (Rle_dec (score x) (score y)) as [Hle|Hgt].
    + constructor; [now apply IH|].
      apply Forall_forall. intros z Hz.
      apply insertDesc_In in Hz. destruct Hz as [-> | Hz]; [exact Hle|].
      rewrite Forall_forall in Hy. now apply Hy.
    + constructor; [exact Hl|].
      constructor; [lra|].
      rewrite Forall_forall in Hy |- *. intros z Hz.
      specialize (Hy z Hz). lra.
Qed.

Lemma sortDesc_descending (l : list HybridSearchResult) : descending (sortDesc l).
Proof.
  unfold sortDesc.
  assert (H : forall acc, descending acc ->
                          descending (fold_left (fun acc x => insertDesc x acc)
                                                l acc)).
  { induction l as [|x l IH]; intros acc Hacc; simpl; [exact Hacc|].
    apply IH. now apply insertDesc_descending. }
  apply H. constructor.
Qed.

(** A result that is no better than any of a descending list goes to
    its end. *)
Lemma insertDesc_last (x : HybridSearchResult) (l : list HybridSearchResult) :
  Forall (fun y => score x <= score y) l -> insertDesc x l = l ++ [x].
Proof.
  induction l as [|y l IH]; simpl; intros H; [reflexivity|].
  inversion H as [|? ? Hy Hl]; subst.
  rewrite (Rleb_true _ _ Hy), IH; auto.
Qed.

Lemma sortDesc_of_descending (l : list HybridSearchResult) :
  descending l -> sortDesc l = l.
Proof.
  unfold sortDesc, descending. intros Hl.
  assert (H : forall acc,
             StronglySorted (fun x y => score y <= score x) (acc ++ l) ->
             fold_left (fun acc x => insertDesc x acc) l acc = acc ++ l).
  { clear Hl. induction l as [|x l IH]; intros acc Hs; simpl.
    - now rewrite app_nil_r.
    - assert (Hx : Forall (fun y => score x <= score y) acc).
      { clear IH. induction acc as [|a acc IHa]; [constructor|].
        simpl in Hs. inversion Hs as [|? ? Hs' Ha]; subst.
        constructor; [|now apply IHa].
        rewrite Forall_forall in Ha. apply Ha.
        apply in_or_app. right. now left. }
      rewrite (insertDesc_last _ _ Hx), IH; rewrite <- app_assoc; auto. }
  exact (H [] Hl).
Qed.

(** X1: whatever the strategy, [applyReranking] returns the fused results
    of the accumulated documents, one per document, rearranged into
    descending order of score; results that already are in descending
    order, equal scores included, keep the order in which the documents
    were first seen. *)
Theorem applyReranking_sorts_fused_results
        (results : JsMap.t Accumulated) (rerank : option RerankStrategy) :
  Permutation (applyReranking results rerank) (fusedResults results rerank)
  /\ descending (applyReranking results rerank)
  /\ List.length (applyReranking results rerank) = JsMap.size results
  /\ (descending (fusedResults results rerank) ->
      applyReranking results rerank = fusedResults results rerank).
Proof.
  rewrite applyReranking_fused. repeat split.
  - apply sortDesc_Permutation.
  - apply sortDesc_descending.
  - rewrite (Permutation_length (sortDesc_Permutation _)).
    unfold fusedResults, JsMap.size. apply length_map.
  - apply sortDesc_of_descending.
Qed.

Lemma applyReranking_sorts_fused_results_witness :
  applyReranking example_accumulated None
  = fusedResults example_accumulated None.
Proof.
  destruct (applyReranking_sorts_fused_results example_accumulated None)
    as (_ & _ & _ & H).
  apply H. unfold descending, fusedResults, fusedScore. eval_structure.
  repeat constructor; simpl; lra.
Defined.

(* ================================================================== *)
(** * Rank fusion: the three scores *)
(* ================================================================== *)

(** One more pushed score adds the term of the next position. *)
Lemma rrfScore_snoc (k : R) (scores : list R) (x : R) :
  rrfScore k (scores ++ [x])
  = rrfScore k scores + 1 / (k + INR (List.length scores) + 1).
Proof.
  unfold rrfScore. rewrite length_app. simpl List.length.
  rewrite Nat.add_1_r, seq_S, fold_left_app. reflexivity.
Qed.

Lemma rrfScore_length (k : R) (s1 s2 : list R) :
  List.length s1 = List.length s2 -> rrfScore k s1 = rrfScore k s2.
Proof. unfold rrfScore. now intros ->. Qed.

Lemma rrf_term_positive (k : R) (n : nat) : 0 <= k -> 0 < 1 / (k + INR n + 1).
Proof.
  intros Hk. apply Rdiv_lt_0_compat; [lra|]. pose proof (pos_INR n). lra.
Qed.

Lemma rrfScore_grows (k : R) (scores extra : list R) :
  0 <= k -> extra <> [] -> rrfScore k scores < rrfScore k (scores ++ extra).
Proof.
  intros Hk. revert scores.
  induction extra as [|x extra IH]; intros scores Hne; [congruence|].
  change (x :: extra) with ([x] ++ extra). rewrite app_assoc.
  pose proof (rrf_term_positive k (List.length scores) Hk) as Hpos.
  destruct extra as [|y extra].
  - rewrite app_nil_r, rrfScore_snoc. lra.
  - specialize (IH (scores ++ [x]) ltac:(discriminate)).
    rewrite rrfScore_snoc in IH. lra.
Qed.

Lemma rrfScore_bound (k : R) (scores : list R) :
  0 <= k -> rrfScore k scores <= INR (List.length scores) / (k + 1).
Proof.
  intros Hk. induction scores as [|x scores IH] using rev_ind.
  - unfold rrfScore. simpl. lra.
  - rewrite rrfScore_snoc, length_app. simpl List.length.
    rewrite Nat.add_1_r, S_INR.
    pose proof (pos_INR (List.length scores)) as Hn.
    assert (1 / (k + INR (List.length scores) + 1) <= 1 / (k + 1)).
    { unfold Rdiv. rewrite !Rmult_1_l. apply Rinv_le_contravar; lra. }
    unfold Rdiv in *. lra.
Qed.

(** X2: under the RRF strategy with a constant [k >= 0], the fused score of a
    document depends only on the number of result lists it appeared in,
    grows strictly with that number, and stays at or below that number
    divided by [k + 1]: a document found by more channels is ranked before
    a document found by fewer, whatever their ranks and raw scores. *)
Theorem rrfScore_counts_channels (k : R) (s1 s2 : list R) :
  0 <= k ->
  (List.length s1 = List.length s2 -> rrfScore k s1 = rrfScore k s2)
  /\ ((List.length s1 < List.length s2)%nat -> rrfScore k s1 < rrfScore k s2)
  /\ 0 <= rrfScore k s1 <= INR (List.length s1) / (k + 1).
Proof.
  intros Hk. split; [apply rrfScore_length|]. split.
  - intros Hlt.
    rewrite (rrfScore_length k s2 (firstn (List.length s1) s2
                                   ++ skipn (List.length s1) s2))
      by now rewrite firstn_skipn.
    rewrite (rrfScore_length k s1 (firstn (List.length s1) s2))
      by (rewrite length_firstn; lia).
    apply rrfScore_grows; [exact Hk|].
    intros E. apply (f_equal (@List.length R)) in E.
    rewrite length_skipn in E. simpl in E. lia.
  - split; [|now apply rrfScore_bound].
    destruct s1 as [|x s1]; [unfold rrfScore; simpl; lra|].
    pose proof (rrfScore_grows k [] (x :: s1) Hk ltac:(discriminate)) as H.
    unfold rrfScore at 1 in H. simpl in H. simpl app in H. lra.
Qed.

Lemma rrfScore_counts_channels_witness :
  rrfScore 60 [9 / 10] < rrfScore 60 [1 / 10; 2 / 10].
Proof.
  destruct (rrfScore_counts_channels 60 [9 / 10] [1 / 10; 2 / 10])
    as (_ & H & _); [lra|].
  apply H. simpl. lia.
Defined.

Lemma fold_plus_shift (l : list R) (a : R) :
  fold_left Rplus l a = a + fold_left Rplus l 0.
Proof.
  revert a. induction l as [|y l IH]; intros a; simpl; [lra|].
  rewrite (IH (a + y)), (IH (0 + y)). lra.
Qed.

Lemma weightAt_missing (i len : nat) : weightAt [] i len = 1 / INR len.
Proof. unfold weightAt. now destruct i. Qed.

Lemma weighted_fold (n : nat) (scores : list R) :
  forall start acc,
    fold_left (fun acc e => acc + snd e * weightAt [] (fst e) n)
              (combine (seq start (List.length scores)) scores) acc
    = acc + fold_left Rplus scores 0 * (1 / INR n).
Proof.
  induction scores as [|x scores IH]; intros start acc; simpl; [lra|].
  rewrite IH, weightAt_missing, (fold_plus_shift scores (0 + x)). lra.
Qed.

(** X3: under the weighted strategy a weight that is missing, or given as 0,
    is replaced by [1 / n] for a document with [n] scores; with an empty
    list of weights the weighted score is the mean of the scores, the
    score of the fallback strategy. *)
Theorem weighted_without_weights_is_mean (scores : list R) :
  weightedScore [] scores = avgScore scores
  /\ (forall ws i, nth_error ws i = Some 0 ->
        weightAt ws i (List.length scores) = 1 / INR (List.length scores))
  /\ (forall ws i, nth_error ws i = None ->
        weightAt ws i (List.length scores) = 1 / INR (List.length scores))
  /\ (forall ws i w, nth_error ws i = Some w -> w <> 0 ->
        weightAt ws i (List.length scores) = w).
Proof.
  repeat split.
  - unfold weightedScore, avgScore. rewrite weighted_fold. unfold Rdiv. lra.
  - intros ws i H. unfold weightAt. rewrite H. apply or_default_zero.
  - intros ws i H. unfold weightAt. now rewrite H.
  - intros ws i w H Hw. unfold weightAt. rewrite H.
    now apply or_default_nonzero.
Qed.

Lemma weighted_without_weights_is_mean_witness :
  weightAt [5 / 10; 0] 1 2 = 1 / INR 2 /\ weightAt [5 / 10; 0] 0 2 = 5 / 10.
Proof.
  destruct (weighted_without_weights_is_mean [1; 2]) as (_ & H0 & _ & Hw).
  split.
  - apply (H0 [5 / 10; 0] 1%nat). reflexivity.
  - apply (Hw [5 / 10; 0] 0%nat (5 / 10)); [reflexivity | lra].
Defined.

(* ================================================================== *)
(** * Hybrid search: results, failures, skipped requests *)
(* ================================================================== *)

Lemma set_In {V : Type} (m : JsMap.t V) (k : string) (v : V) (e : string * V) :
  In e (JsMap.set m k v) -> e = (k, v) \/ In e m.
Proof.
  induction m as [|[k' v'] m IH]; simpl.
  - intros [<- | []]. now left.
  - destruct (String.eqb k' k) eqn:E; simpl.
    + apply String.eqb_eq in E. subst k'. intros [<- | H]; auto.
    + intros [<- | H]; auto. destruct (IH H); auto.
Qed.

Lemma recordHit_keyed (d : RequestData) (results : JsMap.t Accumulated) (h : Hit) :
  keyedById results -> keyedById (recordHit d results h).
Proof.
  intros [Hnd Hid]. unfold recordHit. split.
  - now apply NoDup_keys_set.
  - apply Forall_forall. intros e He. apply set_In in He.
    destruct He as [-> | He]; [|rewrite Forall_forall in Hid; now apply Hid].
    cbn [fst snd a_document].
    destruct (JsMap.get results _) as [entry|] eqn:G; [|reflexivity].
    apply get_In in G. rewrite Forall_forall in Hid. exact (Hid _ G).
Qed.

Lemma searchStep_keyed be collectionName options st r :
  keyedById (l_results st) ->
  keyedById (l_results (fst (searchStep be collectionName options st r))).
Proof.
  intros H. unfold searchStep.
  destruct (isHybridCollection be (l_cache st) collectionName) as [[h c] e1].
  destruct (filterOf options) as [flt e2].
  destruct (queryOf h flt (limitOf options) r) as [[q|] e3];
    [destruct (client_search be collectionName q) as [hits|]|];
    destruct (data r); simpl; try exact H.
  all: revert H; generalize (l_results st);
    induction hits as [|hit hits IH]; intros res H; simpl; [exact H|];
    apply IH; now apply recordHit_keyed.
Qed.

Lemma searchLoop_keyed be collectionName options (rs : list HybridSearchRequest) :
  forall st,
    keyedById (l_results st) ->
    keyedById (l_results (fst (searchLoop be collectionName options st rs))).
Proof.
  induction rs as [|r rs IH]; intros st H; simpl; [exact H|].
  pose proof (searchStep_keyed be collectionName options st r H) as H'.
  destruct (searchStep be collectionName options st r) as [st' [|]];
    simpl in *; [now apply IH | exact H'].
Qed.

Lemma NoDup_firstn {A : Type} (n : nat) (l : list A) :
  NoDup l -> NoDup (firstn n l).
Proof.
  intros H. rewrite <- (firstn_skipn n l) in H.
  now apply NoDup_app_remove_r in H.
Qed.

(** X4: A call that returns normally returns at most [limit] results
    ([limit] being [options.limit], or 10 when that is missing or 0), and
    no two of them carry the same document id. *)
Theorem hybridSearch_bounded_distinct
        (be : Backend) (cache : Cache) (collectionName : string)
        (rs : list HybridSearchRequest) (options : option HybridSearchOptions)
        (results : list HybridSearchResult) :
  fst (fst (hybridSearch be cache collectionName rs options)) = Some results ->
  (List.length results <= limitOf options)%nat
  /\ NoDup (map (fun r => id (document r)) results).
Proof.
  unfold hybridSearch.
  pose proof (searchLoop_keyed be collectionName options rs
                {| l_cache := cache; l_results := JsMap.empty; l_events := [] |})
    as Hk.
  destruct (searchLoop _ _ _ _ rs) as [st ok]. simpl in Hk.
  destruct ok; simpl; [|discriminate]. intros [= <-].
  split; [apply firstn_le_length|].
  rewrite <- firstn_map. apply NoDup_firstn.
  destruct Hk as [Hnd Hid]; [split; constructor|].
  set (rr := match options with Some o => o_rerank o | None => None end).
  destruct (applyReranking_sorts_fused_results (l_results st) rr) as (Hp & _).
  apply (Permutation_map (fun r => id (document r))) in Hp.
  apply (Permutation_NoDup (Permutation_sym Hp)).
  unfold fusedResults. rewrite map_map. cbn [document].
  replace (map (fun e => id (a_document (snd e))) (l_results st))
    with (JsMap.keys (l_results st)); [exact Hnd|].
  unfold JsMap.keys. apply map_ext_in. intros e He.
  rewrite Forall_forall in Hid. symmetry. now apply Hid.
Qed.

Lemma hybridSearch_bounded_distinct_witness :
  exists results,
    fst (fst (hybridSearch two_channel_backend [] "c" two_channel_requests None))
    = Some results
    /\ (List.length results <= 10)%nat
    /\ NoDup (map (fun r => id (document r)) results).
Proof.
  destruct (fst (fst (hybridSearch two_channel_backend [] "c"
                                   two_channel_requests None)))
    as [results|] eqn:E.
  - exists results. split; [reflexivity|].
    exact (hybridSearch_bounded_distinct _ _ _ _ _ _ E).
  - exfalso. revert E. eval_reals. discriminate.
Defined.

Lemma isHybridCollection_answered (be : Backend) (cache : Cache)
      (collectionName : string) :
  Forall (answered be) (snd (isHybridCollection be cache collectionName)).
Proof.
  unfold isHybridCollection. destruct (existsb _ cache); [constructor|].
  destruct (client_getCollection be collectionName) as [[|]|];
    repeat constructor.
Qed.

Lemma filterOf_answered (be : Backend) (options : option HybridSearchOptions) :
  Forall (answered be) (snd (filterOf options)).
Proof.
  unfold filterOf. destruct options as [[l [[|c e]|] r]|]; try constructor.
  unfold parseFilterExpression.
  destruct (_ || _); [constructor|].
  destruct (search re_in _) as [[? ?]|]; [constructor|].
  destruct (search re_eq _) as [[? ?]|]; [constructor|].
  destruct (search re_neq _) as [[? ?]|]; repeat constructor.
Qed.

Lemma queryOf_answered (be : Backend) isHybrid flt lim r :
  Forall (answered be) (snd (queryOf isHybrid flt lim r)).
Proof.
  unfold queryOf. destruct (_ || _).
  - destruct (data r) as [t|v|sv]; repeat constructor.
    destruct (indices sv); repeat constructor.
  - destruct (data r); repeat constructor.
Qed.

(** One turn of the loop: either it goes well and every event so far is
    answered, or the last event is the search that threw. *)
Lemma searchStep_outcome be collectionName options st r :
  Forall (answered be) (l_events st) ->
  let '(st', ok) := searchStep be collectionName options st r in
  if ok then Forall (answered be) (l_events st')
  else exists evs q,
      l_events st' = evs ++ [CallSearch collectionName q]
      /\ Forall (answered be) evs
      /\ client_search be collectionName q = None.
Proof.
  intros H. unfold searchStep.
  pose proof (isHybridCollection_answered be (l_cache st) collectionName) as H1.
  pose proof (filterOf_answered be options) as H2.
  destruct (isHybridCollection be (l_cache st) collectionName) as [[h c] e1].
  destruct (filterOf options) as [flt e2].
  pose proof (queryOf_answered be h flt (limitOf options) r) as H3.
  destruct (queryOf h flt (limitOf options) r) as [[q|] e3]; simpl in *.
  - destruct (client_search be collectionName q) as [hits|] eqn:S;
      destruct (data r); simpl;
      try (apply Forall_app; split; [exact H | repeat constructor]);
      try (repeat (apply Forall_app; split); auto; repeat constructor;
           simpl; congruence);
      try (exists (l_events st ++ e1 ++ e2 ++ e3), q;
           repeat split; auto; repeat (apply Forall_app; split); auto).
  - destruct (data r); simpl;
      try (apply Forall_app; split; [exact H | repeat constructor]);
      repeat (apply Forall_app; split); auto.
Qed.

Lemma searchLoop_outcome be collectionName options (rs : list HybridSearchRequest) :
  forall st,
    Forall (answered be) (l_events st) ->
    let '(st', ok) := searchLoop be collectionName options st rs in
    if ok then Forall (answered be) (l_events st')
    else exists evs q,
        l_events st' = evs ++ [CallSearch collectionName q]
        /\ Forall (answered be) evs
        /\ client_search be collectionName q = None.
Proof.
  induction rs as [|r rs IH]; intros st H; simpl; [exact H|].
  pose proof (searchStep_outcome be collectionName options st r H) as Hs.
  destruct (searchStep be collectionName options st r) as [st' [|]].
  - now apply IH.
  - exact Hs.
Qed.

(** X5: A call returns normally exactly when the backend answered every
    search it issued; it throws exactly when a search threw, and that
    search is then the last backend call of the call: no request after it
    is looked at, and the error is logged once, at the end. *)
Theorem hybridSearch_stops_at_first_failure
        (be : Backend) (cache : Cache) (collectionName : string)
        (rs : list HybridSearchRequest) (options : option HybridSearchOptions) :
  let out := hybridSearch be cache collectionName rs options in
  match fst (fst out) with
  | Some _ => Forall (answered be) (snd out)
  | None =>
      exists evs q,
        snd out = evs ++ [CallSearch collectionName q; ErrorHybridSearch]
        /\ Forall (answered be) evs
        /\ client_search be collectionName q = None
  end.
Proof.
  cbv zeta. unfold hybridSearch.
  pose proof (searchLoop_outcome be collectionName options rs
                {| l_cache := cache; l_results := JsMap.empty; l_events := [] |}
                (Forall_nil _)) as H.
  destruct (searchLoop _ _ _ _ rs) as [st [|]]; simpl.
  - exact H.
  - destruct H as (evs & q & -> & Hevs & Hq). exists evs, q.
    rewrite <- app_assoc. now repeat split.
Qed.

(** X6: the collection mode is asked of the backend until the answer is
    yes: a positive answer is cached and later calls answer from the
    cache without a backend call; a negative answer, and a failure of the
    backend, which is taken for a negative answer, leave the cache as it
    was; the cache never loses a name. *)
Theorem isHybridCollection_caches_positive_answers
        (be : Backend) (cache : Cache) (collectionName : string) :
  let '(answer, cache', events) := isHybridCollection be cache collectionName in
  (forall name, In name cache -> In name cache')
  /\ (answer = true ->
      In collectionName cache'
      /\ forall be', isHybridCollection be' cache' collectionName
                     = (true, cache', []))
  /\ (answer = false ->
      cache' = cache /\ events = [CallGetCollection collectionName]
      /\ client_getCollection be collectionName <> Some true)
  /\ (client_getCollection be collectionName = None ->
      answer = existsb (String.eqb collectionName) cache /\ cache' = cache).
Proof.
  unfold isHybridCollection.
  destruct (existsb (String.eqb collectionName) cache) eqn:E.
  - repeat split; auto; try discriminate.
    + apply existsb_exists in E. destruct E as [x [Hx E]].
      apply String.eqb_eq in E. now subst.
    + intros be'. now rewrite E.
  - destruct (client_getCollection be collectionName) as [[|]|] eqn:G;
      repeat split; auto; try discriminate; try congruence.
    + intros name H. unfold JsSet.add. rewrite E. apply in_or_app. now left.
    + unfold JsSet.add. rewrite E. apply in_or_app. right. now left.
    + intros be'. unfold JsSet.add. rewrite E, existsb_app. simpl.
      now rewrite String.eqb_refl, orb_true_r.
Qed.

Lemma isHybridCollection_caches_positive_answers_witness :
  isHybridCollection accepting_backend
                     (snd (fst (isHybridCollection two_channel_backend [] "c")))
                     "c"
  = (true, ["c"], []).
Proof.
  pose proof (isHybridCollection_caches_positive_answers
                two_channel_backend [] "c") as H.
  cbv beta iota delta [isHybridCollection two_channel_backend
                       client_getCollection existsb JsSet.add app] in H.
  destruct H as (_ & H & _).
  destruct (H eq_refl) as [_ H']. exact (H' accepting_backend).
Defined.

Lemma countOr_positive (n : option nat) (d : nat) :
  (1 <= d)%nat -> (1 <= countOr n d)%nat.
Proof. intros H. destruct n as [[|m]|]; simpl; lia. Qed.

Lemma limitOf_positive (options : option HybridSearchOptions) :
  (1 <= limitOf options)%nat.
Proof.
  unfold limitOf. destruct options as [o|]; [|lia].
  apply countOr_positive. lia.
Qed.

Lemma queryOf_wellFormed be cache collectionName options r q evs :
  queryOf (hybridAnswer be cache collectionName) (fst (filterOf options))
          (limitOf options) r = (Some q, evs) ->
  wellFormedSearch be cache collectionName options (CallSearch collectionName q).
Proof.
  unfold queryOf. pose proof (limitOf_positive options) as Hl.
  pose proof (countOr_positive (limit r) _ Hl) as Hc.
  destruct (_ || _).
  - destruct (data r) as [t|v|sv]; try discriminate.
    destruct (indices sv) as [|i ix] eqn:E; [discriminate|].
    intros [= <- _]. simpl. rewrite E. repeat split; auto. discriminate.
  - destruct (data r) as [t|v|sv]; try discriminate.
    intros [= <- _]. simpl. repeat split; auto.
    destruct (hybridAnswer be cache collectionName) eqn:H; simpl; auto.
Qed.

Lemma searchStep_wellFormed be cache collectionName options st r :
  hybridAnswer be (l_cache st) collectionName
  = hybridAnswer be cache collectionName ->
  Forall (wellFormedSearch be cache collectionName options) (l_events st) ->
  let st' := fst (searchStep be collectionName options st r) in
  hybridAnswer be (l_cache st') collectionName
  = hybridAnswer be cache collectionName
  /\ Forall (wellFormedSearch be cache collectionName options) (l_events st').
Proof.
  intros Ha He. cbv zeta. unfold searchStep.
  pose proof (hybridAnswer_stable be collectionName (l_cache st)) as Hs.
  assert (Hh : fst (fst (isHybridCollection be (l_cache st) collectionName))
               = hybridAnswer be cache collectionName) by exact Ha.
  assert (H1 : Forall (wellFormedSearch be cache collectionName options)
                      (snd (isHybridCollection be (l_cache st) collectionName))).
  { unfold isHybridCollection. destruct (existsb _ _); [constructor|].
    destruct (client_getCollection be collectionName) as [[|]|];
      repeat constructor. }
  assert (H2 : Forall (wellFormedSearch be cache collectionName options)
                      (snd (filterOf options))).
  { unfold filterOf. destruct options as [[l [[|c e]|] rr]|]; try constructor.
    unfold parseFilterExpression.
    destruct (_ || _); [constructor|].
    destruct (search re_in _) as [[? ?]|]; [constructor|].
    destruct (search re_eq _) as [[? ?]|]; [constructor|].
    destruct (search re_neq _) as [[? ?]|]; repeat constructor. }
  destruct (isHybridCollection be (l_cache st) collectionName) as [[h c] e1].
  simpl in Hs, Hh, H1. subst h.
  pose proof (queryOf_wellFormed be cache collectionName options r) as Hq.
  destruct (filterOf options) as [flt e2]. simpl in H2, Hq.
  assert (H3 : forall q e3,
             queryOf (hybridAnswer be cache collectionName) flt
                     (limitOf options) r = (q, e3) ->
             Forall (wellFormedSearch be cache collectionName options) e3).
  { unfold queryOf. intros q e3. destruct (_ || _).
    - destruct (data r) as [t|v|sv]; try (intros [= <- <-]; repeat constructor).
      destruct (indices sv); intros [= <- <-]; repeat constructor.
    - destruct (data r); intros [= <- <-]; repeat constructor. }
  destruct (queryOf (hybridAnswer be cache collectionName) flt
                    (limitOf options) r) as [[q|] e3] eqn:Q.
  - specialize (Hq q e3 eq_refl). specialize (H3 _ _ eq_refl).
    destruct (client_search be collectionName q); destruct (data r); simpl;
      (split; [congruence|]);
      repeat (apply Forall_app; split); auto; repeat constructor.
  - specialize (H3 _ _ eq_refl).
    destruct (data r); simpl; (split; [congruence|]);
      repeat (apply Forall_app; split); auto; repeat constructor.
Qed.

Lemma searchLoop_wellFormed be cache collectionName options
      (rs : list HybridSearchRequest) :
  forall st,
    hybridAnswer be (l_cache st) collectionName
    = hybridAnswer be cache collectionName ->
    Forall (wellFormedSearch be cache collectionName options) (l_events st) ->
    Forall (wellFormedSearch be cache collectionName options)
           (l_events (fst (searchLoop be collectionName options st rs))).
Proof.
  induction rs as [|r rs IH]; intros st Ha He; simpl; [exact He|].
  destruct (searchStep_wellFormed be cache collectionName options st r Ha He)
    as [Ha' He'].
  destruct (searchStep be collectionName options st r) as [st' [|]];
    simpl in *; [now apply IH | exact He'].
Qed.

(** X7: every backend search of one call goes to the collection of the call,
    carries the filter parsed from [options.filterExpr] and a limit of at
    least 1, and addresses its vector by name: a sparse vector, never an
    empty one, always under the name of the sparse channel, also when the
    collection is not hybrid; a dense vector under the name of the dense
    channel when the collection is hybrid, and without a name when it is
    not. *)
Theorem hybridSearch_searches_wellFormed
        (be : Backend) (cache : Cache) (collectionName : string)
        (rs : list HybridSearchRequest) (options : option HybridSearchOptions) :
  Forall (wellFormedSearch be cache collectionName options)
         (snd (hybridSearch be cache collectionName rs options)).
Proof.
  unfold hybridSearch.
  pose proof (searchLoop_wellFormed be cache collectionName options rs
                {| l_cache := cache; l_results := JsMap.empty; l_events := [] |}
                eq_refl (Forall_nil _)) as H.
  destruct (searchLoop _ _ _ _ rs) as [st [|]]; simpl in *; [exact H|].
  apply Forall_app. split; [exact H | repeat constructor].
Qed.

Lemma searchStep_text be collectionName options st r :
  isTextRequest r = true ->
  searchStep be collectionName options st r
  = ({| l_cache := l_cache st; l_results := l_results st;
        l_events := l_events st ++ [WarnTextSkipped] |}, true).
Proof.
  unfold isTextRequest, searchStep. destruct (data r); try discriminate.
  reflexivity.
Qed.

Lemma searchStep_sameButTextWarnings be collectionName options st1 st2 r :
  sameButTextWarnings st1 st2 ->
  snd (searchStep be collectionName options st1 r)
  = snd (searchStep be collectionName options st2 r)
  /\ sameButTextWarnings (fst (searchStep be collectionName options st1 r))
                         (fst (searchStep be collectionName options st2 r)).
Proof.
  destruct st1 as [c1 r1 e1], st2 as [c2 r2 e2].
  intros (Hc & Hr & He). simpl in Hc, Hr, He. subst c2 r2.
  unfold searchStep, sameButTextWarnings. cbn [l_cache l_results l_events].
  destruct (isHybridCollection be c1 collectionName) as [[h c] ev1].
  destruct (filterOf options) as [flt ev2].
  destruct (queryOf h flt (limitOf options) r) as [[q|] ev3];
    [destruct (client_search be collectionName q) as [hits|]|];
    destruct (data r); cbn [fst snd l_cache l_results l_events];
    rewrite ?filter_app, He; repeat split; reflexivity.
Qed.

Lemma searchLoop_skips_text be collectionName options
      (rs : list HybridSearchRequest) :
  forall st1 st2,
    sameButTextWarnings st1 st2 ->
    snd (searchLoop be collectionName options st1 rs)
    = snd (searchLoop be collectionName options st2
                      (filter (fun r => negb (isTextRequest r)) rs))
    /\ sameButTextWarnings
         (fst (searchLoop be collectionName options st1 rs))
         (fst (searchLoop be collectionName options st2
                          (filter (fun r => negb (isTextRequest r)) rs))).
Proof.
  induction rs as [|r rs IH]; intros st1 st2 Hst.
  - simpl. now split.
  - cbn [filter searchLoop]. destruct (isTextRequest r) eqn:E; cbn [negb].
    + rewrite (searchStep_text _ _ _ _ _ E). apply IH.
      destruct Hst as (Hc & Hr & He). unfold sameButTextWarnings.
      cbn [l_cache l_results l_events]. rewrite filter_app, He. simpl.
      now rewrite app_nil_r.
    + cbn [searchLoop].
      destruct (searchStep_sameButTextWarnings be collectionName options
                                               st1 st2 r Hst) as [Hok Hs].
      destruct (searchStep be collectionName options st1 r) as [st1' ok1].
      destruct (searchStep be collectionName options st2 r) as [st2' ok2].
      simpl in Hok, Hs. subst ok2. destruct ok1; [now apply IH | now split].
Qed.

(** X8: A request whose data is text costs a warning and nothing else: the
    call returns the same results, leaves the same cache and, warnings
    about text requests apart, makes the same backend calls with the same
    console output in the same order as the call without its text
    requests; in particular a text request never reaches the backend. *)
Theorem hybridSearch_skips_text_requests
        (be : Backend) (cache : Cache) (collectionName : string)
        (rs : list HybridSearchRequest) (options : option HybridSearchOptions) :
  let full := hybridSearch be cache collectionName rs options in
  let rest := hybridSearch be cache collectionName
                           (filter (fun r => negb (isTextRequest r)) rs)
                           options in
  fst full = fst rest
  /\ filter notTextWarning (snd full) = filter notTextWarning (snd rest).
Proof.
  cbv zeta. unfold hybridSearch.
  set (st0 := {| l_cache := cache; l_results := JsMap.empty; l_events := [] |}).
  assert (H0 : sameButTextWarnings st0 st0) by now repeat split.
  destruct (searchLoop_skips_text be collectionName options rs st0 st0 H0)
    as [Hok (Hc & Hr & He)].
  destruct (searchLoop be collectionName options st0 rs) as [st1 ok1].
  destruct (searchLoop be collectionName options st0
                       (filter (fun r => negb (isTextRequest r)) rs))
    as [st2 ok2].
  simpl in Hok, Hc, Hr, He. subst ok2.
  destruct ok1; simpl; rewrite ?filter_app, ?Hc, ?Hr, ?He; now split.
Qed.

(* ================================================================== *)
(** * Insertion in batches *)
(* ================================================================== *)

Lemma batches_nth (size : nat) :
  forall fuel points j,
    (List.length points <= fuel)%nat ->
    nth j (batches fuel (S size) points) []
    = firstn (S size) (skipn (S size * j) points).
Proof.
  induction fuel as [|fuel IH]; intros points j Hlen.
  - destruct points; [|simpl in Hlen; lia].
    rewrite skipn_nil, firstn_nil. now destruct j.
  - destruct points as [|p points].
    + rewrite skipn_nil, firstn_nil. now destruct j.
    + cbn [batches]. destruct j as [|j].
      * rewrite Nat.mul_0_r. reflexivity.
      * cbn [nth]. rewrite IH.
        -- rewrite skipn_skipn. f_equal. f_equal. lia.
        -- rewrite length_skipn. simpl in *. lia.
Qed.

Lemma batches_count :
  forall fuel points,
    (List.length points <= fuel)%nat ->
    List.length (batches fuel 100 points) = ((List.length points + 99) / 100)%nat.
Proof.
  induction fuel as [|fuel IH]; intros points Hlen.
  - destruct points; [reflexivity | simpl in Hlen; lia].
  - destruct points as [|p points]; [reflexivity|].
    cbn [batches List.length]. rewrite IH.
    + rewrite length_skipn. cbn [List.length].
      set (n := List.length points). clearbody n.
      pose proof (Nat.div_mod_eq (S n - 100 + 99) 100).
      pose proof (Nat.div_mod_eq (S n + 99) 100).
      pose proof (Nat.mod_upper_bound (S n - 100 + 99) 100).
      pose proof (Nat.mod_upper_bound (S n + 99) 100).
      nia.
    + rewrite length_skipn. simpl in *. lia.
Qed.

(** X9: the points of an insert go to the backend in batches: batch number
    [j] is [points.slice(100 j, 100 j + 100)], there are
    [ceil(n / 100)] batches for [n] points, none of them empty and none
    longer than 100, and together they are the points in their order. *)
Theorem insert_batches_of_100 (points : list Point) :
  let bs := batches (List.length points) 100 points in
  List.length bs = ((List.length points + 99) / 100)%nat
  /\ (forall j, nth j bs [] = firstn 100 (skipn (100 * j) points))
  /\ Forall (fun batch => (1 <= List.length batch <= 100)%nat) bs
  /\ List.concat bs = points.
Proof.
  cbv zeta. split; [now apply batches_count|].
  split; [intros j; now apply batches_nth|].
  split; [|now apply concat_batches].
  assert (H : forall fuel ps,
             Forall (fun batch => (1 <= List.length batch <= 100)%nat)
                    (batches fuel 100 ps)).
  { induction fuel as [|fuel IH]; intros ps; [constructor|].
    destruct ps as [|p ps]; [constructor|].
    cbn [batches]. constructor; [|apply IH].
    rewrite length_firstn. simpl List.length. lia. }
  apply H.
Qed.

(** The batch loop: the upserts made are those of a prefix of the
    batches; all of them when every upsert is accepted, and otherwise the
    accepted ones followed by the first one that throws. *)
Lemma upsertAll_outcome (be : Backend) (collectionName : string)
      (bs : list (list Point)) :
  let '(ok, evs) := upsertAll be collectionName bs in
  exists sent later,
    bs = sent ++ later /\ evs = map (CallUpsert collectionName) sent
    /\ if ok
       then later = []
            /\ Forall (fun b => client_upsert be collectionName b = true) sent
       else exists accepted failing,
           sent = accepted ++ [failing]
           /\ Forall (fun b => client_upsert be collectionName b = true) accepted
           /\ client_upsert be collectionName failing = false.
Proof.
  induction bs as [|b bs IH]; simpl.
  - exists [], []. repeat split; constructor.
  - destruct (client_upsert be collectionName b) eqn:U.
    + destruct (upsertAll be collectionName bs) as [ok evs].
      destruct IH as (sent & later & -> & -> & H).
      exists (b :: sent), later. repeat split.
      destruct ok.
      * destruct H as [-> H]. split; [reflexivity | now constructor].
      * destruct H as (accepted & failing & -> & Ha & Hf).
        exists (b :: accepted), failing. repeat split; auto.
    + exists [b], bs. repeat split. exists [], b. repeat split; auto.
Qed.

Lemma upsertedBatches_map (collectionName : string) (bs : list (list Point)) :
  upsertedBatches (map (CallUpsert collectionName) bs) = bs.
Proof. induction bs as [|b bs IH]; simpl; [reflexivity | now rewrite IH]. Qed.

Lemma upsertedBatches_app (e1 e2 : list Event) :
  upsertedBatches (e1 ++ e2) = upsertedBatches e1 ++ upsertedBatches e2.
Proof.
  induction e1 as [|e e1 IH]; simpl; [reflexivity|].
  destruct e; simpl; now rewrite IH.
Qed.

(** X10: [insertHybrid] and [insert] upsert batch after batch and stop at the
    first upsert that throws: the call then fails, the batches before the
    failing one were accepted by the backend and stay inserted, and no
    later batch is sent; the call succeeds exactly when every batch was
    accepted, and then all points were sent. *)
Theorem insert_stops_at_first_failing_batch
        (be : Backend) (clock : Clock) (collectionName : string)
        (documents : list VectorDocument) :
  (let '(ok, evs) := insertHybrid be clock collectionName documents in
   let points := hybridPoints clock documents in
   exists later,
     List.concat (upsertedBatches evs) ++ later = points
     /\ if ok
        then later = []
             /\ Forall (fun b => client_upsert be collectionName b = true)
                       (upsertedBatches evs)
        else exists accepted failing,
            upsertedBatches evs = accepted ++ [failing]
            /\ Forall (fun b => client_upsert be collectionName b = true)
                      accepted
            /\ client_upsert be collectionName failing = false
            /\ exists before, evs = before ++ [ErrorInsertHybrid])
  /\ (let '(ok, evs) := insert be clock collectionName documents in
      let points := plainPoints clock documents in
      exists later,
        List.concat (upsertedBatches evs) ++ later = points
        /\ if ok
           then later = []
                /\ Forall (fun b => client_upsert be collectionName b = true)
                          (upsertedBatches evs)
           else exists accepted failing,
               upsertedBatches evs = accepted ++ [failing]
               /\ Forall (fun b => client_upsert be collectionName b = true)
                         accepted
               /\ client_upsert be collectionName failing = false).
Proof.
  split.
  - unfold insertHybrid. set (points := hybridPoints clock documents).
    pose proof (upsertAll_outcome be collectionName
                  (batches (List.length points) 100 points)) as H.
    pose proof (concat_batches 99 (List.length points) points (le_n _)) as Hc.
    destruct (upsertAll be collectionName _) as [ok evs].
    destruct H as (sent & later & Hb & -> & H).
    rewrite Hb, concat_app in Hc.
    destruct ok; cbv iota beta; exists (List.concat later).
    + rewrite upsertedBatches_app, upsertedBatches_map. simpl.
      rewrite app_nil_r. split; [exact Hc|].
      destruct H as [-> H]. now split.
    + rewrite upsertedBatches_app, upsertedBatches_map. simpl.
      rewrite app_nil_r. split; [exact Hc|].
      destruct H as (accepted & failing & -> & Ha & Hf).
      exists accepted, failing. split; [reflexivity|].
      split; [exact Ha|]. split; [exact Hf|]. now eexists.
  - unfold insert. set (points := plainPoints clock documents).
    pose proof (upsertAll_outcome be collectionName
                  (batches (List.length points) 100 points)) as H.
    pose proof (concat_batches 99 (List.length points) points (le_n _)) as Hc.
    destruct (upsertAll be collectionName _) as [ok evs].
    destruct H as (sent & later & Hb & -> & H).
    rewrite Hb, concat_app in Hc. rewrite upsertedBatches_map.
    exists (List.concat later). split; [exact Hc|].
    destruct ok; [destruct H as [-> H]; now split|].
    destruct H as (accepted & failing & -> & Ha & Hf).
    exists accepted, failing. now repeat split.
Qed.


(* ================================================================== *)
(** * Point ids: hexadecimal digits *)
(* ================================================================== *)

Lemma length_take (n : nat) (s : string) :
  String.length (take n s) = Nat.min n (String.length s).
Proof.
  revert s. induction n as [|n IH]; intros s; [reflexivity|].
  destruct s as [|c s]; simpl; [reflexivity | now rewrite IH].
Qed.

Lemma length_drop (n : nat) (s : string) :
  String.length (drop n s) = (String.length s - n)%nat.
Proof.
  revert s. induction n as [|n IH]; intros s; simpl; [lia|].
  destruct s as [|c s]; simpl; [reflexivity | apply IH].
Qed.

Lemma length_repeat_char (c : ascii) (n : nat) :
  String.length (repeat_char c n) = n.
Proof. induction n as [|n IH]; simpl; [reflexivity | now rewrite IH]. Qed.

Lemma length_padStart0 (n : nat) (s : string) :
  String.length (padStart0 n s) = Nat.max n (String.length s).
Proof.
  unfold padStart0. rewrite length_append, length_repeat_char. lia.
Qed.

Lemma all_chars_take (p : ascii -> bool) (n : nat) (s : string) :
  all_chars p s = true -> all_chars p (take n s) = true.
Proof.
  revert s. induction n as [|n IH]; intros s H; [reflexivity|].
  destruct s as [|c s]; simpl in *; [reflexivity|].
  apply andb_true_iff in H. destruct H as [Hc Hs]. now rewrite Hc, IH.
Qed.

Lemma all_chars_drop (p : ascii -> bool) (n : nat) (s : string) :
  all_chars p s = true -> all_chars p (drop n s) = true.
Proof.
  revert s. induction n as [|n IH]; intros s H; [exact H|].
  destruct s as [|c s]; simpl in *; [reflexivity|].
  apply andb_true_iff in H. destruct H as [_ Hs]. now apply IH.
Qed.

Lemma all_chars_padStart0 (n : nat) (s : string) :
  all_chars isHexChar s = true -> all_chars isHexChar (padStart0 n s) = true.
Proof.
  intros H. unfold padStart0. rewrite all_chars_append, H, andb_true_r.
  induction (n - String.length s)%nat as [|m IH]; [reflexivity|].
  simpl. exact IH.
Qed.

Lemma hexDigit_isHex (d : Z) : (0 <= d < 16)%Z -> isHexChar (hexDigit d) = true.
Proof.
  intros H.
  assert (C : (d = 0 \/ d = 1 \/ d = 2 \/ d = 3 \/ d = 4 \/ d = 5 \/ d = 6
              \/ d = 7 \/ d = 8 \/ d = 9 \/ d = 10 \/ d = 11 \/ d = 12
              \/ d = 13 \/ d = 14 \/ d = 15)%Z) by lia.
  repeat (destruct C as [-> | C]; [reflexivity | idtac]). now subst.
Qed.

Lemma hexDigit_injective (d e : Z) :
  (0 <= d < 16)%Z -> (0 <= e < 16)%Z -> hexDigit d = hexDigit e -> d = e.
Proof.
  intros Hd He.
  assert (C : (d = 0 \/ d = 1 \/ d = 2 \/ d = 3 \/ d = 4 \/ d = 5 \/ d = 6
              \/ d = 7 \/ d = 8 \/ d = 9 \/ d = 10 \/ d = 11 \/ d = 12
              \/ d = 13 \/ d = 14 \/ d = 15)%Z) by lia.
  assert (D : (e = 0 \/ e = 1 \/ e = 2 \/ e = 3 \/ e = 4 \/ e = 5 \/ e = 6
              \/ e = 7 \/ e = 8 \/ e = 9 \/ e = 10 \/ e = 11 \/ e = 12
              \/ e = 13 \/ e = 14 \/ e = 15)%Z) by lia.
  clear Hd He.
  repeat (destruct C as [-> | C]);
    repeat (destruct D as [-> | D]); subst;
    vm_compute; intros; congruence.
Qed.

Lemma hexDigits_isHex :
  forall fuel z acc,
    (0 <= z)%Z -> all_chars isHexChar acc = true ->
    all_chars isHexChar (hexDigits fuel z acc) = true.
Proof.
  induction fuel as [|fuel IH]; intros z acc Hz Hacc; cbn [hexDigits].
  - cbn [all_chars]. rewrite Hacc, andb_true_r.
    apply hexDigit_isHex. apply Z.mod_pos_bound. lia.
  - destruct (z <? 16)%Z eqn:E.
    + apply Z.ltb_lt in E. cbn [all_chars]. rewrite Hacc, andb_true_r.
      apply hexDigit_isHex. lia.
    + apply IH; [apply Z.div_pos; lia|].
      cbn [all_chars]. rewrite Hacc, andb_true_r.
      apply hexDigit_isHex. apply Z.mod_pos_bound. lia.
Qed.

Lemma toString16_isHex (z : Z) :
  (0 <= z)%Z -> all_chars isHexChar (toString16 z) = true.
Proof.
  intros Hz. unfold toString16.
  destruct (z <? 0)%Z eqn:E; [apply Z.ltb_lt in E; lia|].
  now apply hexDigits_isHex.
Qed.

Lemma hexDigits_acc :
  forall fuel z acc,
    hexDigits fuel z acc = (hexDigits fuel z EmptyString ++ acc)%string.
Proof.
  induction fuel as [|fuel IH]; intros z acc; cbn [hexDigits]; [reflexivity|].
  destruct (z <? 16)%Z; [reflexivity|].
  rewrite IH, (IH _ (String _ EmptyString)), append_assoc. reflexivity.
Qed.

Lemma hexDigits_fuel (z : Z) (acc : string) :
  (0 <= z)%Z ->
  forall extra fuel,
    (Z.log2 z <= Z.of_nat fuel)%Z ->
    hexDigits (fuel + extra) z acc = hexDigits fuel z acc.
Proof.
  intros Hz. induction extra as [|extra IH]; intros fuel Hf.
  - now rewrite Nat.add_0_r.
  - rewrite Nat.add_succ_r, <- Nat.add_succ_l, IH by lia.
    now apply hexDigits_enough.
Qed.

Lemma toString16_digit (z : Z) :
  (0 <= z < 16)%Z -> toString16 z = String (hexDigit z) EmptyString.
Proof.
  intros Hz. unfold toString16.
  destruct (z <? 0)%Z eqn:E; [apply Z.ltb_lt in E; lia|].
  destruct (Z.to_nat (Z.log2 z)) as [|fuel]; cbn [hexDigits].
  - now rewrite Z.mod_small by lia.
  - destruct (z <? 16)%Z eqn:E'; [reflexivity|]. apply Z.ltb_ge in E'. lia.
Qed.

(** The digits of a number are those of its sixteenth followed by its
    last digit. *)
Lemma toString16_step (z : Z) :
  (16 <= z)%Z ->
  toString16 z
  = (toString16 (z / 16) ++ String (hexDigit (z mod 16)) EmptyString)%string.
Proof.
  intros Hz. unfold toString16.
  destruct (z <? 0)%Z eqn:E; [apply Z.ltb_lt in E; lia|].
  assert (Hq : (0 <= z / 16)%Z) by (apply Z.div_pos; lia).
  destruct (z / 16 <? 0)%Z eqn:E'; [apply Z.ltb_lt in E'; lia|].
  assert (Hl : (Z.log2 (z / 16) = Z.log2 z - 4)%Z).
  { change 16%Z with (2 ^ 4)%Z. rewrite <- Z.shiftr_div_pow2 by lia.
    rewrite Z.log2_shiftr by lia.
    assert (Z.log2 16 <= Z.log2 z)%Z by (apply Z.log2_le_mono; lia).
    change (Z.log2 16) with 4%Z in *. lia. }
  assert (H4 : (4 <= Z.log2 z)%Z).
  { assert (Z.log2 16 <= Z.log2 z)%Z by (apply Z.log2_le_mono; lia).
    now change (Z.log2 16) with 4%Z in *. }
  destruct (Z.to_nat (Z.log2 z)) as [|fuel] eqn:F; [lia|].
  cbn [hexDigits].
  destruct (z <? 16)%Z eqn:E''; [apply Z.ltb_lt in E''; lia|].
  rewrite hexDigits_acc. f_equal.
  replace fuel with (Z.to_nat (Z.log2 (z / 16)) + 3)%nat by lia.
  apply hexDigits_fuel; lia.
Qed.

Lemma toString16_length_le (k : nat) :
  forall z, (0 <= z < 16 ^ Z.of_nat (S k))%Z ->
            (String.length (toString16 z) <= S k)%nat.
Proof.
  induction k as [|k IH]; intros z Hz.
  - rewrite toString16_digit by (change (16 ^ Z.of_nat 1)%Z with 16%Z in Hz; lia).
    simpl. lia.
  - destruct (Z_lt_ge_dec z 16) as [Hs|Hb].
    + rewrite toString16_digit by lia. simpl. lia.
    + rewrite toString16_step by lia. rewrite length_append. simpl.
      assert (String.length (toString16 (z / 16)) <= S k)%nat; [|lia].
      apply IH. split; [apply Z.div_pos; lia|].
      apply Z.div_lt_upper_bound; [lia|].
      replace (Z.of_nat (S (S k))) with (1 + Z.of_nat (S k))%Z in Hz by lia.
      rewrite Z.pow_add_r in Hz by lia. change (16 ^ 1)%Z with 16%Z in Hz. lia.
Qed.

Lemma toString16_length_ge (k : nat) :
  forall z, (16 ^ Z.of_nat k <= z)%Z ->
            (S k <= String.length (toString16 z))%nat.
Proof.
  induction k as [|k IH]; intros z Hz.
  - change (16 ^ Z.of_nat 0)%Z with 1%Z in Hz.
    destruct (Z_lt_ge_dec z 16) as [Hs|Hb].
    + rewrite toString16_digit by lia. simpl. lia.
    + rewrite toString16_step by lia. rewrite length_append. simpl. lia.
  - assert (Hp : (16 ^ Z.of_nat (S k) = 16 * 16 ^ Z.of_nat k)%Z).
    { replace (Z.of_nat (S k)) with (1 + Z.of_nat k)%Z by lia.
      rewrite Z.pow_add_r by lia. reflexivity. }
    assert (0 < 16 ^ Z.of_nat k)%Z by (apply Z.pow_pos_nonneg; lia).
    rewrite toString16_step by lia. rewrite length_append. simpl.
    assert (S k <= String.length (toString16 (z / 16)))%nat; [|lia].
    apply IH. apply Z.div_le_lower_bound; lia.
Qed.

(* ================================================================== *)
(** * Point ids: shape and dependence on the clock *)
(* ================================================================== *)

Lemma drop_append (w t : string) : drop (String.length w) (w ++ t) = t.
Proof.
  induction w as [|c w IH]; simpl; [now destruct t | exact IH].
Qed.

Lemma append_cancel_l (a x y : string) :
  (a ++ x)%string = (a ++ y)%string -> x = y.
Proof.
  induction a as [|c a IH]; simpl; [auto|]. intros [= H]. now apply IH.
Qed.

Lemma string_last (s : string) :
  s <> EmptyString ->
  exists w c, s = (w ++ String c EmptyString)%string.
Proof.
  induction s as [|c s IH]; [congruence|]. intros _.
  destruct s as [|d s].
  - now exists EmptyString, c.
  - destruct IH as (w & e & ->); [discriminate|].
    now exists (String c w), e.
Qed.

(** The three digits the clock contributes: the last three hexadecimal
    digits of its reading. *)
Lemma clock_digits (now : Z) :
  (4096 <= now)%Z ->
  slice_from 1 (slice_last 4 (toString16 now))
  = String (hexDigit ((now / 256) mod 16))
      (String (hexDigit ((now / 16) mod 16))
         (String (hexDigit (now mod 16)) EmptyString)).
Proof.
  intros Hn.
  assert (H1 : (16 <= now / 16)%Z) by (Z.div_mod_to_equations; lia).
  assert (H2 : (16 <= now / 16 / 16)%Z) by (Z.div_mod_to_equations; lia).
  assert (H3 : (1 <= now / 16 / 16 / 16)%Z) by (Z.div_mod_to_equations; lia).
  rewrite (toString16_step now) by lia.
  rewrite (toString16_step (now / 16)) by lia.
  rewrite (toString16_step (now / 16 / 16)) by lia.
  pose proof (toString16_length_ge 0 (now / 16 / 16 / 16) H3) as Hl.
  destruct (string_last (toString16 (now / 16 / 16 / 16))) as (w & c & ->).
  { intros E. rewrite E in Hl. simpl in Hl. lia. }
  rewrite !append_assoc. cbn [append].
  unfold slice_last, slice_from. rewrite length_append. cbn [String.length].
  replace (String.length w + 4 - 4)%nat with (String.length w) by lia.
  rewrite drop_append. cbn [drop].
  rewrite (Z.div_div now 16 16) by lia. reflexivity.
Qed.

Lemma hex_group_of (n : nat) (z : Z) :
  (0 <= z)%Z -> hexGroup n (slice0 n (padStart0 n (toString16 z))).
Proof.
  intros Hz. unfold hexGroup, slice0.
  rewrite length_take, length_padStart0. split; [lia|].
  now apply all_chars_take, all_chars_padStart0, toString16_isHex.
Qed.

(** X12: for a string of fewer than 65536 code units and a clock reading of
    at least 4096, the point id has the layout of a UUID: 36 characters,
    five groups of 8, 4, 4, 4 and 12 lowercase hexadecimal digits with
    hyphens between them, the third group beginning with the digit 4. *)
Theorem stringToUuid_has_uuid_layout (now : Z) (str : string) :
  (4096 <= now)%Z -> (Z.of_nat (String.length str) < 65536)%Z ->
  exists g1 g2 g3 g4 g5,
    stringToUuid now str
    = (g1 ++ "-" ++ g2 ++ "-4" ++ g3 ++ "-" ++ g4 ++ "-" ++ g5)%string
    /\ hexGroup 8 g1 /\ hexGroup 4 g2 /\ hexGroup 3 g3 /\ hexGroup 4 g4
    /\ hexGroup 12 g5
    /\ String.length (stringToUuid now str) = 36%nat.
Proof.
  intros Hn Hs. unfold stringToUuid.
  set (hash := fold_left hashStep (charCodes str) 0%Z).
  set (fullHash := fold_left fullHashStep (charCodes str) 0%Z).
  pose proof (hex_group_of 8 (Z.abs hash) (Z.abs_nonneg _)) as G1.
  pose proof (hex_group_of 4 (Z.abs fullHash) (Z.abs_nonneg _)) as G4.
  pose proof (hex_group_of 12 (Z.abs (sar32 fullHash 16)) (Z.abs_nonneg _)) as G5.
  assert (G2 : hexGroup 4 (padStart0 4 (toString16
                                         (Z.of_nat (String.length str))))).
  { split.
    - rewrite length_padStart0.
      pose proof (toString16_length_le 3 (Z.of_nat (String.length str))) as H.
      change (16 ^ Z.of_nat 4)%Z with 65536%Z in H. lia.
    - apply all_chars_padStart0, toString16_isHex. lia. }
  assert (G3 : hexGroup 3 (slice_from 1 (slice_last 4 (toString16 now)))).
  { rewrite clock_digits by exact Hn. split; [reflexivity|].
    cbn [all_chars].
    rewrite !hexDigit_isHex by (apply Z.mod_pos_bound; lia). reflexivity. }
  eexists _, _, _, _, _. split; [reflexivity|].
  repeat split; try apply G1; try apply G2; try apply G3; try apply G4;
    try apply G5.
  rewrite !length_append.
  destruct G1 as [-> _], G2 as [-> _], G3 as [-> _], G4 as [-> _],
           G5 as [-> _].
  reflexivity.
Qed.

Lemma stringToUuid_has_uuid_layout_witness :
  String.length (stringToUuid 1700000000000 "chunk_1") = 36%nat.
Proof.
  destruct (stringToUuid_has_uuid_layout 1700000000000 "chunk_1")
    as (g1 & g2 & g3 & g4 & g5 & _ & _ & _ & _ & _ & _ & H).
  - lia.
  - simpl. lia.
  - exact H.
Defined.

(** X13: two ids computed for the same string are equal exactly when the two
    clock readings agree modulo 4096 milliseconds: an id computed by
    [delete] names the point [insert] wrote only if the clock has the
    same last three hexadecimal digits at both moments. *)
Theorem stringToUuid_equal_iff_clock_window (now1 now2 : Z) (str : string) :
  (4096 <= now1)%Z -> (4096 <= now2)%Z ->
  (stringToUuid now1 str = stringToUuid now2 str
   <-> (now1 mod 4096 = now2 mod 4096)%Z).
Proof.
  intros H1 H2. unfold stringToUuid.
  rewrite (clock_digits now1 H1), (clock_digits now2 H2).
  assert (B1 : forall n, (0 <= (n / 256) mod 16 < 16)%Z)
    by (intros n; apply Z.mod_pos_bound; lia).
  assert (B2 : forall n, (0 <= (n / 16) mod 16 < 16)%Z)
    by (intros n; apply Z.mod_pos_bound; lia).
  assert (B3 : forall n, (0 <= n mod 16 < 16)%Z)
    by (intros n; apply Z.mod_pos_bound; lia).
  split.
  - intros E.
    repeat (apply append_cancel_l in E).
    cbn [append] in E. injection E as E1 E2 E3.
    apply hexDigit_injective in E1, E2, E3; auto.
    revert E1 E2 E3. clear. intros. Z.div_mod_to_equations. lia.
  - intros E.
    assert (D1 : ((now1 / 256) mod 16 = (now2 / 256) mod 16)%Z)
      by (revert E; clear; intros; Z.div_mod_to_equations; lia).
    assert (D2 : ((now1 / 16) mod 16 = (now2 / 16) mod 16)%Z)
      by (revert E; clear; intros; Z.div_mod_to_equations; lia).
    assert (D3 : (now1 mod 16 = now2 mod 16)%Z)
      by (revert E; clear; intros; Z.div_mod_to_equations; lia).
    now rewrite D1, D2, D3.
Qed.

Lemma stringToUuid_equal_iff_clock_window_witness :
  stringToUuid 1700000000000 "a" = stringToUuid 1700000004096 "a".
Proof.
  apply (stringToUuid_equal_iff_clock_window 1700000000000 1700000004096 "a");
    [lia | lia | reflexivity].
Defined.

(* ================================================================== *)
(** * The filter parser: where a value ends *)
(* ================================================================== *)

Lemma first_value_verbatim (q v tail : string) :
  v <> EmptyString -> noQuotes v -> opensValue q v -> closesValue tail ->
  exists close rest,
    tail = (close ++ rest)%string
    /\ first (cats (Many Chr.space)
                   [Maybe Chr.quote;
                    Group (Many1 (fun c => negb (Chr.quote c)));
                    Maybe Chr.quote])
             (" " ++ (q ++ (v ++ close)))%string rest
             ([] ++ ([] ++ (([] ++ [v]) ++ []))).
Proof.
  intros Hne Hnq Hq Ht.
  destruct v as [|c v]; [congruence|].
  assert (Hc : Chr.quote c = false).
  { unfold noQuotes in Hnq. simpl in Hnq. apply andb_true_iff in Hnq.
    destruct Hnq as [H _]. now apply negb_true_iff in H. }
  assert (Hclose : exists close rest,
             tail = (close ++ rest)%string
             /\ stops (fun c => negb (Chr.quote c)) (close ++ rest)
             /\ first (Maybe Chr.quote) close rest []).
  { destruct Ht as [-> | (d & t & -> & Hd)].
    - exists EmptyString, EmptyString. repeat split.
      apply first_maybe_none. exact I.
    - exists (String d EmptyString), t. repeat split.
      + simpl. now rewrite Hd.
      + now apply first_maybe_some. }
  destruct Hclose as (close & rest & -> & Hstop & Hlast).
  exists close, rest. split; [reflexivity|]. cbn [cats].
  refine (first_cat _ _ " " (q ++ (String c v ++ close))%string _ [] _ _ _).
  - apply first_many; [reflexivity|].
    destruct Hq as [[-> Hs] | (d & -> & Hd)]; simpl.
    + exact Hs.
    + revert d Hd. by_char_cases.
  - refine (first_cat _ _ q (String c v ++ close)%string _ [] _ _ _).
    + destruct Hq as [[-> Hs] | (d & -> & Hd)].
      * apply first_maybe_none. simpl. exact Hc.
      * now apply first_maybe_some.
    + refine (first_cat _ _ (String c v) close _ ([] ++ [String c v]) [] _ _).
      * apply first_group. apply first_many1; [discriminate | exact Hnq |].
        exact Hstop.
      * exact Hlast.
Qed.

Lemma search_comparison_verbatim (op : ascii) (f q v tail : string) :
  Chr.space op = false -> isField f ->
  v <> EmptyString -> noQuotes v -> opensValue q v -> closesValue tail ->
  exists rest,
    search (cats (Group (Many1 Chr.word))
                 ([Many Chr.space; chr op; chr "="] ++ re_value))
           (f ++ String " " (String op (String "=" (String " " (q ++ v ++ tail)))))
    = Some ([f; v], rest).
Proof.
  intros Hop [Hne Hw] Hv Hnq Hq Ht.
  destruct (first_value_verbatim q v tail Hv Hnq Hq Ht)
    as (close & rest & -> & Hfirst).
  exists rest. apply search_at_start.
  assert (F : first (cats (Group (Many1 Chr.word))
                          ([Many Chr.space; chr op; chr "="] ++ re_value))
                    (f ++ (" " ++ (String op EmptyString
                                   ++ ("=" ++ (" " ++ (q ++ (v ++ close)))))))%string
                    rest [f; v]).
  { unfold re_value, chr. cbn [cats List.app].
    refine (first_cat _ _ f _ _ ([] ++ [f]) [v] _ _).
    - apply first_group.
      apply first_many1; [exact Hne | exact Hw | reflexivity].
    - refine (first_cat _ _ " " _ _ [] [v] _ _).
      + apply first_many; [reflexivity | exact Hop].
      + refine (first_cat _ _ (String op EmptyString) _ _ [] [v] _ _).
        * apply first_cls. apply Ascii.eqb_refl.
        * refine (first_cat _ _ "=" _ _ [] [v] _ _).
          -- apply first_cls. reflexivity.
          -- exact Hfirst. }
  apply match_at_first in F. rewrite <- F. f_equal.
  rewrite !append_assoc. cbn [append]. now rewrite ?append_assoc.
Qed.

(** X14: in a comparison the value is taken verbatim: without an opening
    quote it runs to the end of the expression or to the first quote
    character, spaces and further operators included; after an opening
    quote it runs to the next quote character of either kind, and
    whatever follows that is ignored. *)
Theorem comparison_value_runs_to_quote (f q v tail : string) :
  isField f -> v <> EmptyString -> noQuotes v ->
  opensValue q v -> closesValue tail ->
  countChar "[" (q ++ v ++ tail) = 0%nat ->
  parseFilterExpression (f ++ " == " ++ q ++ v ++ tail)
  = (Some (Must [ {| key := f; value := v |} ]), [])
  /\ (countChar "=" (q ++ v ++ tail) = 0%nat ->
      parseFilterExpression (f ++ " != " ++ q ++ v ++ tail)
      = (Some (MustNot [ {| key := f; value := v |} ]), [])).
Proof.
  intros Hf Hv Hnq Hq Ht Hb.
  assert (Hcount : forall c op,
             plainChar c = false ->
             countChar c (f ++ String " " (String op (String "="
                            (String " " (q ++ v ++ tail)))))
             = (countChar c (String " " (String op (String "=" (String " "
                                                       EmptyString))))
                + countChar c (q ++ v ++ tail))%nat).
  { intros c op Hc. destruct Hf as [_ Hw].
    rewrite countChar_append.
    rewrite (countChar_none plainChar c f Hc)
      by (revert Hw; apply all_chars_weaken, word_plain).
    cbn [countChar]. lia. }
  split.
  - unfold parseFilterExpression. rewrite (field_not_blank f _ Hf).
    cbn [append].
    rewrite (search_none_by_count re_in "[" 1 _ lang_re_in_bracket)
      by (rewrite (Hcount "["%char "="%char eq_refl), Hb; vm_compute; lia).
    destruct (search_comparison_verbatim "=" f q v tail eq_refl Hf Hv Hnq Hq Ht)
      as [rest E].
    change re_eq with (cats (Group (Many1 Chr.word))
                            ([Many Chr.space; chr "="; chr "="] ++ re_value)).
    now rewrite E.
  - intros He. unfold parseFilterExpression. rewrite (field_not_blank f _ Hf).
    cbn [append].
    rewrite (search_none_by_count re_in "[" 1 _ lang_re_in_bracket)
      by (rewrite (Hcount "["%char "!"%char eq_refl), Hb; vm_compute; lia).
    rewrite (search_none_by_count re_eq "=" 2 _ lang_re_eq_equals)
      by (rewrite (Hcount "="%char "!"%char eq_refl), He; vm_compute; lia).
    destruct (search_comparison_verbatim "!" f q v tail eq_refl Hf Hv Hnq Hq Ht)
      as [rest E].
    change re_neq with (cats (Group (Many1 Chr.word))
                             ([Many Chr.space; chr "!"; chr "="] ++ re_value)).
    now rewrite E.
Qed.

Lemma comparison_value_runs_to_quote_witness :
  parseFilterExpression ("path" ++ " == " ++ "" ++ "src core  " ++ "")
  = (Some (Must [ {| key := "path"; value := "src core  " |} ]), [])
  /\ parseFilterExpression ("lang" ++ " != " ++ sq ++ "ts" ++ (dq ++ " or more"))
     = (Some (MustNot [ {| key := "lang"; value := "ts" |} ]), []).
Proof.
  split.
  - apply (comparison_value_runs_to_quote "path" "" "src core  " "").
    + split; [discriminate | reflexivity].
    + discriminate.
    + reflexivity.
    + left. split; reflexivity.
    + now left.
    + reflexivity.
  - apply (comparison_value_runs_to_quote "lang" sq "ts" (dq ++ " or more")).
    + split; [discriminate | reflexivity].
    + discriminate.
    + reflexivity.
    + right. exists Chr.squote. split; reflexivity.
    + right. exists Chr.dquote, " or more". split; reflexivity.
    + reflexivity.
    + reflexivity.
Defined.

(* ================================================================== *)
(** * The encoder: what [buildVocabulary] counts and keeps *)
(* ================================================================== *)

Lemma existsb_add (x y : string) (acc : list string) :
  existsb (String.eqb x) (JsSet.add String.eqb y acc)
  = existsb (String.eqb x) acc || String.eqb x y.
Proof.
  unfold JsSet.add. destruct (existsb (String.eqb y) acc) eqn:E.
  - destruct (String.eqb x y) eqn:Exy; [|now rewrite orb_false_r].
    apply String.eqb_eq in Exy. subst y. now rewrite E.
  - rewrite existsb_app. simpl. now rewrite orb_false_r.
Qed.

Lemma existsb_of_list_from (x : string) (l : list string) :
  forall acc,
    existsb (String.eqb x)
            (fold_left (fun acc y => JsSet.add String.eqb y acc) l acc)
    = existsb (String.eqb x) acc || existsb (String.eqb x) l.
Proof.
  induction l as [|y l IH]; intros acc; simpl.
  - now rewrite orb_false_r.
  - rewrite IH, existsb_add. now rewrite orb_assoc.
Qed.

Lemma existsb_of_list (x : string) (l : list string) :
  existsb (String.eqb x) (JsSet.of_list String.eqb l)
  = existsb (String.eqb x) l.
Proof. unfold JsSet.of_list. now rewrite existsb_of_list_from. Qed.

Lemma add_again (i : nat) (ds : list nat) :
  JsSet.add Nat.eqb i (JsSet.add Nat.eqb i ds) = JsSet.add Nat.eqb i ds.
Proof.
  unfold JsSet.add. destruct (existsb (Nat.eqb i) ds) eqn:E.
  - now rewrite E.
  - rewrite existsb_app, E. simpl. now rewrite Nat.eqb_refl.
Qed.

Lemma add_new (i : nat) (ds : list nat) :
  Forall (fun j => (j < i)%nat) ds -> JsSet.add Nat.eqb i ds = ds ++ [i].
Proof.
  intros H. unfold JsSet.add.
  destruct (existsb (Nat.eqb i) ds) eqn:E; [|reflexivity].
  apply existsb_exists in E. destruct E as (j & Hin & Hj).
  apply Nat.eqb_eq in Hj. subst j.
  rewrite Forall_forall in H. apply H in Hin. lia.
Qed.

(** The inner loop of [buildVocabulary]: the document index joins the set
    of every term of the document, and no other set changes. *)
Lemma termDocs_after_document (i : nat) (terms : list string) :
  forall (td : JsMap.t (list nat)) (term : string),
    JsMap.get
      (fold_left
         (fun td term =>
            let docs := match JsMap.get td term with
                        | Some ds => ds
                        | None => []
                        end in
            JsMap.set td term (JsSet.add Nat.eqb i docs))
         terms td) term
    = if existsb (String.eqb term) terms
      then Some (JsSet.add Nat.eqb i
                           match JsMap.get td term with
                           | Some ds => ds
                           | None => []
                           end)
      else JsMap.get td term.
Proof.
  induction terms as [|h terms IH]; intros td term; [reflexivity|].
  cbn [fold_left existsb]. rewrite IH. cbv zeta.
  destruct (String.eqb term h) eqn:E.
  - apply String.eqb_eq in E. subst h. rewrite get_set_same. cbn [orb].
    destruct (existsb (String.eqb term) terms); [|reflexivity].
    now rewrite add_again.
  - apply String.eqb_neq in E.
    rewrite get_set_other by congruence. reflexivity.
Qed.

Lemma docFrequency_snoc mode (pre : list string) (d term : string) :
  docFrequency mode (pre ++ [d]) term
  = (docFrequency mode pre term + if mentions mode term d then 1 else 0)%nat.
Proof.
  unfold docFrequency. rewrite filter_app, length_app. simpl.
  destruct (mentions mode term d); reflexivity.
Qed.

Lemma counted_step mode (pre : list string) (d : string) (total : nat)
      (td : JsMap.t (list nat)) :
  counted mode pre td ->
  counted mode (pre ++ [d])
          (snd (countDocument mode (total, td) (List.length pre, d))).
Proof.
  intros H term. unfold countDocument. cbn [snd].
  rewrite termDocs_after_document, existsb_of_list, docFrequency_snoc.
  fold (mentions mode term d). specialize (H term).
  rewrite length_app. cbn [List.length].
  destruct (mentions mode term d).
  - destruct (JsMap.get td term) as [ds|].
    + destruct H as (Hl & Hp & Hb). rewrite (add_new _ _ Hb).
      rewrite length_app. cbn [List.length]. repeat split; try lia.
      apply Forall_app. split.
      * revert Hb. apply Forall_impl. intros; lia.
      * constructor; [lia | constructor].
    + cbn. repeat split; try lia. constructor; [lia | constructor].
  - destruct (JsMap.get td term) as [ds|].
    + destruct H as (Hl & Hp & Hb). repeat split; try lia.
      revert Hb. apply Forall_impl. intros; lia.
    + lia.
Qed.

Lemma countDocuments_from mode (rest : list string) :
  forall (pre : list string) (total : nat) (td : JsMap.t (list nat)),
    counted mode pre td ->
    let r := fold_left (countDocument mode)
                       (combine (seq (List.length pre) (List.length rest)) rest)
                       (total, td) in
    counted mode (pre ++ rest) (snd r)
    /\ fst r = (total + totalTokens mode rest)%nat.
Proof.
  induction rest as [|d rest IH]; intros pre total td H; cbv zeta.
  - cbn. rewrite app_nil_r. split; [exact H | unfold totalTokens; cbn; lia].
  - cbn [List.length seq combine fold_left].
    pose proof (counted_step mode pre d total td H) as Hs.
    destruct (countDocument mode (total, td) (List.length pre, d))
      as [total' td'] eqn:E.
    assert (Et : total' = (total + List.length (tokenize mode d))%nat).
    { unfold countDocument in E. now inversion E. }
    cbn [snd] in Hs.
    replace (S (List.length pre)) with (List.length (pre ++ [d]))
      by (rewrite length_app; cbn; lia).
    destruct (IH (pre ++ [d]) total' td' Hs) as [H1 H2].
    rewrite <- app_assoc in H1. cbn [List.app] in H1.
    split; [exact H1|]. rewrite H2, Et.
    unfold totalTokens, list_sum. cbn [map fold_right]. lia.
Qed.

(** The first loop of [buildVocabulary] counts, for every term, the
    documents that mention it, and sums the token counts. *)
Lemma countDocuments_counted mode (documents : list string) :
  counted mode documents (snd (countDocuments mode documents))
  /\ fst (countDocuments mode documents) = totalTokens mode documents.
Proof.
  unfold countDocuments.
  assert (H0 : counted mode [] (@JsMap.empty (list nat)))
    by (intros term; reflexivity).
  exact (countDocuments_from mode documents [] 0%nat JsMap.empty H0).
Qed.

(** The second loop of [buildVocabulary]: a term enters the three tables
    together, exactly when its document count passes the test. *)
Lemma selectTerm_tables cfg N maxDf (l : list (string * list nat)) :
  NoDup (JsMap.keys l) ->
  forall (tb : Tables) (term : string),
    let tb' := fold_left (selectTerm cfg N maxDf) l tb in
    let kept :=
      match JsMap.get l term with
      | Some docs =>
          let df := INR (List.length docs) in
          if Rleb (minDf cfg) df && Rleb df maxDf
          then Some (df, idfOf N df)
          else None
      | None => None
      end in
    match kept with
    | Some (df, idf) =>
        JsMap.has (t_vocabulary tb') term = true
        /\ JsMap.get (t_df tb') term = Some df
        /\ JsMap.get (t_idf tb') term = Some idf
    | None =>
        JsMap.has (t_vocabulary tb') term = JsMap.has (t_vocabulary tb) term
        /\ JsMap.get (t_df tb') term = JsMap.get (t_df tb) term
        /\ JsMap.get (t_idf tb') term = JsMap.get (t_idf tb) term
    end.
Proof.
  induction l as [|[k docs] l IH]; intros Hnd tb term; cbv zeta.
  - cbn. now repeat split.
  - cbn [fold_left JsMap.get]. cbn [JsMap.keys map fst] in Hnd.
    inversion Hnd as [|? ? Hk Hnd']; subst.
    specialize (IH Hnd' (selectTerm cfg N maxDf tb (k, docs)) term).
    cbv zeta in IH.
    destruct (String.eqb k term) eqn:E.
    + apply String.eqb_eq in E. subst k.
      apply get_None_keys in Hk. unfold JsMap.keys in IH.
      rewrite Hk in IH. destruct IH as (I1 & I2 & I3).
      rewrite I1, I2, I3. unfold selectTerm.
      destruct (Rleb (minDf cfg) (INR (List.length docs))
                && Rleb (INR (List.length docs)) maxDf).
      * cbn [t_vocabulary t_df t_idf]. unfold JsMap.has.
        rewrite !get_set_same. now repeat split.
      * now repeat split.
    + apply String.eqb_neq in E.
      assert (Same :
        JsMap.has (t_vocabulary (selectTerm cfg N maxDf tb (k, docs))) term
        = JsMap.has (t_vocabulary tb) term
        /\ JsMap.get (t_df (selectTerm cfg N maxDf tb (k, docs))) term
           = JsMap.get (t_df tb) term
        /\ JsMap.get (t_idf (selectTerm cfg N maxDf tb (k, docs))) term
           = JsMap.get (t_idf tb) term).
      { unfold selectTerm.
        destruct (Rleb (minDf cfg) (INR (List.length docs))
                  && Rleb (INR (List.length docs)) maxDf).
        - cbn [t_vocabulary t_df t_idf]. unfold JsMap.has.
          rewrite !get_set_other by exact E. now repeat split.
        - now repeat split. }
      destruct Same as (S1 & S2 & S3).
      destruct (JsMap.get l term) as [docs'|].
      * destruct (Rleb (minDf cfg) (INR (List.length docs'))
                  && Rleb (INR (List.length docs')) maxDf).
        -- exact IH.
        -- now rewrite <- S1, <- S2, <- S3.
      * now rewrite <- S1, <- S2, <- S3.
Qed.

(** The tables of a rebuilt encoder, term by term. *)
Lemma buildVocabulary_tables (d : string) (ds : list string)
      (s : SparseEmbedding) (term : string) :
  let documents := d :: ds in
  let s' := buildVocabulary documents s in
  let n := List.length documents in
  let df := docFrequency (tokenMode (config s)) documents term in
  match keepsTerm (config s) n df with
  | true =>
      JsMap.has (vocabulary s') term = true
      /\ JsMap.get (documentFrequency s') term = Some (INR df)
      /\ JsMap.get (idfCache s') term = Some (idfOf (INR n) (INR df))
  | false =>
      JsMap.has (vocabulary s') term = false
      /\ JsMap.get (documentFrequency s') term = None
      /\ JsMap.get (idfCache s') term = None
  end.
Proof.
  cbv zeta. unfold buildVocabulary.
  cbn [vocabulary documentFrequency idfCache].
  set (documents := d :: ds). set (mode := tokenMode (config s)).
  pose proof (selectTerm_tables (config s) (INR (List.length documents))
                (floor (maxDfRatio (config s) * INR (List.length documents)))
                (snd (countDocuments mode documents))
                (countDocuments_NoDup mode documents) emptyTables term) as T.
  cbv zeta in T.
  destruct (countDocuments_counted mode documents) as [C _].
  specialize (C term). unfold keepsTerm.
  destruct (JsMap.get (snd (countDocuments mode documents)) term) as [docs|].
  - destruct C as (Cl & Cp & _). rewrite <- Cl.
    assert (P : Nat.ltb 0 (List.length docs) = true)
      by (apply Nat.ltb_lt; exact Cp).
    rewrite P. cbn [andb].
    destruct (Rleb (minDf (config s)) (INR (List.length docs))
              && Rleb (INR (List.length docs))
                      (floor (maxDfRatio (config s)
                              * INR (List.length documents)))); exact T.
  - rewrite C. cbn [Nat.ltb Nat.leb andb]. exact T.
Qed.



Lemma docFrequency_le mode (documents : list string) (term : string) :
  (docFrequency mode documents term <= List.length documents)%nat.
Proof. unfold docFrequency. apply filter_length_le. Qed.

Lemma idfOf_positive (n df : nat) :
  (df <= n)%nat -> 0 < idfOf (INR n) (INR df).
Proof.
  intros H. apply le_INR in H. pose proof (pos_INR df) as Hd.
  unfold idfOf. rewrite <- ln_1. apply ln_increasing; [lra|].
  assert (0 < (INR n - INR df + 5 / 10) / (INR df + 5 / 10))
    by (apply Rdiv_lt_0_compat; lra).
  lra.
Qed.

Lemma keepsTerm_positive cfg (n df : nat) :
  keepsTerm cfg n df = true -> (1 <= df)%nat.
Proof.
  unfold keepsTerm. intros H.
  apply andb_true_iff in H. destruct H as [H _].
  apply andb_true_iff in H. destruct H as [H _].
  apply Nat.ltb_lt in H. lia.
Qed.

(** X16: every cached IDF is strictly positive, whatever the parameters; it
    belongs to a term of the vocabulary whose recorded document frequency
    lies between 1 and the number of documents. *)
Theorem buildVocabulary_idf_positive
        (documents : list string) (s : SparseEmbedding)
        (term : string) (idf : R) :
  let s' := buildVocabulary documents s in
  JsMap.get (idfCache s') term = Some idf ->
  0 < idf
  /\ JsMap.has (vocabulary s') term = true
  /\ exists df, JsMap.get (documentFrequency s') term = Some df
                /\ 1 <= df <= totalDocuments s'.
Proof.
  cbv zeta. destruct documents as [|d ds]; [discriminate|].
  pose proof (buildVocabulary_tables d ds s term) as T. cbv zeta in T.
  pose proof (docFrequency_le (tokenMode (config s)) (d :: ds) term) as Hle.
  destruct (keepsTerm (config s) (List.length (d :: ds))
                      (docFrequency (tokenMode (config s)) (d :: ds) term))
    eqn:K; destruct T as (T1 & T2 & T3); rewrite T3; [|discriminate].
  intros E. apply keepsTerm_positive in K.
  replace idf
    with (idfOf (INR (List.length (d :: ds)))
                (INR (docFrequency (tokenMode (config s)) (d :: ds) term)))
    by congruence.
  split; [now apply idfOf_positive|]. split; [exact T1|].
  eexists. split; [exact T2|].
  change (totalDocuments (buildVocabulary (d :: ds) s))
    with (INR (List.length (d :: ds))).
  split; [change 1 with (INR 1) | ]; now apply le_INR.
Qed.

Lemma buildVocabulary_idf_positive_witness :
  0 < idfOf (INR 3) (INR 1)
  /\ JsMap.has (vocabulary short_corpus_encoder) "ab" = true.
Proof.
  assert (E : JsMap.get (idfCache (buildVocabulary
                                     ["ab"; ""; ""]
                                     (newSparseEmbedding unitConfig))) "ab"
              = Some (idfOf (INR 3) (INR 1))).
  { unfold buildVocabulary.
    cbn [config newSparseEmbedding unitConfig tokenMode maxDfRatio List.length].
    replace (countDocuments code ["ab"; ""; ""])
      with (1%nat, [("ab", [0%nat])]) by (vm_compute; reflexivity).
    cbn [fst snd fold_left selectTerm List.length minDf].
    rewrite floor_INR. change (minDf unitConfig) with 1.
    rewrite (Rleb_true 1 (INR 1)) by (simpl; lra).
    rewrite (Rleb_true (INR 1) (INR 3)) by (simpl; lra).
    reflexivity. }
  destruct (buildVocabulary_idf_positive
              ["ab"; ""; ""] (newSparseEmbedding unitConfig) "ab"
              (idfOf (INR 3) (INR 1)) E) as (H1 & H2 & _).
  split; [exact H1 | exact H2].
Defined.

(* ================================================================== *)
(** * The encoder: [embed] before [buildVocabulary] *)
(* ================================================================== *)

Lemma floor_below (x : R) : floor x <= x.
Proof. unfold floor. destruct (base_Int_part x) as [H _]. exact H. Qed.

(** With one document, no term passes the test when [maxDfRatio] is
    below 1. *)
Lemma keepsTerm_single cfg (df : nat) :
  maxDfRatio cfg < 1 -> keepsTerm cfg 1 df = false.
Proof.
  intros H. unfold keepsTerm. destruct df as [|df]; [reflexivity|].
  rewrite (Rleb_false (INR (S df))).
  - now rewrite andb_false_r.
  - pose proof (floor_below (maxDfRatio cfg * INR 1)) as F.
    pose proof (pos_INR df) as P. rewrite (S_INR df).
    change (INR 1) with 1 in *. lra.
Qed.

Lemma no_keys_empty {V : Type} (m : JsMap.t V) :
  (forall k, JsMap.has m k = false) -> m = [].
Proof.
  destruct m as [|[k v] m]; [reflexivity|]. intros H. specialize (H k).
  unfold JsMap.has in H. simpl in H. rewrite String.eqb_refl in H.
  discriminate.
Qed.

Lemma termFrequencies_empty_vocabulary (tokens : list string) :
  termFrequencies [] tokens = [].
Proof.
  unfold termFrequencies.
  assert (H : forall acc, fold_left (countTerm []) tokens acc = acc).
  { induction tokens as [|a tokens IH]; intros acc; simpl;
      [reflexivity | apply IH]. }
  apply H.
Qed.

Lemma autoInit_initialized (text : string) (s : SparseEmbedding) :
  isInitialized (autoInit text s) = true.
Proof.
  unfold autoInit. destruct (isInitialized s) eqn:E; [exact E | reflexivity].
Qed.

(** [embed] sees the encoder only through its automatic initialisation. *)
Lemma embed_autoInit (text : string) (s : SparseEmbedding) :
  embed text s = embed text (autoInit text s).
Proof.
  assert (A : autoInit text (autoInit text s) = autoInit text s).
  { unfold autoInit at 1. now rewrite autoInit_initialized. }
  unfold embed. now rewrite A.
Qed.

Lemma embed_empty_vocabulary (text : string) (s : SparseEmbedding) :
  isInitialized s = true -> vocabulary s = [] ->
  embed text s = (emptyVector, s).
Proof.
  intros Hi Hv. unfold embed, autoInit. rewrite Hi. cbv zeta.
  destruct (List.length (tokenize (tokenMode (config s)) text));
    [reflexivity|].
  rewrite Hv, termFrequencies_empty_vocabulary. reflexivity.
Qed.

Lemma embedBatch_empty_vocabulary (texts : list string) (s : SparseEmbedding) :
  isInitialized s = true -> vocabulary s = [] ->
  embedBatch texts s = (repeat emptyVector (List.length texts), s).
Proof.
  intros Hi Hv. induction texts as [|text texts IH]; [reflexivity|].
  cbn [embedBatch]. rewrite (embed_empty_vocabulary text s Hi Hv), IH.
  reflexivity.
Qed.

Lemma autoInit_single_document (text : string) (s : SparseEmbedding) :
  isInitialized s = false -> maxDfRatio (config s) < 1 ->
  isInitialized (autoInit text s) = true
  /\ vocabulary (autoInit text s) = [].
Proof.
  intros Hi Hr. unfold autoInit. rewrite Hi. split; [reflexivity|].
  apply no_keys_empty. intros k.
  pose proof (buildVocabulary_tables text [] s k) as T. cbv zeta in T.
  cbn [List.length] in T. rewrite (keepsTerm_single _ _ Hr) in T.
  now destruct T as [T _].
Qed.

(** X17: an encoder whose vocabulary was never built, with [maxDfRatio] below
    1 (the default is 0.85), builds an empty vocabulary from the first
    text it is given: that call and every later [embed] and [embedBatch]
    return empty vectors only, until the vocabulary is rebuilt or
    imported. *)
Theorem embed_before_buildVocabulary_stays_empty
        (text : string) (s : SparseEmbedding) :
  isInitialized s = false ->
  maxDfRatio (config s) < 1 ->
  let s' := snd (embed text s) in
  fst (embed text s) = emptyVector
  /\ isInitialized s' = true
  /\ getVocabularySize s' = 0%nat
  /\ (forall text', embed text' s' = (emptyVector, s'))
  /\ (forall texts,
         embedBatch (text :: texts) s
         = (repeat emptyVector (S (List.length texts)), s')).
Proof.
  intros Hi Hr. cbv zeta. rewrite snd_embed.
  destruct (autoInit_single_document text s Hi Hr) as [Ai Av].
  assert (E : embed text s = (emptyVector, autoInit text s)).
  { rewrite <- (embed_empty_vocabulary text (autoInit text s) Ai Av).
    apply embed_autoInit. }
  split; [now rewrite E|]. split; [exact Ai|]. split.
  - unfold getVocabularySize. now rewrite Av.
  - split.
    + intros text'. now apply embed_empty_vocabulary.
    + intros texts. cbn [embedBatch]. rewrite E.
      rewrite (embedBatch_empty_vocabulary texts _ Ai Av). reflexivity.
Qed.

Lemma embed_before_buildVocabulary_stays_empty_witness :
  fst (embed "calculateTotalPrice(items)" (newSparseEmbedding defaultConfig))
  = emptyVector
  /\ forall text',
      embed text' (snd (embed "calculateTotalPrice(items)"
                              (newSparseEmbedding defaultConfig)))
      = (emptyVector,
         snd (embed "calculateTotalPrice(items)"
                    (newSparseEmbedding defaultConfig))).
Proof.
  destruct (embed_before_buildVocabulary_stays_empty
              "calculateTotalPrice(items)" (newSparseEmbedding defaultConfig))
    as (H1 & _ & _ & H2 & _).
  - reflexivity.
  - simpl. lra.
  - split; [exact H1 | exact H2].
Defined.

(* ================================================================== *)
(** * The encoder: how the score grows with the term frequency *)
(* ================================================================== *)

Lemma adjustedTf_increasing cfg (tf1 tf2 : nat) :
  (1 <= tf1 < tf2)%nat ->
  1 <= adjustedTfOf cfg tf1 < adjustedTfOf cfg tf2.
Proof.
  intros [H1 H2]. unfold adjustedTfOf.
  assert (I1 : 1 <= INR tf1) by (change 1 with (INR 1); now apply le_INR).
  assert (I2 : INR tf1 < INR tf2) by now apply lt_INR.
  destruct (sublinearTf cfg); [|lra].
  assert (L1 : 0 <= ln (INR tf1)).
  { destruct (Req_dec_T (INR tf1) 1) as [E|E].
    - rewrite E, ln_1. lra.
    - rewrite <- ln_1. left. apply ln_increasing; lra. }
  assert (L2 : ln (INR tf1) < ln (INR tf2)) by (apply ln_increasing; lra).
  lra.
Qed.

Lemma saturation (c t1 t2 : R) :
  0 < c -> 0 < t1 < t2 ->
  0 < t1 / (t1 + c) < t2 / (t2 + c) /\ t2 / (t2 + c) < 1.
Proof.
  intros Hc [H1 H2].
  assert (P1 : 0 < t1 / (t1 + c)) by (apply Rdiv_lt_0_compat; lra).
  assert (D : t2 / (t2 + c) - t1 / (t1 + c)
              = c * (t2 - t1) / ((t1 + c) * (t2 + c))) by (field; lra).
  assert (P2 : 0 < c * (t2 - t1) / ((t1 + c) * (t2 + c))).
  { apply Rdiv_lt_0_compat; apply Rmult_lt_0_compat; lra. }
  assert (U : 1 - t2 / (t2 + c) = c / (t2 + c)) by (field; lra).
  assert (P3 : 0 < c / (t2 + c)) by (apply Rdiv_lt_0_compat; lra).
  lra.
Qed.

(** The length normalisation of the denominator is positive for sane
    parameters. *)
Lemma normalisation_positive (s : SparseEmbedding) (docLength : nat) :
  0 < k1 (config s) -> 0 <= b (config s) <= 1 ->
  0 <= avgDocumentLength s -> (1 <= docLength)%nat ->
  0 < k1 (config s)
      * (1 - b (config s)
         + b (config s)
           * (INR docLength / or_default (avgDocumentLength s) 1)).
Proof.
  intros Hk [Hb0 Hb1] Ha Hl.
  assert (Il : 1 <= INR docLength)
    by (change 1 with (INR 1); now apply le_INR).
  assert (Pa : 0 < or_default (avgDocumentLength s) 1).
  { unfold or_default. destruct (Req_dec_T (avgDocumentLength s) 0); lra. }
  assert (Pq : 0 < INR docLength / or_default (avgDocumentLength s) 1)
    by (apply Rdiv_lt_0_compat; lra).
  apply Rmult_lt_0_compat; [exact Hk|].
  destruct (Req_dec_T (b (config s)) 1) as [E|E].
  - rewrite E. lra.
  - assert (0 <= b (config s)
                 * (INR docLength / or_default (avgDocumentLength s) 1))
      by (apply Rmult_le_pos; lra).
    lra.
Qed.

Lemma bm25_bounds (s : SparseEmbedding) (docLength : nat) (term : string)
      (idf : R) (tf1 tf2 : nat) :
  JsMap.get (idfCache s) term = Some idf -> 0 < idf ->
  0 < k1 (config s) -> 0 <= b (config s) <= 1 ->
  0 <= avgDocumentLength s -> (1 <= docLength)%nat ->
  (1 <= tf1 < tf2)%nat ->
  0 < bm25 s docLength term tf1 < bm25 s docLength term tf2
  /\ bm25 s docLength term tf2 < idf * (k1 (config s) + 1).
Proof.
  intros Hidf Hpos Hk Hb Ha Hl Htf. unfold bm25. rewrite Hidf. cbv zeta.
  pose proof (normalisation_positive s docLength Hk Hb Ha Hl) as Hc.
  set (c := k1 (config s) * _) in *.
  destruct (adjustedTf_increasing (config s) tf1 tf2 Htf) as [A1 A2].
  set (t1 := adjustedTfOf (config s) tf1) in *.
  set (t2 := adjustedTfOf (config s) tf2) in *.
  destruct (saturation c t1 t2 Hc) as [[S1 S2] S3]; [lra|].
  replace (t1 * (k1 (config s) + 1) / (t1 + c))
    with (t1 / (t1 + c) * (k1 (config s) + 1)) by (field; lra).
  replace (t2 * (k1 (config s) + 1) / (t2 + c))
    with (t2 / (t2 + c) * (k1 (config s) + 1)) by (field; lra).
  set (q1 := t1 / (t1 + c)) in *. set (q2 := t2 / (t2 + c)) in *.
  assert (K : 0 < k1 (config s) + 1) by lra.
  assert (M : 0 < idf * (k1 (config s) + 1))
    by (apply Rmult_lt_0_compat; lra).
  replace (idf * (q1 * (k1 (config s) + 1)))
    with (q1 * (idf * (k1 (config s) + 1))) by ring.
  replace (idf * (q2 * (k1 (config s) + 1)))
    with (q2 * (idf * (k1 (config s) + 1))) by ring.
  set (m := idf * (k1 (config s) + 1)) in *.
  repeat split.
  - apply Rmult_lt_0_compat; lra.
  - apply Rmult_lt_compat_r; lra.
  - rewrite <- (Rmult_1_l m) at 2. apply Rmult_lt_compat_r; lra.
Qed.

(** X18: for [k1 > 0], [0 <= b <= 1] and a term with a positive cached IDF,
    the score of the term in a non-empty text is positive, grows strictly
    with the number of occurrences, and stays below [idf * (k1 + 1)],
    with and without sublinear scaling. *)
Theorem bm25_grows_and_saturates
        (s : SparseEmbedding) (docLength : nat) (term : string) (idf : R)
        (tf1 tf2 : nat) :
  JsMap.get (idfCache s) term = Some idf -> 0 < idf ->
  0 < k1 (config s) -> 0 <= b (config s) <= 1 ->
  0 <= avgDocumentLength s -> (1 <= docLength)%nat ->
  (1 <= tf1 < tf2)%nat ->
  0 < bm25 s docLength term tf1
  /\ bm25 s docLength term tf1 < bm25 s docLength term tf2
  /\ bm25 s docLength term tf2 < idf * (k1 (config s) + 1).
Proof.
  intros Hidf Hpos Hk Hb Ha Hl Htf.
  destruct (bm25_bounds s docLength term idf tf1 tf2
                        Hidf Hpos Hk Hb Ha Hl Htf) as [[B1 B2] B3].
  now repeat split.
Qed.

Lemma bm25_grows_and_saturates_witness :
  0 < bm25 half_length_encoder 3 "ab" 1
  /\ bm25 half_length_encoder 3 "ab" 1 < bm25 half_length_encoder 3 "ab" 2
  /\ bm25 half_length_encoder 3 "ab" 2
     < 1 * (k1 (config half_length_encoder) + 1).
Proof.
  apply (bm25_grows_and_saturates half_length_encoder 3 "ab" 1 1 2).
  - reflexivity.
  - lra.
  - simpl. lra.
  - simpl. lra.
  - simpl. lra.
  - lia.
  - lia.
Defined.

(* ================================================================== *)
(** * The encoder: the entries of a sparse vector *)
(* ================================================================== *)

Lemma has_existsb {V : Type} (m : JsMap.t V) (k : string) :
  JsMap.has m k = existsb (String.eqb k) (JsMap.keys m).
Proof.
  unfold JsMap.has. induction m as [|[k' v] m IH]; simpl; [reflexivity|].
  rewrite (String.eqb_sym k k'). destruct (String.eqb k' k); [reflexivity|].
  exact IH.
Qed.

(** The terms counted by [embed], in the order in which the map lists
    them. *)
Lemma termFrequencies_keys (vocab : JsMap.t Z) (tokens : list string) :
  forall acc,
    JsMap.keys (fold_left (countTerm vocab) tokens acc)
    = fold_left (fun a y => JsSet.add String.eqb y a)
                (filter (JsMap.has vocab) tokens) (JsMap.keys acc).
Proof.
  induction tokens as [|a tokens IH]; intros acc; [reflexivity|].
  cbn [fold_left filter]. rewrite IH. unfold countTerm.
  destruct (JsMap.has vocab a); [|reflexivity].
  cbn [fold_left]. rewrite keys_set, has_existsb. reflexivity.
Qed.

Lemma knownTerms_keys (s : SparseEmbedding) (tokens : list string) :
  knownTerms s tokens
  = JsMap.keys (termFrequencies (vocabulary s) tokens).
Proof.
  unfold knownTerms, termFrequencies, JsSet.of_list.
  now rewrite termFrequencies_keys.
Qed.

Lemma entries_by_keys {V : Type} (m : JsMap.t V) (g : string -> V) :
  (forall k v, In (k, v) m -> v = g k) ->
  m = map (fun k => (k, g k)) (JsMap.keys m).
Proof.
  induction m as [|[k v] m IH]; intros H; [reflexivity|].
  cbn [JsMap.keys map fst]. rewrite <- (H k v (or_introl eq_refl)).
  f_equal. apply IH. intros k' v' Hin. apply H. now right.
Qed.

Lemma filter_all {A : Type} (p : A -> bool) (l : list A) :
  (forall x, In x l -> p x = true) -> filter p l = l.
Proof.
  induction l as [|x l IH]; intros H; [reflexivity|]. simpl.
  rewrite (H x (or_introl eq_refl)). f_equal. apply IH.
  intros y Hy. apply H. now right.
Qed.

Lemma termFrequencies_by_count (vocab : JsMap.t Z) (tokens : list string) :
  termFrequencies vocab tokens
  = map (fun k => (k, count_occ string_dec tokens k))
        (JsMap.keys (termFrequencies vocab tokens)).
Proof.
  apply entries_by_keys. intros k v Hin.
  apply get_of_In in Hin; [|apply termFrequencies_NoDup; constructor].
  apply termFrequencies_get in Hin. now destruct Hin as (_ & _ & ->).
Qed.

Lemma knownTerms_In (s : SparseEmbedding) (tokens : list string)
      (term : string) :
  In term (knownTerms s tokens)
  <-> In term tokens /\ JsMap.has (vocabulary s) term = true.
Proof.
  rewrite knownTerms_keys, <- has_keys. unfold JsMap.has.
  destruct (JsMap.get (termFrequencies (vocabulary s) tokens) term)
    as [tf|] eqn:E.
  - apply termFrequencies_get in E. destruct E as (E1 & E2 & _).
    unfold JsMap.has in E1. tauto.
  - split; [discriminate|]. intros [Hin Hh]. exfalso.
    assert (G : JsMap.get (termFrequencies (vocabulary s) tokens) term
                = Some (count_occ string_dec tokens term))
      by (apply termFrequencies_get; now repeat split).
    congruence.
Qed.

(** After [buildVocabulary] every term of the vocabulary scores above
    zero in every text that contains it, for [k1 > 0] and [0 <= b <= 1]. *)
Lemma known_term_scores_positive (d : string) (ds : list string)
      (s0 : SparseEmbedding) (tokens : list string) (term : string) :
  0 < k1 (config s0) -> 0 <= b (config s0) <= 1 ->
  In term tokens ->
  JsMap.has (vocabulary (buildVocabulary (d :: ds) s0)) term = true ->
  0 < bm25 (buildVocabulary (d :: ds) s0) (List.length tokens) term
           (count_occ string_dec tokens term).
Proof.
  intros Hk Hb Hin Hh.
  pose proof (buildVocabulary_tables d ds s0 term) as T. cbv zeta in T.
  pose proof (docFrequency_le (tokenMode (config s0)) (d :: ds) term) as Hle.
  destruct (keepsTerm (config s0) (List.length (d :: ds))
                      (docFrequency (tokenMode (config s0)) (d :: ds) term));
    destruct T as (T1 & _ & T3); [|congruence].
  assert (Hl : (1 <= List.length tokens)%nat)
    by (destruct tokens; [contradiction | simpl; lia]).
  assert (Hc : (1 <= count_occ string_dec tokens term)%nat)
    by (apply (count_occ_In string_dec) in Hin; lia).
  assert (Ha : 0 <= avgDocumentLength (buildVocabulary (d :: ds) s0)).
  { unfold buildVocabulary. cbn [avgDocumentLength].
    apply Rmult_le_pos; [apply pos_INR|].
    left. apply Rinv_0_lt_compat. apply lt_0_INR. simpl. lia. }
  destruct (bm25_bounds (buildVocabulary (d :: ds) s0) (List.length tokens)
                        term _ (count_occ string_dec tokens term)
                        (S (count_occ string_dec tokens term)) T3)
    as [[B _] _]; auto; try lia.
  now apply idfOf_positive.
Qed.

(** X19: after [buildVocabulary], for [k1 > 0] and [0 <= b <= 1], [embed]
    returns exactly one entry for every distinct token of the text that
    is in the vocabulary, in the order of the first occurrences: the
    index of the term and its score for the number of its occurrences;
    the encoder is left as it was. *)
Theorem embed_one_entry_per_known_term
        (documents : list string) (s0 : SparseEmbedding) (text : string) :
  0 < k1 (config s0) -> 0 <= b (config s0) <= 1 ->
  let s := buildVocabulary documents s0 in
  let tokens := tokenize (tokenMode (config s0)) text in
  let terms := knownTerms s tokens in
  embed text s
  = ({| indices := map (indexOf s) terms;
        values := map (fun term =>
                         bm25 s (List.length tokens) term
                              (count_occ string_dec tokens term)) terms |},
     s)
  /\ NoDup terms
  /\ (forall term,
         In term terms
         <-> In term tokens /\ JsMap.has (vocabulary s) term = true).
Proof.
  intros Hk Hb. cbv zeta. split; [|split].
  - destruct documents as [|d ds].
    + rewrite embed_empty_vocabulary by reflexivity.
      rewrite knownTerms_keys. cbn [buildVocabulary vocabulary].
      unfold JsMap.empty. rewrite termFrequencies_empty_vocabulary.
      reflexivity.
    + set (s := buildVocabulary (d :: ds) s0).
      assert (Hc : config s = config s0) by reflexivity.
      assert (Hi : autoInit text s = s) by reflexivity.
      rewrite (surjective_pairing (embed text s)).
      rewrite snd_embed, embed_values. cbv zeta. rewrite Hi, Hc. f_equal.
      set (tokens := tokenize (tokenMode (config s0)) text).
      unfold scoredTerms. rewrite filter_all.
      * rewrite !map_map. cbn [fst snd]. rewrite knownTerms_keys.
        rewrite (termFrequencies_by_count (vocabulary s) tokens) at 1 2.
        rewrite !map_map. cbn [fst snd]. reflexivity.
      * intros [i v] Hin. apply in_map_iff in Hin.
        destruct Hin as [[term tf] [E Hin]]. cbn [fst snd] in E |- *.
        injection E as <- <-.
        apply get_of_In in Hin; [|apply termFrequencies_NoDup; constructor].
        apply termFrequencies_get in Hin. destruct Hin as (Hh & Ht & ->).
        apply Rltb_true.
        now apply known_term_scores_positive.
  - rewrite knownTerms_keys. apply termFrequencies_NoDup. constructor.
  - intros term. apply knownTerms_In.
Qed.

Lemma embed_one_entry_per_known_term_witness :
  let s := buildVocabulary ["red blue red"; "blue green"]
                           (newSparseEmbedding unitConfig) in
  let tokens := tokenize (tokenMode (config (newSparseEmbedding unitConfig)))
                         "green red green" in
  embed "green red green" s
  = ({| indices := map (indexOf s) (knownTerms s tokens);
        values := map (fun term =>
                         bm25 s (List.length tokens) term
                              (count_occ string_dec tokens term))
                      (knownTerms s tokens) |},
     s).
Proof.
  cbv zeta.
  destruct (embed_one_entry_per_known_term
              ["red blue red"; "blue green"] (newSparseEmbedding unitConfig)
              "green red green") as [H _].
  - simpl. lra.
  - simpl. lra.
  - exact H.
Defined.

(* ================================================================== *)
(** * The tokenizer: what a token can look like *)
(* ================================================================== *)

Lemma all_chars_and (p q : ascii -> bool) (s : string) :
  all_chars p s = true -> all_chars q s = true ->
  all_chars (fun c => p c && q c) s = true.
Proof.
  induction s as [|c s IH]; simpl; [reflexivity|]. intros Hp Hq.
  apply andb_true_iff in Hp, Hq. destruct Hp as [P1 P2], Hq as [Q1 Q2].
  now rewrite P1, Q1, IH.
Qed.

Lemma all_chars_suffix (q : ascii -> bool) (u rest : string) :
  all_chars q (u ++ rest) = true -> all_chars q rest = true.
Proof.
  rewrite all_chars_append. intros H. apply andb_true_iff in H. tauto.
Qed.

(** The pieces of a split are made of characters of the input. *)
Lemma split_pieces (r : regex) (q : ascii -> bool) :
  forall fuel s cur,
    all_chars q s = true -> all_chars q cur = true ->
    Forall (fun piece => all_chars q piece = true) (split_fuel fuel r s cur).
Proof.
  induction fuel as [|fuel IH]; intros s cur Hs Hc; cbn [split_fuel].
  - constructor; [|constructor]. now rewrite all_chars_append, Hc, Hs.
  - destruct s as [|c s]; [constructor; [exact Hc | constructor]|].
    destruct (match_at r (String c s)) as [[caps rest]|] eqn:E.
    + constructor; [exact Hc|]. apply IH; [|reflexivity].
      apply match_at_sound in E. destruct E as (u & E & _).
      rewrite E in Hs. now apply all_chars_suffix in Hs.
    + simpl in Hs. apply andb_true_iff in Hs. destruct Hs as [H1 H2].
      apply IH; [exact H2|]. rewrite all_chars_append, Hc. simpl.
      now rewrite H1.
Qed.

Lemma many_total {A : Type} (p : ascii -> bool) (s : string)
      (k : string -> option A) :
  (forall s', k s' <> None) -> many p s k <> None.
Proof.
  intros Hk. induction s as [|c s IH]; simpl; [apply Hk|].
  destruct (p c); [|apply Hk].
  destruct (many p s k); [discriminate | contradiction].
Qed.

(** A run of the class at the head of the input is always matched. *)
Lemma match_at_many1 (p : ascii -> bool) (c : ascii) (s : string) :
  match_at (Many1 p) (String c s)
  = if p c
    then many p s (fun rest => Some ([], rest))
    else None.
Proof. reflexivity. Qed.

Lemma match_at_many1_head (p : ascii -> bool) (c : ascii) (s : string) :
  p c = true ->
  exists caps rest, match_at (Many1 p) (String c s) = Some (caps, rest).
Proof.
  intros Hp. rewrite match_at_many1, Hp.
  destruct (many p s (fun rest => Some ([] : list string, rest)))
    as [[caps rest]|] eqn:E; [now exists caps, rest|].
  exfalso. revert E. apply many_total. discriminate.
Qed.

Lemma many1_neverEmpty (p : ascii -> bool) : neverEmpty (Many1 p).
Proof. intros u [H _]. exact H. Qed.

(** No piece of a split at runs of a class has a character of the
    class. *)
Lemma split_no_class (p : ascii -> bool) :
  forall fuel s cur,
    (String.length s < fuel)%nat ->
    all_chars (fun c => negb (p c)) cur = true ->
    Forall (fun piece => all_chars (fun c => negb (p c)) piece = true)
           (split_fuel fuel (Many1 p) s cur).
Proof.
  induction fuel as [|fuel IH]; intros s cur Hl Hc; [lia|].
  cbn [split_fuel]. destruct s as [|c s]; [constructor; [exact Hc | constructor]|].
  destruct (p c) eqn:Hp.
  - destruct (match_at_many1_head p c s Hp) as (caps & rest & E). rewrite E.
    constructor; [exact Hc|]. apply IH; [|reflexivity].
    pose proof (match_at_shorter _ _ _ _ (many1_neverEmpty p) E). lia.
  - rewrite match_at_many1, Hp. apply IH; [simpl in Hl; lia|].
    rewrite all_chars_append, Hc. simpl. now rewrite Hp.
Qed.

(** A replacement that puts in only characters of a class keeps the
    input inside the class. *)
Lemma replace_keeps (q : ascii -> bool) (r : regex)
      (tpl : list string -> string) :
  (forall caps, captures r caps -> all_chars q (tpl caps) = true) ->
  forall fuel s,
    all_chars q s = true -> all_chars q (replace_fuel fuel r tpl s) = true.
Proof.
  intros Ht. induction fuel as [|fuel IH]; intros s Hs; [exact Hs|].
  cbn [replace_fuel].
  destruct (match_at r s) as [[caps rest]|] eqn:E.
  - apply match_at_sound in E. destruct E as (u & E & _ & C).
    rewrite all_chars_append, (Ht caps C). cbn [andb]. apply IH.
    rewrite E in Hs. now apply all_chars_suffix in Hs.
  - destruct s as [|c s]; [reflexivity|]. simpl in Hs |- *.
    apply andb_true_iff in Hs. destruct Hs as [H1 H2].
    now rewrite H1, IH.
Qed.

(** Replacing the runs of a class leaves no character of the class. *)
Lemma replace_removes (p q : ascii -> bool) (blank : string) :
  all_chars (fun c => q c && negb (p c)) blank = true ->
  forall fuel s,
    (String.length s < fuel)%nat ->
    all_chars q s = true ->
    all_chars (fun c => q c && negb (p c))
              (replace_fuel fuel (Many1 p) (fun _ => blank) s) = true.
Proof.
  intros Hb. induction fuel as [|fuel IH]; intros s Hl Hs; [lia|].
  cbn [replace_fuel]. destruct s as [|c s]; [reflexivity|].
  destruct (p c) eqn:Hp.
  - destruct (match_at_many1_head p c s Hp) as (caps & rest & E). rewrite E.
    rewrite all_chars_append, Hb. cbn [andb].
    pose proof (match_at_shorter _ _ _ _ (many1_neverEmpty p) E).
    apply IH; [lia|].
    apply match_at_sound in E. destruct E as (u & E & _).
    rewrite E in Hs. now apply all_chars_suffix in Hs.
  - rewrite match_at_many1, Hp. simpl in Hs |- *.
    apply andb_true_iff in Hs. destruct Hs as [H1 H2].
    rewrite H1, Hp. cbn [andb negb]. apply IH; [simpl in Hl; lia | exact H2].
Qed.

(** ** Facts about single characters *)

Lemma to_lower_again : forall c,
  Ascii.eqb (Chr.to_lower (Chr.to_lower c)) (Chr.to_lower c) = true.
Proof. intros c; destruct c as [[] [] [] [] [] [] [] []]; vm_compute; reflexivity. Qed.

Lemma to_lower_codeTokenChar :
  forall c, codeTokenChar c = true -> codeTokenChar (Chr.to_lower c) = true.
Proof. by_char_cases. Qed.

Lemma letter_segmentChar : forall c, letter c = true -> segmentChar c = true.
Proof. by_char_cases. Qed.

Lemma letter_not_underscore :
  forall c, letter c = true -> negb (Chr.one_of [95; 45]%nat c) = true.
Proof. by_char_cases. Qed.

Lemma lower_letter : forall c, Chr.lower c = true -> letter c = true.
Proof. by_char_cases. Qed.

Lemma upper_letter : forall c, Chr.upper c = true -> letter c = true.
Proof. by_char_cases. Qed.

Lemma not_delim_segmentChar :
  forall c, negb (code_delim c) = true -> segmentChar c = true.
Proof. by_char_cases. Qed.

Lemma segment_piece_codeTokenChar :
  forall c,
    (segmentChar c && negb (Chr.one_of [95; 45]%nat c)) && negb (Chr.space c)
    = true ->
    codeTokenChar c = true.
Proof. by_char_cases. Qed.

(** ** Lower case *)

Lemma toLowerCase_fixed (s : string) :
  all_chars (fun c => Ascii.eqb (Chr.to_lower c) c) s = true ->
  toLowerCase s = s.
Proof.
  induction s as [|c s IH]; simpl; [reflexivity|]. intros H.
  apply andb_true_iff in H. destruct H as [H1 H2].
  apply Ascii.eqb_eq in H1. now rewrite H1, IH.
Qed.

Lemma toLowerCase_lowered (s : string) :
  all_chars (fun c => Ascii.eqb (Chr.to_lower c) c) (toLowerCase s) = true.
Proof.
  induction s as [|c s IH]; simpl; [reflexivity|].
  now rewrite to_lower_again, IH.
Qed.

Lemma toLowerCase_again (s : string) :
  toLowerCase (toLowerCase s) = toLowerCase s.
Proof. apply toLowerCase_fixed, toLowerCase_lowered. Qed.

Lemma toLowerCase_keeps (q : ascii -> bool) (s : string) :
  (forall c, q c = true -> q (Chr.to_lower c) = true) ->
  all_chars q s = true -> all_chars q (toLowerCase s) = true.
Proof.
  intros Hq. induction s as [|c s IH]; simpl; [reflexivity|]. intros H.
  apply andb_true_iff in H. destruct H as [H1 H2].
  now rewrite (Hq c H1), IH.
Qed.

(** ** The replacements of [tokenizeCode] *)

Lemma captures_camel (caps : list string) :
  captures re_camel caps ->
  exists u1 u2, tpl_1_sp_2 caps = (u1 ++ " " ++ u2)%string
                /\ all_chars letter u1 = true
                /\ all_chars letter u2 = true.
Proof.
  unfold re_camel. cbn [captures lang]. intros H. break_up. subst.
  eexists _, _. split; [reflexivity|]. simpl.
  split; rewrite andb_true_r; [now apply lower_letter | now apply upper_letter].
Qed.

Lemma captures_acronym (caps : list string) :
  captures re_acronym caps ->
  exists u1 u2, tpl_1_sp_2 caps = (u1 ++ " " ++ u2)%string
                /\ all_chars letter u1 = true
                /\ all_chars letter u2 = true.
Proof.
  unfold re_acronym. cbn [captures lang]. intros H. break_up. subst.
  eexists _, _. split; [reflexivity|]. split.
  - match goal with
    | H : all_chars Chr.upper _ = true |- _ =>
        revert H; apply all_chars_weaken, upper_letter
    end.
  - simpl. rewrite andb_true_r. apply andb_true_iff.
    split; [now apply upper_letter | now apply lower_letter].
Qed.

Lemma blanked_letters (q : ascii -> bool) (u1 u2 : string) :
  (forall c, letter c = true -> q c = true) -> q " "%char = true ->
  all_chars letter u1 = true -> all_chars letter u2 = true ->
  all_chars q (u1 ++ " " ++ u2) = true.
Proof.
  intros Hq Hs H1 H2. rewrite all_chars_append. simpl.
  rewrite (all_chars_weaken letter q u1 Hq H1), Hs.
  now rewrite (all_chars_weaken letter q u2 Hq H2).
Qed.

Lemma letter_blanked_class :
  forall c, letter c = true ->
            segmentChar c && negb (Chr.one_of [95; 45]%nat c) = true.
Proof.
  intros c H. now rewrite (letter_segmentChar c H), (letter_not_underscore c H).
Qed.

(** The tokens of one segment without delimiters. *)
Lemma segment_tokens (segment token : string) :
  all_chars (fun c => negb (code_delim c)) segment = true ->
  In token (tokenizeSegment segment) ->
  (2 <= String.length token)%nat
  /\ toLowerCase token = token
  /\ all_chars codeTokenChar token = true
  /\ isStopToken token = false.
Proof.
  intros Hseg. unfold tokenizeSegment.
  destruct (String.eqb segment EmptyString); [contradiction|]. cbv zeta.
  intros Hin. apply filter_In in Hin. destruct Hin as [Hin Hf].
  apply andb_true_iff in Hf. destruct Hf as [Hlen Hstop].
  apply Nat.ltb_lt in Hlen. apply negb_true_iff in Hstop.
  apply in_map_iff in Hin. destruct Hin as (part & <- & Hpart).
  assert (S1 : all_chars segmentChar
                         (replace_all re_camel tpl_1_sp_2 segment) = true).
  { apply replace_keeps.
    - intros caps C. destruct (captures_camel caps C) as (u1 & u2 & -> & H1 & H2).
      apply blanked_letters; auto using letter_segmentChar.
    - revert Hseg. apply all_chars_weaken, not_delim_segmentChar. }
  set (camelSplit := replace_all re_camel tpl_1_sp_2 segment) in *.
  assert (S2 : all_chars
                 (fun c => segmentChar c && negb (Chr.one_of [95; 45]%nat c))
                 (replace_all re_underscore (fun _ => " "%string) camelSplit)
               = true).
  { unfold replace_all, re_underscore.
    apply replace_removes; [reflexivity | lia | exact S1]. }
  set (underscoreSplit :=
         replace_all re_underscore (fun _ => " "%string) camelSplit) in *.
  assert (S3 : all_chars
                 (fun c => segmentChar c && negb (Chr.one_of [95; 45]%nat c))
                 (replace_all re_acronym tpl_1_sp_2 underscoreSplit) = true).
  { apply replace_keeps; [|exact S2].
    intros caps C. destruct (captures_acronym caps C) as (u1 & u2 & -> & H1 & H2).
    apply blanked_letters; auto using letter_blanked_class. }
  set (acronymSplit := replace_all re_acronym tpl_1_sp_2 underscoreSplit) in *.
  unfold split, re_spaces in Hpart.
  pose proof (split_pieces (Many1 Chr.space) _ (S (String.length acronymSplit))
                           acronymSplit EmptyString S3 eq_refl) as P1.
  pose proof (split_no_class Chr.space (S (String.length acronymSplit))
                             acronymSplit EmptyString (Nat.lt_succ_diag_r _)
                             eq_refl) as P2.
  rewrite Forall_forall in P1, P2.
  specialize (P1 part Hpart). specialize (P2 part Hpart). cbv beta in P1, P2.
  pose proof (all_chars_and _ _ part P1 P2) as P.
  apply (all_chars_weaken _ codeTokenChar part segment_piece_codeTokenChar) in P.
  repeat split.
  - lia.
  - apply toLowerCase_again.
  - apply toLowerCase_keeps; [exact to_lower_codeTokenChar | exact P].
  - exact Hstop.
Qed.

(** X20: every token has at least two characters and is in lower case.  In
    the simple mode it contains neither white space nor punctuation; in
    the code mode it contains neither white space, nor one of the
    delimiters, nor an underscore, and it is no stop token. *)
Theorem tokens_are_clean (mode : TokenMode) (text token : string) :
  In token (tokenize mode text) ->
  (2 <= String.length token)%nat
  /\ toLowerCase token = token
  /\ match mode with
     | simple => all_chars simpleTokenChar token = true
     | code =>
         all_chars codeTokenChar token = true /\ isStopToken token = false
     end.
Proof.
  destruct mode; cbn [tokenize].
  - unfold tokenizeSimple. intros Hin. apply filter_In in Hin.
    destruct Hin as [Hin Hlen]. apply Nat.ltb_lt in Hlen.
    unfold split, re_simple_delims in Hin.
    set (lowered := toLowerCase text) in *.
    pose proof (split_pieces (Many1 (fun c => Chr.space c || Chr.punct c))
                             (fun c => Ascii.eqb (Chr.to_lower c) c)
                             (S (String.length lowered)) lowered EmptyString
                             (toLowerCase_lowered text) eq_refl) as P1.
    pose proof (split_no_class (fun c => Chr.space c || Chr.punct c)
                               (S (String.length lowered)) lowered EmptyString
                               (Nat.lt_succ_diag_r _) eq_refl) as P2.
    rewrite Forall_forall in P1, P2.
    specialize (P1 token Hin). specialize (P2 token Hin). cbv beta in P1, P2.
    repeat split; [lia | now apply toLowerCase_fixed | exact P2].
  - unfold tokenizeCode. intros Hin. apply in_flat_map in Hin.
    destruct Hin as (segment & Hseg & Hin).
    unfold split, re_code_delims in Hseg.
    pose proof (split_no_class code_delim (S (String.length text)) text
                               EmptyString (Nat.lt_succ_diag_r _) eq_refl) as P.
    rewrite Forall_forall in P. specialize (P segment Hseg). cbv beta in P.
    destruct (segment_tokens segment token P Hin) as (H1 & H2 & H3 & H4).
    now repeat split.
Qed.

Lemma tokens_are_clean_witness :
  (2 <= String.length "http")%nat
  /\ toLowerCase "http" = "http"%string
  /\ all_chars codeTokenChar "http" = true /\ isStopToken "http" = false.
Proof.
  apply (tokens_are_clean code "XMLHttpRequest is the API" "http").
  vm_compute. right. left. reflexivity.
Defined.

(* ================================================================== *)
(** * The adapter: the cache of hybrid collections *)
(* ================================================================== *)

Lemma In_existsb (name : string) (cache : list string) :
  In name cache <-> existsb (String.eqb name) cache = true.
Proof.
  rewrite existsb_exists. split.
  - intros H. exists name. split; [exact H | apply String.eqb_refl].
  - intros (x & Hx & E). apply String.eqb_eq in E. now subst.
Qed.

Lemma In_add (name x : string) (cache : list string) :
  In name (JsSet.add String.eqb x cache) <-> In name cache \/ name = x.
Proof.
  rewrite !In_existsb, existsb_add, orb_true_iff, String.eqb_eq. tauto.
Qed.

(** One call: the names in the cache afterwards. *)
Lemma perform_In (cache : Cache) (st : Step) (name : string) :
  In name (fst (perform cache st)) <-> In name cache \/ marks name st = true.
Proof.
  unfold perform, marks. cbv zeta.
  destruct (st_call st) as [n d|n d|n|n| |n]; cbn [fst];
    try (split; [now left | intros [H|H]; [exact H | discriminate]]).
  - unfold createHybridCollection.
    destruct (hasCollection (st_collections st) n) as [listed evs].
    cbn [fst]. destruct listed; cbn [negb andb fst snd].
    + rewrite andb_false_r. cbn [andb].
      split; [now left | intros [H|H]; [exact H | discriminate]].
    + rewrite andb_true_r.
      destruct (client_createCollection (st_collections st) n
                                        (DenseAndSparse d)); cbn [fst snd].
      * rewrite In_add, andb_true_r, String.eqb_eq.
        split; intros [H|H]; auto.
      * rewrite andb_false_r.
        split; [now left | intros [H|H]; [exact H | discriminate]].
  - unfold isHybridCollection.
    destruct (existsb (String.eqb n) cache) eqn:E; cbn [fst snd].
    + split; [now left|]. intros [H|H]; [exact H|].
      apply andb_true_iff in H. destruct H as [H _].
      apply String.eqb_eq in H. subst n. now apply In_existsb.
    + destruct (client_getCollection (st_backend st) n) as [[|]|];
        cbn [fst snd]; rewrite ?andb_false_r;
        try (split; [now left | intros [H|H]; [exact H | discriminate]]).
      rewrite In_add, andb_true_r, String.eqb_eq.
      split; intros [H|H]; auto.
Qed.

Lemma performAll_In (steps : list Step) :
  forall (cache : Cache) (name : string),
    In name (fst (performAll steps cache))
    <-> In name cache \/ existsb (marks name) steps = true.
Proof.
  induction steps as [|st steps IH]; intros cache name;
    cbn [performAll existsb].
  - split; [now left | intros [H|H]; [exact H | discriminate]].
  - pose proof (perform_In cache st name) as P.
    destruct (perform cache st) as [cache1 trace1]. cbn [fst] in P.
    specialize (IH cache1 name).
    destruct (performAll steps cache1) as [cache2 trace2]. cbn [fst] in IH |- *.
    rewrite IH, P, orb_true_iff. tauto.
Qed.

(** X21: over any sequence of calls, with any answers of the backend, the
    cache of hybrid collections holds exactly the names it held at the
    start and the names recorded since; [dropCollection] and
    [createCollection] remove nothing.  A collection once recorded is
    therefore taken for hybrid ever after, without a question to the
    backend, also when it has been dropped and created again with one
    unnamed vector. *)
Theorem hybrid_mark_outlives_the_collection
        (steps : list Step) (cache : Cache) (collectionName : string) :
  let cache' := fst (performAll steps cache) in
  (In collectionName cache'
   <-> In collectionName cache \/ existsb (marks collectionName) steps = true)
  /\ (In collectionName cache' ->
      forall be, isHybridCollection be cache' collectionName
                 = (true, cache', [])).
Proof.
  cbv zeta. split; [apply performAll_In|].
  intros H be. unfold isHybridCollection.
  apply In_existsb in H. now rewrite H.
Qed.

Lemma hybrid_mark_outlives_the_collection_witness :
  isHybridCollection
    forgetful_backend
    (fst (performAll
            [ mkStep willing_collections forgetful_backend
                     (CreateHybridCollection "code" 768);
              mkStep willing_collections forgetful_backend
                     (DropCollection "code");
              mkStep willing_collections forgetful_backend
                     (CreateCollection "code" 768) ] []))
    "code"
  = (true, ["code"], []).
Proof.
  destruct (hybrid_mark_outlives_the_collection
              [ mkStep willing_collections forgetful_backend
                       (CreateHybridCollection "code" 768);
                mkStep willing_collections forgetful_backend
                       (DropCollection "code");
                mkStep willing_collections forgetful_backend
                       (CreateCollection "code" 768) ] [] "code") as [H1 H2].
  apply (H2 (proj2 H1 (or_intror eq_refl)) forgetful_backend).
Defined.

(* ================================================================== *)
(** * The reranker *)
(* ================================================================== *)

Lemma Rleb_le (x y : R) : Rleb x y = true -> x <= y.
Proof. unfold Rleb. destruct (Rle_dec x y); [auto | discriminate]. Qed.

(** X22: [rerank] sends no request for an empty list of documents and one
    request otherwise, asking for at least one result; every failure is
    reported with the prefix of the method.  The results are answers of
    the service, each with the document at its index (none for an index
    outside the list); a threshold other than zero keeps the results
    that reach it, while the threshold 0, like no threshold, keeps every
    answer, those with a negative score too. *)
Theorem rerank_threshold_zero_is_no_threshold
        (fetch : RerankRequest -> RerankResponse) (r : FireworksReranker)
        (query : string) (documents : list RerankDocument)
        (options : option RerankOptions) :
  let outcome := fst (rerank fetch r query documents options) in
  let requests := snd (rerank fetch r query documents options) in
  (documents = [] -> outcome = inr [] /\ requests = [])
  /\ (documents <> [] ->
      exists rq, requests = [rq]
                 /\ rq_documents rq = map rd_content documents
                 /\ (1 <= rq_top_n rq)%nat)
  /\ (forall message,
         outcome = inl message ->
         exists cause,
           message = ("Failed to rerank documents: " ++ cause)%string)
  /\ (forall results,
         outcome = inr results ->
         Forall (fun res => rr_document res
                            = nth_error documents (rr_index res)) results
         /\ (forall t, thresholdOf options = Some t -> t <> 0 ->
                       Forall (fun res => t <= rr_relevanceScore res) results)
         /\ (forall rq data,
                requests = [rq] -> fetch rq = Answer data ->
                thresholdOf options = None \/ thresholdOf options = Some 0 ->
                map (fun res => (rr_index res, rr_relevanceScore res)) results
                = data)).
Proof.
  cbv zeta. unfold rerank. destruct documents as [|d ds].
  - cbn [fst snd]. split; [now split|]. split; [congruence|].
    split; [discriminate|]. intros results [= <-].
    split; [constructor|]. split; [intros; constructor|].
    intros rq data [=].
  - set (documents := d :: ds).
    set (request := {| rq_url := _ |}).
    assert (Htop : (1 <= rq_top_n request)%nat).
    { cbn [rq_top_n request]. apply countOr_positive. simpl. lia. }
    split; [discriminate|]. split.
    { intros _. exists request.
      destruct (fetch request); cbn [snd]; now repeat split. }
    destruct (fetch request) as [message|status errorText|data] eqn:F;
      cbn [fst snd].
    + split; [|discriminate]. intros m [= <-]. now eexists.
    + split; [|discriminate]. intros m [= <-]. now eexists.
    + split; [discriminate|]. cbv zeta. intros answer E.
      set (rs := map _ data) in E.
      assert (Hdoc : Forall (fun res => rr_document res
                                        = nth_error documents (rr_index res))
                            rs).
      { apply Forall_forall. intros res Hin. apply in_map_iff in Hin.
        destruct Hin as (x & <- & _). reflexivity. }
      assert (Hall : map (fun res => (rr_index res, rr_relevanceScore res))
                         rs = data).
      { unfold rs. rewrite map_map. cbn [rr_index rr_relevanceScore].
        rewrite <- (map_id data) at 2. apply map_ext. now intros [i v]. }
      destruct (thresholdOf options) as [t|].
      * destruct (Req_dec_T t 0) as [E0|E0]; injection E as <-.
        -- repeat split; [exact Hdoc | | ].
           ++ intros t' [= <-] Hne. contradiction.
           ++ intros rq data' [= <-] F' _. congruence.
        -- repeat split.
           ++ apply Forall_forall. intros res Hin. apply filter_In in Hin.
              rewrite Forall_forall in Hdoc. now apply Hdoc.
           ++ intros t' [= <-] _. apply Forall_forall. intros res Hin.
              apply filter_In in Hin. now apply Rleb_le.
           ++ intros rq data' _ _ [H|H]; [discriminate | congruence].
      * injection E as <-. repeat split; [exact Hdoc | discriminate | ].
        intros rq data' [= <-] F' _. congruence.
Qed.

Lemma rerank_threshold_zero_is_no_threshold_witness :
  map (fun res => (rr_index res, rr_relevanceScore res))
      [ {| rr_document := Some (mkRerankDocument "b" "beta" None);
           rr_relevanceScore := - (1 / 2); rr_index := 1 |};
        {| rr_document := Some (mkRerankDocument "a" "alpha" None);
           rr_relevanceScore := 3 / 4; rr_index := 0 |} ]
  = [(1%nat, - (1 / 2)); (0%nat, 3 / 4)].
Proof.
  destruct (rerank_threshold_zero_is_no_threshold
              example_service (newFireworksReranker "key" None None) "query"
              example_rerank_documents None) as (_ & _ & _ & H).
  destruct (H _ eq_refl) as (_ & _ & H3).
  apply (H3 _ _ eq_refl eq_refl). now left.
Defined.

(* ================================================================== *)
(** * The encoder: the order of the corpus *)
(* ================================================================== *)

Lemma docFrequency_Permutation mode (l1 l2 : list string) (term : string) :
  Permutation l1 l2 -> docFrequency mode l1 term = docFrequency mode l2 term.
Proof.
  unfold docFrequency.
  induction 1 as [|x l1 l2 _ IH|x y l|l1 l2 l3 _ IH1 _ IH2]; simpl.
  - reflexivity.
  - destruct (mentions mode term x); simpl; now rewrite IH.
  - destruct (mentions mode term x), (mentions mode term y); reflexivity.
  - now rewrite IH1.
Qed.

Lemma totalTokens_Permutation mode (l1 l2 : list string) :
  Permutation l1 l2 -> totalTokens mode l1 = totalTokens mode l2.
Proof.
  unfold totalTokens, list_sum.
  induction 1 as [|x l1 l2 _ IH|x y l|l1 l2 l3 _ IH1 _ IH2]; simpl; lia.
Qed.

(** The counters of [embed] see the vocabulary through [has] alone. *)
Lemma termFrequencies_ext (v1 v2 : JsMap.t Z) (tokens : list string) :
  (forall t, JsMap.has v1 t = JsMap.has v2 t) ->
  termFrequencies v1 tokens = termFrequencies v2 tokens.
Proof.
  intros H. unfold termFrequencies. generalize (@JsMap.empty nat).
  induction tokens as [|a tokens IH]; intros acc; [reflexivity|].
  cbn [fold_left]. unfold countTerm at 2 4. rewrite (H a). apply IH.
Qed.

Lemma scored_values_ext (f1 f2 : string * nat -> Z * R)
      (l : list (string * nat)) :
  (forall e, snd (f1 e) = snd (f2 e)) ->
  map snd (filter (fun e => Rltb 0 (snd e)) (map f1 l))
  = map snd (filter (fun e => Rltb 0 (snd e)) (map f2 l)).
Proof.
  intros H. induction l as [|e l IH]; [reflexivity|]. cbn [map filter].
  rewrite (H e). destruct (Rltb 0 (snd (f2 e))); cbn [map]; now rewrite IH, ?H.
Qed.

(** The tables of two corpora that differ in the order of the documents
    agree term by term, and so do the totals. *)
Lemma buildVocabulary_Permutation (l1 l2 : list string) (s : SparseEmbedding) :
  Permutation l1 l2 ->
  let s1 := buildVocabulary l1 s in
  let s2 := buildVocabulary l2 s in
  (forall t, JsMap.has (vocabulary s1) t = JsMap.has (vocabulary s2) t)
  /\ (forall t, JsMap.get (documentFrequency s1) t
                = JsMap.get (documentFrequency s2) t)
  /\ (forall t, JsMap.get (idfCache s1) t = JsMap.get (idfCache s2) t)
  /\ totalDocuments s1 = totalDocuments s2
  /\ avgDocumentLength s1 = avgDocumentLength s2.
Proof.
  intros P. cbv zeta. destruct l1 as [|d1 r1].
  - apply Permutation_nil in P. subst l2. now repeat split.
  - destruct l2 as [|d2 r2];
      [apply Permutation_sym, Permutation_nil in P; discriminate|].
    pose proof (Permutation_length P) as Hlen.
    assert (T : forall t,
      JsMap.has (vocabulary (buildVocabulary (d1 :: r1) s)) t
      = JsMap.has (vocabulary (buildVocabulary (d2 :: r2) s)) t
      /\ JsMap.get (documentFrequency (buildVocabulary (d1 :: r1) s)) t
         = JsMap.get (documentFrequency (buildVocabulary (d2 :: r2) s)) t
      /\ JsMap.get (idfCache (buildVocabulary (d1 :: r1) s)) t
         = JsMap.get (idfCache (buildVocabulary (d2 :: r2) s)) t).
    { intros t.
      pose proof (buildVocabulary_tables d1 r1 s t) as T1.
      pose proof (buildVocabulary_tables d2 r2 s t) as T2.
      cbv zeta in T1, T2.
      rewrite <- (docFrequency_Permutation _ _ _ t P), <- Hlen in T2.
      destruct (keepsTerm _ _ _);
        destruct T1 as (A1 & A2 & A3), T2 as (B1 & B2 & B3);
        now rewrite A1, A2, A3, B1, B2, B3. }
    split; [apply T|]. split; [apply T|]. split; [apply T|]. split.
    + change (INR (List.length (d1 :: r1)) = INR (List.length (d2 :: r2))).
      now rewrite Hlen.
    + unfold buildVocabulary. cbn [avgDocumentLength].
      destruct (countDocuments_counted (tokenMode (config s)) (d1 :: r1))
        as [_ ->].
      destruct (countDocuments_counted (tokenMode (config s)) (d2 :: r2))
        as [_ ->].
      now rewrite (totalTokens_Permutation _ _ _ P), Hlen.
Qed.

(** X23: the order of the documents in the corpus decides the indices of
    the terms and nothing else: two encoders built from the same
    documents in different orders know the same terms, with the same
    document frequencies and IDF values, and [embed] returns the same
    scores in the same order for every text. *)
Theorem corpus_order_changes_indices_only
        (documents documents' : list string) (s : SparseEmbedding)
        (text : string) :
  Permutation documents documents' ->
  let s1 := buildVocabulary documents s in
  let s2 := buildVocabulary documents' s in
  values (fst (embed text s1)) = values (fst (embed text s2))
  /\ (forall term,
         JsMap.has (vocabulary s1) term = JsMap.has (vocabulary s2) term
         /\ JsMap.get (documentFrequency s1) term
            = JsMap.get (documentFrequency s2) term
         /\ JsMap.get (idfCache s1) term = JsMap.get (idfCache s2) term)
  /\ avgDocumentLength s1 = avgDocumentLength s2.
Proof.
  intros P. cbv zeta.
  destruct (buildVocabulary_Permutation documents documents' s P)
    as (Hv & Hd & Hi & _ & Ha).
  split; [|split; [now intros term; repeat split | exact Ha]].
  rewrite !embed_values. cbn [values].
  assert (I1 : autoInit text (buildVocabulary documents s)
               = buildVocabulary documents s)
    by (unfold autoInit; now destruct documents).
  assert (I2 : autoInit text (buildVocabulary documents' s)
               = buildVocabulary documents' s)
    by (unfold autoInit; now destruct documents').
  rewrite I1, I2.
  assert (C1 : config (buildVocabulary documents s) = config s)
    by now destruct documents.
  assert (C2 : config (buildVocabulary documents' s) = config s)
    by now destruct documents'.
  rewrite C1, C2.
  set (tokens := tokenize (tokenMode (config s)) text).
  rewrite (termFrequencies_ext _ _ tokens Hv).
  unfold scoredTerms. apply scored_values_ext.
  intros [term tf]. cbn [fst snd]. unfold bm25.
  now rewrite Hi, C1, C2, Ha.
Qed.

Lemma corpus_order_changes_indices_only_witness :
  values (fst (embed "green red"
                     (buildVocabulary ["red blue red"; "blue green"]
                                      (newSparseEmbedding unitConfig))))
  = values (fst (embed "green red"
                       (buildVocabulary ["blue green"; "red blue red"]
                                        (newSparseEmbedding unitConfig)))).
Proof.
  apply (corpus_order_changes_indices_only
           ["red blue red"; "blue green"] ["blue green"; "red blue red"]
           (newSparseEmbedding unitConfig) "green red").
  apply perm_swap.
Defined.
